(** * Glass CLI: command dispatch, bridge client and table resolution

    A shallow embedding of the core of the Glass CLI browser extension:
    the command registry ([CommandRegistry]), the table-name resolution of
    the [list] command ([ListCommand]), the bridge client of
    [src/lib/api.js] ([ServiceNowAPI]), the background-script runner
    ([BackgroundScript]) and the page-context bridge ([ApiBridge]).
    [Json] holds the JSON values the runner returns and a reference parser,
    [Samples] the concrete data the examples use.  The definitions come
    first; the properties of the code follow under [Properties].

    JavaScript strings are modelled as Rocq strings whose characters are
    the UTF-16 code units below 256 (the Latin-1 range); the helpers of
    [JsString] follow ECMAScript on that range. *)

From Stdlib Require Import String Ascii NArith ZArith List Bool Lia Sorted Permutation.
From stdpp Require Import base option list gmap strings pretty.

Local Open Scope string_scope.
Local Open Scope list_scope.

(** ** ECMAScript string primitives used by the sources *)

Module JsString.

(** Code unit of a character. *)
Definition code (c : ascii) : N := N_of_ascii c.

(** [WhiteSpace] and [LineTerminator] code units below 256: TAB, LF, VT,
    FF, CR, SP and NBSP.  This is the set [String.prototype.trim] strips and
    the regular-expression class [\s] matches. *)
Definition isWhiteSpace (c : ascii) : bool :=
  let n := code c in
  ((9 <=? n) && (n <=? 13) || (n =? 32) || (n =? 160))%N.

(** Upper-case letters of Latin-1: A-Z, and U+00C0-U+00DE except the
    multiplication sign U+00D7.  Each is 32 below its lower-case form. *)
Definition isUpper (c : ascii) : bool :=
  let n := code c in
  ((65 <=? n) && (n <=? 90) || (192 <=? n) && (n <=? 222) && negb (n =? 215))%N.

Definition lowerChar (c : ascii) : ascii :=
  if isUpper c then ascii_of_N (code c + 32) else c.

(** [String.prototype.toLowerCase]. *)
Fixpoint toLowerCase (s : string) : string :=
  match s with
  | EmptyString => EmptyString
  | String c r => String (lowerChar c) (toLowerCase r)
  end.

(** Truthiness of a string value: only the empty string is falsy. *)
Definition truthy (s : string) : bool :=
  match s with EmptyString => false | _ => true end.

(** Truthiness of a possibly absent ([undefined]) string property. *)
Definition truthyOpt (o : option string) : bool :=
  match o with Some s => truthy s | None => false end.

(** [String.prototype.startsWith]. *)
Fixpoint startsWith (s p : string) {struct p} : bool :=
  match p, s with
  | EmptyString, _ => true
  | String _ _, EmptyString => false
  | String a p', String b s' => if Ascii.eqb a b then startsWith s' p' else false
  end.

(** [String.prototype.indexOf]: position of the first occurrence. *)
Fixpoint indexOf (s p : string) : option nat :=
  if startsWith s p then Some 0
  else match s with
       | EmptyString => None
       | String _ r => S <$> indexOf r p
       end.

(** [String.prototype.includes]. *)
Definition includes (s p : string) : bool := bool_decide (is_Some (indexOf s p)).

(** [s.substring(n)]. *)
Fixpoint substringFrom (n : nat) (s : string) : string :=
  match n, s with
  | O, _ => s
  | S n', String _ r => substringFrom n' r
  | S _, EmptyString => EmptyString
  end.

(** [s.substring(0, n)]. *)
Fixpoint substringTo (n : nat) (s : string) : string :=
  match n, s with
  | S n', String c r => String c (substringTo n' r)
  | _, _ => EmptyString
  end.

Fixpoint trimStart (s : string) : string :=
  match s with
  | String c r => if isWhiteSpace c then trimStart r else s
  | EmptyString => EmptyString
  end.

Fixpoint trimEnd (s : string) : string :=
  match s with
  | EmptyString => EmptyString
  | String c r =>
      match trimEnd r with
      | EmptyString => if isWhiteSpace c then EmptyString else String c EmptyString
      | r' => String c r'
      end
  end.

(** [String.prototype.trim]. *)
Definition trim (s : string) : string := trimEnd (trimStart s).

(** [s.split(sep)] for a one-character separator: the pieces between
    occurrences, empty pieces included; the empty string gives one empty
    piece. *)
Fixpoint splitChar (sep : ascii) (s : string) : list string :=
  match s with
  | EmptyString => [EmptyString]
  | String c r =>
      if Ascii.eqb c sep then EmptyString :: splitChar sep r
      else match splitChar sep r with
           | piece :: rest => String c piece :: rest
           | [] => [String c EmptyString]
           end
  end.

(** [s.split(/\s+/)]: the pieces between maximal runs of white space.
    [inRun] says the previous character belonged to a separator run, whose
    following piece has already been opened. *)
Fixpoint splitWsFrom (inRun : bool) (s : string) : list string :=
  match s with
  | EmptyString => [EmptyString]
  | String c r =>
      if isWhiteSpace c then
        if inRun then splitWsFrom true r
        else EmptyString :: splitWsFrom true r
      else match splitWsFrom false r with
           | piece :: rest => String c piece :: rest
           | [] => [String c EmptyString]
           end
  end.

Definition splitWhitespace (s : string) : list string := splitWsFrom false s.

(** A string of white space only; the empty string is one. *)
Fixpoint isBlank (s : string) : bool :=
  match s with
  | EmptyString => true
  | String c r => isWhiteSpace c && isBlank r
  end.

(** The last character of a string exists and is not white space. *)
Fixpoint endsInInk (s : string) : bool :=
  match s with
  | EmptyString => false
  | String c EmptyString => negb (isWhiteSpace c)
  | String _ r => endsInInk r
  end.

(** [array.join(sep)] on strings. *)
Fixpoint join (sep : string) (l : list string) : string :=
  match l with
  | [] => EmptyString
  | [x] => x
  | x :: rest => x ++ sep ++ join sep rest
  end.

(** Some character of the string is white space. *)
Fixpoint hasWhiteSpace (s : string) : bool :=
  match s with
  | EmptyString => false
  | String c r => isWhiteSpace c || hasWhiteSpace r
  end.

End JsString.

Import JsString.

(** ** The command registry ([CommandRegistry]) *)

Module CommandRegistry.

(** A value returned by a command's [validate(args)]: the validators of
    the repository return [true] or a usage string; [false], [undefined]
    and [null] are the other values the dispatcher distinguishes. *)
Inductive validation_result :=
  | VTrue
  | VFalse
  | VUndefined
  | VNull
  | VString (s : string).

(** Truthiness, as used by [validationResult || ...]. *)
Definition vtruthy (v : validation_result) : bool :=
  match v with
  | VTrue => true
  | VString s => truthy s
  | _ => false
  end.

(** [String(v)], the message [new Error(v)] carries. *)
Definition vToString (v : validation_result) : string :=
  match v with
  | VTrue => "true"
  | VFalse => "false"
  | VUndefined => "undefined"
  | VNull => "null"
  | VString s => s
  end.

(** How the promise of a command's [execute(args, context)] settles. *)
Inductive completion :=
  | Fulfilled
  | Rejected (message : string).

(** A command definition object.  [cmd_name] and [cmd_execute] may be
    absent; an absent or non-array [aliases] property is the empty list. *)
Record command := {
  cmd_name : option string;
  cmd_aliases : list string;
  cmd_validate : option (list string -> validation_result);
  cmd_execute : option (list string -> completion)
}.

(** The two maps of the registry: lower-cased name to command object, and
    lower-cased alias to lower-cased command name. *)
Record registry := {
  commands : gmap string command;
  aliases : gmap string string
}.

Definition empty_registry : registry :=
  {| commands := ∅; aliases := ∅ |}.

(** Outcome of a call: normal return, or a thrown [Error] with its message. *)
Inductive outcome :=
  | Returned
  | Thrown (message : string).

Definition InvalidDescriptor : string :=
  "Command must have a name and execute function".

(** [register(command)].  The registry is mutable state: the function
    returns the registry after the call together with the outcome. *)
Definition register (c : command) (r : registry) : registry * outcome :=
  match cmd_name c, cmd_execute c with
  | Some n, Some _ =>
      if truthy n then
        let key := toLowerCase n in
        ({| commands := <[key := c]> (commands r);
            aliases := foldl (fun m alias => <[toLowerCase alias := key]> m)
                             (aliases r) (cmd_aliases c) |},
         Returned)
      else (r, Thrown InvalidDescriptor)
  | _, _ => (r, Thrown InvalidDescriptor)
  end.

(** The command modules register themselves one after the other as they
    load; a throwing registration does not stop the later ones. *)
Definition registerAll (cs : list command) (r : registry) : registry :=
  foldl (fun acc c => fst (register c acc)) r cs.

(** [get(name)]: the name map first, then the alias map. *)
Definition get (name : string) (r : registry) : option command :=
  let normalizedName := toLowerCase name in
  match commands r !! normalizedName with
  | Some c => Some c
  | None =>
      match aliases r !! normalizedName with
      | Some realName => commands r !! realName
      | None => None
      end
  end.

(** A definition object that [register] accepts, and the key it is
    stored under. *)
Definition accepted (c : command) : bool :=
  truthyOpt (cmd_name c) && bool_decide (is_Some (cmd_execute c)).

Definition keyOf (c : command) : string :=
  toLowerCase (default EmptyString (cmd_name c)).

Definition aliasKeys (c : command) : list string :=
  map toLowerCase (cmd_aliases c).

(** The callbacks of command objects that a dispatch invokes, in order. *)
Inductive invocation :=
  | InvokeValidate (c : command) (args : list string)
  | InvokeExecute (c : command) (args : list string).

Definition isInvokeExecute (i : invocation) : bool :=
  match i with InvokeExecute _ _ => true | InvokeValidate _ _ => false end.

(** [commandLine.trim().split(/\s+/)]; the split of a string always has a
    first piece. *)
Definition parts (commandLine : string) : list string :=
  splitWhitespace (trim commandLine).

Definition commandName (commandLine : string) : string :=
  hd EmptyString (parts commandLine).

Definition args (commandLine : string) : list string :=
  tl (parts commandLine).

Definition UnknownCommand (commandName : string) : string :=
  "Unknown command: " ++ commandName ++ ". Type 'help' for available commands.".

Definition nameText (c : command) : string :=
  match cmd_name c with Some n => n | None => "undefined" end.

Definition InvalidArguments (c : command) : string :=
  "Invalid arguments for " ++ nameText c.

(** The end of [execute]: [await command.execute(args, context)].  A
    registered command has an [execute]; calling an absent one is a
    [TypeError]. *)
Definition runCommand (c : command) (args : list string)
  : list invocation * outcome :=
  match cmd_execute c with
  | Some run =>
      ([InvokeExecute c args],
       match run args with
       | Fulfilled => Returned
       | Rejected e => Thrown e
       end)
  | None => ([], Thrown "command.execute is not a function")
  end.

(** [execute(commandLine, context)]: the invocations made, and whether the
    returned promise is fulfilled or rejected. *)
Definition execute (commandLine : string) (r : registry)
  : list invocation * outcome :=
  let commandName := commandName commandLine in
  let args := args commandLine in
  match get commandName r with
  | None => ([], Thrown (UnknownCommand commandName))
  | Some c =>
      match cmd_validate c with
      | Some validate =>
          let validationResult := validate args in
          match validationResult with
          | VTrue =>
              let '(calls, out) := runCommand c args in
              (InvokeValidate c args :: calls, out)
          | _ =>
              ([InvokeValidate c args],
               Thrown (if vtruthy validationResult
                       then vToString validationResult
                       else InvalidArguments c))
          end
      | None => runCommand c args
      end
  end.

(** [executeCommand] of [src/main.js]: the dispatch, with every rejection
    caught and shown through [ui.showError(error.message)].  The result is
    the invocations made and the error shown, if any. *)
Definition executeCommand (commandLine : string) (r : registry)
  : list invocation * option string :=
  let '(calls, out) := execute commandLine r in
  (calls, match out with Returned => None | Thrown e => Some e end).

(** [getCommandNames()]: the keys of both maps through a [Set], so without
    duplicates.  The array lists them in insertion order; that order is not
    part of the registry as modelled here, and the result is kept as the set
    of its elements. *)
Definition getCommandNames (r : registry) : gset string :=
  dom (commands r) ∪ dom (aliases r).

(** [findMatching(prefix)], as the set of its elements. *)
Definition findMatching (prefix : string) (r : registry) : gset string :=
  let normalizedPrefix := toLowerCase prefix in
  filter (fun name => startsWith name normalizedPrefix = true) (getCommandNames r).

(** What registration keeps true of a registry: a command is stored under
    its own lower-cased name and was acceptable to [register], and an alias
    leads to a name that is stored. *)
Definition consistent (r : registry) : Prop :=
  (forall key c, commands r !! key = Some c -> accepted c = true /\ key = keyOf c)
  /\ (forall alias key, aliases r !! alias = Some key -> is_Some (commands r !! key)).

(** The invocations a dispatch may make for command [c] and arguments
    [args]: none, the validator alone, [execute] alone, or the validator and
    then [execute]. *)
Definition invocationShapes (c : command) (args : list string)
  : list (list invocation) :=
  [ [];
    [InvokeValidate c args];
    [InvokeExecute c args];
    [InvokeValidate c args; InvokeExecute c args] ].

End CommandRegistry.

(** ** Table lookup of the [list] command ([src/commands/list.js]) *)

Module ListCommand.

(** A cached table definition: [name] is the display label, [table] the
    technical table name. *)
Record table_def := {
  name : string;
  table : string
}.

(** [Array.prototype.sort(compare)]: a stable sort, as ECMAScript requires;
    an element stays in front of the later elements it does not compare
    greater than. *)
Fixpoint sortInsert {A} (compare : A -> A -> Z) (x : A) (l : list A) : list A :=
  match l with
  | [] => [x]
  | y :: l' =>
      if (0 <? compare x y)%Z then y :: sortInsert compare x l'
      else x :: l
  end.

Fixpoint sort {A} (compare : A -> A -> Z) (l : list A) : list A :=
  match l with
  | [] => []
  | x :: l' => sortInsert compare x (sort compare l')
  end.

(** The order the results are ranked by within a group: the technical
    name of [a] is no longer than that of [b]. *)
Definition shorterId (a b : table_def) : Prop :=
  String.length (table a) <= String.length (table b).

(** [(a, b) => a.table.length - b.table.length]. *)
Definition sortByLength (a b : table_def) : Z :=
  (Z.of_nat (String.length (table a)) - Z.of_nat (String.length (table b)))%Z.

Definition isStartsWithMatch (lowerInput : string) (def : table_def) : bool :=
  startsWith (toLowerCase (name def)) lowerInput
  || startsWith (toLowerCase (table def)) lowerInput.

Definition isIncludesMatch (lowerInput : string) (def : table_def) : bool :=
  negb (startsWith (toLowerCase (name def)) lowerInput)
  && negb (startsWith (toLowerCase (table def)) lowerInput)
  && (includes (toLowerCase (name def)) lowerInput
      || includes (toLowerCase (table def)) lowerInput).

(** [findMatchingTables(input)], over the list [tables] that
    [getTableDefinitions()] returns. *)
Definition findMatchingTables (tables : list table_def) (input : string)
  : list table_def :=
  if negb (truthy input) then []
  else
    let lowerInput := toLowerCase input in
    let startsWithMatches :=
      sort sortByLength (List.filter (isStartsWithMatch lowerInput) tables) in
    let includesMatches :=
      sort sortByLength (List.filter (isIncludesMatch lowerInput) tables) in
    take 10 (startsWithMatches ++ includesMatches).

(** [resolveTableName(input)], over the same list. *)
Definition resolveTableName (tables : list table_def) (input : string) : string :=
  let lowerInput := toLowerCase input in
  match List.find (fun def => String.eqb (toLowerCase (table def)) lowerInput) tables with
  | Some exactTable => table exactTable
  | None =>
      match List.find (fun def => String.eqb (toLowerCase (name def)) lowerInput) tables with
      | Some exactName => table exactName
      | None => toLowerCase input
      end
  end.

(** *** The cache of table definitions *)

(** [CACHE_DURATION], twelve hours in milliseconds. *)
Definition CACHE_DURATION : Z := 12 * 60 * 60 * 1000.

(** The item of [localStorage] under the cache key, as
    [loadCacheFromStorage] sees it: text that [JSON.parse] refuses or that
    holds no usable [timestamp], or what [saveCacheToStorage] wrote. *)
Inductive item :=
  | Malformed
  | Saved (tables : list table_def) (timestamp : Z).

(** A row of [sys_db_object] as [api.tableGet] returns it. *)
Record row := {
  row_name : string;
  row_label : option string
}.

(** [t => ({ name: t.label || t.name, table: t.name })]. *)
Definition toDefinition (t : row) : table_def :=
  {| name := if truthyOpt (row_label t) then default EmptyString (row_label t)
             else row_name t;
     table := row_name t |}.

(** Where the body of the asynchronous function inside
    [fetchTableDefinitions] stands: at [await context.getInstanceUrl()] or
    at [await api.tableGet(...)]. *)
Inductive phase :=
  | AwaitingInstanceUrl
  | AwaitingTables.

Definition isAwaitingTables (ph : phase) : bool :=
  match ph with AwaitingTables => true | AwaitingInstanceUrl => false end.

(** The variables of the module, the storage item, and what is going on:
    the bodies that are suspended with the promise each will settle, the
    number of [api.tableGet] calls made so far, the promises created and
    the values they were resolved with.  [storageAvailable] is false when
    [localStorage] throws on access. *)
Record cache := {
  cachedTables : list table_def;
  cacheTimestamp : Z;
  isFetching : bool;
  fetchPromise : option nat;
  storage : option item;
  storageAvailable : bool;
  running : list (nat * phase);
  requests : nat;
  promises : nat;
  resolved : list (nat * list table_def)
}.

Definition emptyCache (stored : option item) (available : bool) : cache :=
  {| cachedTables := []; cacheTimestamp := 0; isFetching := false;
     fetchPromise := None; storage := stored; storageAvailable := available;
     running := []; requests := 0; promises := 0; resolved := [] |}.

(** [loadCacheFromStorage()], with [now] the value of [Date.now()]. *)
Definition loadCacheFromStorage (now : Z) (st : cache) : bool * cache :=
  if storageAvailable st then
    match storage st with
    | Some (Saved tables timestamp) =>
        if (now - timestamp <? CACHE_DURATION)%Z then
          (true,
           {| cachedTables := tables; cacheTimestamp := timestamp;
              isFetching := isFetching st; fetchPromise := fetchPromise st;
              storage := storage st; storageAvailable := storageAvailable st;
              running := running st; requests := requests st;
              promises := promises st; resolved := resolved st |})
        else (false, st)
    | _ => (false, st)
    end
  else (false, st).

(** [saveCacheToStorage(tables)]. *)
Definition saveCacheToStorage (tables : list table_def) (now : Z) (st : cache) : cache :=
  if storageAvailable st then
    {| cachedTables := cachedTables st; cacheTimestamp := cacheTimestamp st;
       isFetching := isFetching st; fetchPromise := fetchPromise st;
       storage := Some (Saved tables now); storageAvailable := storageAvailable st;
       running := running st; requests := requests st;
       promises := promises st; resolved := resolved st |}
  else st.

(** What a call of [fetchTableDefinitions] gives its caller: a promise
    already resolved with the cached tables, or one that follows the
    promise [p] of a fetch. *)
Inductive answer :=
  | Now (tables : list table_def)
  | Later (p : nat).

(** The end of the asynchronous body: its promise is resolved with
    [cachedTables], and [finally] clears the two markers. *)
Definition finish (p : nat) (st : cache) : cache :=
  {| cachedTables := cachedTables st; cacheTimestamp := cacheTimestamp st;
     isFetching := false; fetchPromise := None;
     storage := storage st; storageAvailable := storageAvailable st;
     running := List.filter (fun b => negb (Nat.eqb (fst b) p)) (running st);
     requests := requests st; promises := promises st;
     resolved := resolved st ++ [(p, cachedTables st)] |}.

(** [fetchTableDefinitions()] up to its return.  [collaborators] says
    whether [window.GlassAPI] and [window.GlassContext] both exist; [now]
    and [nowLoad] are the readings of [Date.now()] in the first test and in
    [loadCacheFromStorage].  When a collaborator is missing the body runs to
    its end at once, [finally] included, before [fetchPromise] is assigned. *)
Definition fetchTableDefinitions (collaborators : bool) (now nowLoad : Z) (st : cache)
  : answer * cache :=
  if Nat.ltb 0 (length (cachedTables st))
     && (now - cacheTimestamp st <? CACHE_DURATION)%Z
  then (Now (cachedTables st), st)
  else
    let '(loaded, st1) := loadCacheFromStorage nowLoad st in
    if loaded then (Now (cachedTables st1), st1)
    else
      match isFetching st1, fetchPromise st1 with
      | true, Some p => (Later p, st1)
      | _, _ =>
          let p := promises st1 in
          if collaborators then
            (Later p,
             {| cachedTables := cachedTables st1; cacheTimestamp := cacheTimestamp st1;
                isFetching := true; fetchPromise := Some p;
                storage := storage st1; storageAvailable := storageAvailable st1;
                running := running st1 ++ [(p, AwaitingInstanceUrl)];
                requests := requests st1; promises := S p;
                resolved := resolved st1 |})
          else
            (Later p,
             {| cachedTables := cachedTables st1; cacheTimestamp := cacheTimestamp st1;
                isFetching := false; fetchPromise := Some p;
                storage := storage st1; storageAvailable := storageAvailable st1;
                running := running st1;
                requests := requests st1; promises := S p;
                resolved := resolved st1 ++ [(p, cachedTables st1)] |})
      end.

(** [getTableDefinitions()], with the readings of [Date.now()] in the
    order they are taken. *)
Definition getTableDefinitions (collaborators : bool)
    (nowLoad nowStale nowFetch nowFetchLoad : Z) (st : cache)
  : list table_def * cache :=
  let st1 :=
    if Nat.eqb (length (cachedTables st)) 0
    then snd (loadCacheFromStorage nowLoad st) else st in
  let st2 :=
    if (CACHE_DURATION <=? nowStale - cacheTimestamp st1)%Z
    then snd (fetchTableDefinitions collaborators nowFetch nowFetchLoad st1)
    else st1 in
  (cachedTables st2, st2).

(** Body [p] is suspended at the first await, or at the second. *)
Definition suspended (p : nat) (atTables : bool) (st : cache) : bool :=
  existsb (fun b => Nat.eqb (fst b) p && Bool.eqb (isAwaitingTables (snd b)) atTables)
          (running st).

(** The body of fetch [p] resumes after [await context.getInstanceUrl()]:
    [url] is [None] when the call failed or gave nothing truthy.  With a
    url the body calls [api.tableGet] and waits again. *)
Definition instanceUrlArrives (p : nat) (url : option string) (st : cache) : cache :=
  if suspended p false st then
    if truthyOpt url then
      {| cachedTables := cachedTables st; cacheTimestamp := cacheTimestamp st;
         isFetching := isFetching st; fetchPromise := fetchPromise st;
         storage := storage st; storageAvailable := storageAvailable st;
         running := map (fun b => if Nat.eqb (fst b) p then (p, AwaitingTables) else b)
                        (running st);
         requests := S (requests st); promises := promises st;
         resolved := resolved st |}
    else finish p st
  else st.

(** The body of fetch [p] resumes after [await api.tableGet(...)]:
    [result] is [None] when the call threw.  [nowStamp] and [nowSave] are
    the readings of [Date.now()] for [cacheTimestamp] and in
    [saveCacheToStorage]. *)
Definition tablesArrive (p : nat) (result : option (list row))
    (nowStamp nowSave : Z) (st : cache) : cache :=
  if suspended p true st then
    match result with
    | Some (t :: ts) =>
        let tables := map toDefinition (t :: ts) in
        finish p
          (saveCacheToStorage tables nowSave
             {| cachedTables := tables; cacheTimestamp := nowStamp;
                isFetching := isFetching st; fetchPromise := fetchPromise st;
                storage := storage st; storageAvailable := storageAvailable st;
                running := running st; requests := requests st;
                promises := promises st; resolved := resolved st |})
    | _ => finish p st
    end
  else st.

(** What can happen to the cache. *)
Inductive cacheEvent :=
  | CallFetch (collaborators : bool) (now nowLoad : Z)
  | CallGet (collaborators : bool) (nowLoad nowStale nowFetch nowFetchLoad : Z)
  | InstanceUrl (p : nat) (url : option string)
  | TablesArrive (p : nat) (result : option (list row)) (nowStamp nowSave : Z).

Definition cacheStep (e : cacheEvent) (st : cache) : cache :=
  match e with
  | CallFetch c now nowLoad => snd (fetchTableDefinitions c now nowLoad st)
  | CallGet c n1 n2 n3 n4 => snd (getTableDefinitions c n1 n2 n3 n4 st)
  | InstanceUrl p url => instanceUrlArrives p url st
  | TablesArrive p result n1 n2 => tablesArrive p result n1 n2 st
  end.

Definition cacheRun (es : list cacheEvent) (st : cache) : cache :=
  foldl (fun s e => cacheStep e s) st es.

(** At most one fetch is in flight, and the two markers say so. *)
Definition singleFlight (st : cache) : Prop :=
  match running st with
  | [] => isFetching st = false
  | [(p, _)] => isFetching st = true /\ fetchPromise st = Some p /\ p < promises st
  | _ => False
  end.

(** The stored item, if it is one that [saveCacheToStorage] wrote, holds
    at least one table. *)
Definition storedNonEmpty (st : cache) : Prop :=
  forall tables timestamp, storage st = Some (Saved tables timestamp) -> tables <> [].

(** The tables whose display name or technical name contains the
    lower-cased input. *)
Definition isMatch (lowerInput : string) (def : table_def) : bool :=
  includes (toLowerCase (name def)) lowerInput
  || includes (toLowerCase (table def)) lowerInput.

(** The ranking of the lookup: [a] is ranked no later than [b] when [a]
    is a starts-with match and [b] is not, or when they are in the same
    group and the technical name of [a] is no longer than that of [b]. *)
Definition rankedBefore (lowerInput : string) (a b : table_def) : Prop :=
  (isStartsWithMatch lowerInput a = true /\ isStartsWithMatch lowerInput b = false)
  \/ (isStartsWithMatch lowerInput a = isStartsWithMatch lowerInput b
      /\ shorterId a b).

(** The memory cache is empty or holds the tables of the stored item:
    the module is the only writer of the item. *)
Definition coherent (st : cache) : Prop :=
  cachedTables st = []
  \/ (forall stored stamp,
        storageAvailable st = true ->
        storage st = Some (Saved stored stamp) ->
        cachedTables st = stored).

(** *** The command ([validate], [execute]) *)

(** The four readings of [Date.now()] a call of [getTableDefinitions] may
    take, in the order they are taken. *)
Record readings := {
  atLoad : Z;
  atStale : Z;
  atFetch : Z;
  atFetchLoad : Z
}.

(** The clock does not go backwards within the readings. *)
Definition ordered (r : readings) : Prop :=
  (atLoad r <= atStale r /\ atStale r <= atFetch r /\ atFetch r <= atFetchLoad r)%Z.

Definition getTableDefinitionsAt (collaborators : bool) (r : readings) (st : cache)
  : list table_def * cache :=
  getTableDefinitions collaborators (atLoad r) (atStale r) (atFetch r) (atFetchLoad r) st.

(** The command object of the module. *)
Module Command.

(** What the command does to the panel and the page. *)
Inductive did :=
  | ShowError (text : string)
  | ShowSuccess (text : string)
  | Hide
  | Navigate (href : string).

(** [validate(args)]. *)
Definition validate (args : list string) : CommandRegistry.validation_result :=
  match args with
  | [] => CommandRegistry.VString "Usage: list <table_name>"
  | _ => CommandRegistry.VTrue
  end.

(** [execute(args, ctx)] from the point where [instanceUrl] is known:
    [resolveTableName] reads the table definitions, and the body reads
    them again for the display name. *)
Definition execute (args : list string) (instanceUrl : option string)
    (collaborators : bool) (first second : readings) (st : cache)
  : list did * cache :=
  let input := join " " args in
  if negb (truthyOpt instanceUrl) then
    ([ShowError "Unable to detect instance."], st)
  else
    let instance := default EmptyString instanceUrl in
    let '(tables1, st1) := getTableDefinitionsAt collaborators first st in
    let tableName := resolveTableName tables1 input in
    let '(tables2, st2) := getTableDefinitionsAt collaborators second st1 in
    let displayName :=
      match List.find (fun def => String.eqb (table def) tableName) tables2 with
      | Some tableDef => name tableDef +:+ " (" +:+ tableName +:+ ")"
      | None => tableName
      end in
    ([ShowSuccess ("Navigating to " +:+ displayName +:+ "...");
      Hide;
      Navigate (instance +:+ "/" +:+ tableName +:+ "_list.do")],
     st2).

End Command.

End ListCommand.

(** ** The bridge client ([ServiceNowAPI] of [src/lib/api.js]) *)

Module ServiceNowAPI.

(** The data of a message event: the [type] and [messageId] properties,
    either of which may be missing, and the other properties. *)
Record message := {
  type : option string;
  messageId : option string;
  fields : list (string * string)
}.

(** An entry of [messageHandlers].  [resolve] and [reject] are the two
    capabilities of one promise, kept here as the promise's identifier;
    [timeout] is the identifier [setTimeout] returned, a positive integer. *)
Record handler := {
  promise : nat;
  timeout : positive
}.

(** A pending timer callback: the timeout closure of [_sendMessage], with
    the [messageId], [type] and [reject] it captured, or the delayed
    [window.postMessage] of the request. *)
Inductive task :=
  | TimeoutTask (messageId : string) (type : string) (promise : nat)
  | PostTask (m : message).

(** The observable operations of the client, in the order they happen. *)
Inductive op :=
  | MapSet (messageId : string)
  | MapDelete (messageId : string)
  | ClearTimeout (t : positive)
  | Resolve (promise : nat) (data : message)
  | Reject (promise : nat) (error : string)
  | PostMessage (m : message).

Record state := {
  messageHandlers : gmap string handler;
  messageIdCounter : N;
  timers : gmap positive task;
  nextTimer : positive;
  nextPromise : nat;
  log : list op
}.

(** The state the constructor leaves. *)
Definition initial : state :=
  {| messageHandlers := ∅; messageIdCounter := 0; timers := ∅;
     nextTimer := 1; nextPromise := 0; log := [] |}.

(** The template literal of [_generateMessageId]. *)
Definition messageIdOf (now counter : N) : string :=
  "glass_" ++ pretty now ++ "_" ++ pretty counter.

(** [_generateMessageId()], with [now] the value of [Date.now()]. *)
Definition _generateMessageId (now : N) (st : state) : string * state :=
  let counter := (messageIdCounter st + 1)%N in
  (messageIdOf now counter,
   {| messageHandlers := messageHandlers st; messageIdCounter := counter;
      timers := timers st; nextTimer := nextTimer st;
      nextPromise := nextPromise st; log := log st |}).

Fixpoint property (key : string) (data : list (string * string)) : option string :=
  match data with
  | [] => None
  | (k, v) :: rest =>
      match property key rest with
      | Some later => Some later
      | None => if String.eqb k key then Some v else None
      end
  end.

(** The object literal [{ type, messageId, ...data }]: a property of
    [data] with one of the two names overrides it. *)
Definition request (type messageId : string) (data : list (string * string))
  : message :=
  {| type := Some (default type (property "type" data));
     messageId := Some (default messageId (property "messageId" data));
     fields := data |}.

(** [_sendMessage(type, data, timeout)] from the point where
    [await this.ensureBridgeReady()] has returned: the whole executor of the
    new promise runs in one turn.  The result is the new promise, the
    generated id and the timeout timer.  Timers are fired by the event
    loop, see [Fire]; their delays are not modelled. *)
Definition _sendMessage (type : string) (data : list (string * string))
    (now : N) (st : state) : (nat * string * positive) * state :=
  let '(messageId, st1) := _generateMessageId now st in
  let p := nextPromise st1 in
  let timeoutId := nextTimer st1 in
  let postId := Pos.succ timeoutId in
  ((p, messageId, timeoutId),
   {| messageHandlers :=
        <[messageId := {| promise := p; timeout := timeoutId |}]> (messageHandlers st1);
      messageIdCounter := messageIdCounter st1;
      timers := <[postId := PostTask (request type messageId data)]>
                  (<[timeoutId := TimeoutTask messageId type p]> (timers st1));
      nextTimer := Pos.succ postId;
      nextPromise := S p;
      log := log st1 ++ [MapSet messageId] |}).

(** [_handleMessage(event)] for an event whose [data] is [m]. *)
Definition _handleMessage (m : message) (st : state) : state :=
  match messageId m with
  | None => st
  | Some id =>
      if negb (truthy id) then st
      else
        match messageHandlers st !! id with
        | None => st
        | Some h =>
            if negb (truthyOpt (type m))
               || negb (includes (default EmptyString (type m)) "Response")
            then st
            else
              {| messageHandlers := delete id (messageHandlers st);
                 messageIdCounter := messageIdCounter st;
                 timers := delete (timeout h) (timers st);
                 nextTimer := nextTimer st;
                 nextPromise := nextPromise st;
                 log := log st ++ [MapDelete id; ClearTimeout (timeout h);
                                   Resolve (promise h) m] |}
        end
  end.

(** A timer fires: a cleared or unknown timer does nothing; otherwise the
    timer is consumed and its callback runs. *)
Definition fireTimer (t : positive) (st : state) : state :=
  match timers st !! t with
  | None => st
  | Some (TimeoutTask id ty p) =>
      {| messageHandlers := delete id (messageHandlers st);
         messageIdCounter := messageIdCounter st;
         timers := delete t (timers st);
         nextTimer := nextTimer st;
         nextPromise := nextPromise st;
         log := log st ++ [MapDelete id; Reject p ("Request timed out: " ++ ty)] |}
  | Some (PostTask m) =>
      {| messageHandlers := messageHandlers st;
         messageIdCounter := messageIdCounter st;
         timers := delete t (timers st);
         nextTimer := nextTimer st;
         nextPromise := nextPromise st;
         log := log st ++ [PostMessage m] |}
  end.

(** What the event loop can make the client do. *)
Inductive event :=
  | Send (type : string) (data : list (string * string)) (now : N)
  | Deliver (m : message)
  | Fire (t : positive).

Definition step (e : event) (st : state) : state :=
  match e with
  | Send ty data now => snd (_sendMessage ty data now st)
  | Deliver m => _handleMessage m st
  | Fire t => fireTimer t st
  end.

Definition run (es : list event) (st : state) : state :=
  foldl (fun s e => step e s) st es.

(** How a promise is settled. *)
Inductive settlement :=
  | ResolvedWith (data : message)
  | RejectedWith (error : string).

(** The calls of a promise's [resolve] and [reject] in a log, in order. *)
Fixpoint settlements (p : nat) (l : list op) : list settlement :=
  match l with
  | [] => []
  | Resolve q data :: l' =>
      if Nat.eqb p q then ResolvedWith data :: settlements p l' else settlements p l'
  | Reject q error :: l' =>
      if Nat.eqb p q then RejectedWith error :: settlements p l' else settlements p l'
  | _ :: l' => settlements p l'
  end.

(** The state of a promise: the first settlement wins, later calls of
    [resolve] or [reject] are ignored. *)
Definition promiseState (p : nat) (st : state) : option settlement :=
  head (settlements p (log st)).

(** Number of [messageHandlers.delete(id)] calls in a log. *)
Fixpoint deletions (id : string) (l : list op) : nat :=
  match l with
  | [] => 0
  | MapDelete id' :: l' =>
      if String.eqb id id' then S (deletions id l') else deletions id l'
  | _ :: l' => deletions id l'
  end.

(** A message that [_handleMessage] takes as the response to request
    [id]: it carries that id and its type contains [Response]. *)
Definition isResponseFor (id : string) (m : message) : bool :=
  match messageId m, type m with
  | Some i, Some ty => String.eqb i id && includes ty "Response"
  | _, _ => false
  end.

(** An id that [_generateMessageId] has produced in the past of [st]. *)
Definition generated (st : state) (id : string) : Prop :=
  exists now c, id = messageIdOf now c /\ (c <= messageIdCounter st)%N.

(** What holds of every state the client reaches: a pending entry owns a
    live timeout timer and an unsettled promise, and the other way round;
    timers and promises not yet handed out are unused; ids in use were
    generated; nothing is deleted or settled twice. *)
Record wf (st : state) : Prop := {
  wf_handler_timer : forall id h,
    messageHandlers st !! id = Some h ->
    exists ty, timers st !! timeout h = Some (TimeoutTask id ty (promise h));
  wf_timer_handler : forall t id ty p,
    timers st !! t = Some (TimeoutTask id ty p) ->
    messageHandlers st !! id = Some {| promise := p; timeout := t |};
  wf_timer_fresh : forall t,
    (nextTimer st <= t)%positive -> timers st !! t = None;
  wf_pending : forall id h,
    messageHandlers st !! id = Some h ->
    promise h < nextPromise st
    /\ settlements (promise h) (log st) = []
    /\ deletions id (log st) = 0;
  wf_promise_fresh : forall p,
    nextPromise st <= p -> settlements p (log st) = [];
  wf_promise_owner : forall id1 id2 h1 h2,
    messageHandlers st !! id1 = Some h1 ->
    messageHandlers st !! id2 = Some h2 ->
    promise h1 = promise h2 -> id1 = id2;
  wf_generated : forall id,
    is_Some (messageHandlers st !! id) \/ 0 < deletions id (log st) ->
    generated st id;
  wf_settled_once : forall p, length (settlements p (log st)) <= 1;
  wf_deleted_once : forall id, deletions id (log st) <= 1
}.

(** Request [id], sent with type [ty], promise [p] and timeout timer [t],
    is pending: its entry and its timer are in place, and so far the entry
    has not been deleted and the promise has not been settled. *)
Definition pendingAt (id ty : string) (p : nat) (t : positive) (st : state) : Prop :=
  messageHandlers st !! id = Some {| promise := p; timeout := t |}
  /\ timers st !! t = Some (TimeoutTask id ty p)
  /\ deletions id (log st) = 0
  /\ settlements p (log st) = [].

(** The request is settled with [s]: its entry and its timer are gone, the
    entry was deleted once and the promise settled once, with [s]. *)
Definition settledAt (id : string) (p : nat) (t : positive) (s : settlement)
    (st : state) : Prop :=
  messageHandlers st !! id = None
  /\ timers st !! t = None
  /\ deletions id (log st) = 1
  /\ settlements p (log st) = [s].

(** The public methods of the client that send a request, and the type
    each gives to [_sendMessage]. *)
Inductive apiMethod :=
  | TableGet
  | LookupUser
  | Impersonate
  | EndImpersonate
  | GetCurrentUser
  | Request.

Definition requestType (m : apiMethod) : string :=
  match m with
  | TableGet => "glassApiRequest"
  | LookupUser => "snEzApiRequest"
  | Impersonate => "snEzImpersonateRequest"
  | EndImpersonate => "snEzEndImpersonateRequest"
  | GetCurrentUser => "snEzCurrentUserRequest"
  | Request => "glassApiRequest"
  end.


(** *** Loading the bridge ([ensureBridgeReady]) *)

(** What has become of the [script] element that loads [api-bridge.js]. *)
Inductive loading :=
  | NotInjected
  | Loading
  | Loaded
  | Failed.

(** How the promise of [ensureBridgeReady] was settled. *)
Inductive readiness :=
  | ReadyResolved (p : nat)
  | ReadyRejected (p : nat) (error : string).

(** The part of the client and of the page that [ensureBridgeReady] works
    on: the two fields of the client, whether [readyHandler] is registered
    as a listener, the script element and how many were appended, whether
    the timer of [script.onload] is pending, the page global
    [window.snEzApiBridge], and the promises created and settled. *)
Record bridgeState := {
  bridgeReady : bool;
  bridgeReadyPromise : option nat;
  listening : bool;
  script : loading;
  injected : nat;
  fallbackPending : bool;
  snEzApiBridge : bool;
  created : nat;
  settled : list readiness
}.

Definition noBridge : bridgeState :=
  {| bridgeReady := false; bridgeReadyPromise := None; listening := false;
     script := NotInjected; injected := 0; fallbackPending := false;
     snEzApiBridge := false; created := 0; settled := [] |}.

(** What a call of [ensureBridgeReady] returns: nothing to wait for, or
    the promise to wait for. *)
Inductive waitFor :=
  | Nothing
  | Promise (p : nat).

(** The shared end of [readyHandler] and of the fallback timer:
    [removeEventListener], [bridgeReady = true], [resolve()]. *)
Definition becomeReady (st : bridgeState) : bridgeState :=
  {| bridgeReady := true; bridgeReadyPromise := bridgeReadyPromise st;
     listening := false; script := script st; injected := injected st;
     fallbackPending := fallbackPending st; snEzApiBridge := snEzApiBridge st;
     created := created st;
     settled := settled st ++ match bridgeReadyPromise st with
                              | Some p => [ReadyResolved p]
                              | None => []
                              end |}.

(** [ensureBridgeReady()] up to its return. *)
Definition ensureBridgeReady (st : bridgeState) : waitFor * bridgeState :=
  if bridgeReady st then (Nothing, st)
  else
    match bridgeReadyPromise st with
    | Some p => (Promise p, st)
    | None =>
        let p := created st in
        if snEzApiBridge st then
          (Promise p,
           {| bridgeReady := true; bridgeReadyPromise := Some p;
              listening := listening st; script := script st;
              injected := injected st; fallbackPending := fallbackPending st;
              snEzApiBridge := snEzApiBridge st; created := S p;
              settled := settled st ++ [ReadyResolved p] |})
        else
          (Promise p,
           {| bridgeReady := false; bridgeReadyPromise := Some p;
              listening := true; script := Loading;
              injected := S (injected st); fallbackPending := fallbackPending st;
              snEzApiBridge := snEzApiBridge st; created := S p;
              settled := settled st |})
    end.

(** What can happen while the bridge loads: a call of
    [ensureBridgeReady]; the bridge script runs in the page (it sets
    [window.snEzApiBridge]; its ready message comes as a message of its
    own); a message of type [glassBridgeReady] arrives; the script element
    fires [load] or [error]; the timer set by [onload] fires. *)
Inductive bridgeEvent :=
  | EnsureCalled
  | BridgeRuns
  | ReadyMessage
  | ScriptLoad
  | ScriptError
  | FallbackFires.

Definition bridgeStep (e : bridgeEvent) (st : bridgeState) : bridgeState :=
  match e with
  | EnsureCalled => snd (ensureBridgeReady st)
  | BridgeRuns =>
      {| bridgeReady := bridgeReady st; bridgeReadyPromise := bridgeReadyPromise st;
         listening := listening st; script := script st; injected := injected st;
         fallbackPending := fallbackPending st; snEzApiBridge := true;
         created := created st; settled := settled st |}
  | ReadyMessage => if listening st then becomeReady st else st
  | ScriptLoad =>
      match script st with
      | Loading =>
          {| bridgeReady := bridgeReady st; bridgeReadyPromise := bridgeReadyPromise st;
             listening := listening st; script := Loaded; injected := injected st;
             fallbackPending := true; snEzApiBridge := snEzApiBridge st;
             created := created st; settled := settled st |}
      | _ => st
      end
  | ScriptError =>
      match script st with
      | Loading =>
          {| bridgeReady := bridgeReady st; bridgeReadyPromise := bridgeReadyPromise st;
             listening := false; script := Failed; injected := injected st;
             fallbackPending := fallbackPending st; snEzApiBridge := snEzApiBridge st;
             created := created st;
             settled := settled st ++ match bridgeReadyPromise st with
                                      | Some p => [ReadyRejected p "Failed to load API bridge"]
                                      | None => []
                                      end |}
      | _ => st
      end
  | FallbackFires =>
      if fallbackPending st then
        let st' :=
          {| bridgeReady := bridgeReady st; bridgeReadyPromise := bridgeReadyPromise st;
             listening := listening st; script := script st; injected := injected st;
             fallbackPending := false; snEzApiBridge := snEzApiBridge st;
             created := created st; settled := settled st |} in
        if bridgeReady st then st' else becomeReady st'
      else st
  end.

Definition bridgeRun (es : list bridgeEvent) (st : bridgeState) : bridgeState :=
  foldl (fun s e => bridgeStep e s) st es.

(** What holds while the bridge loads: the promise and the script element
    are created once; a script element that exists was appended; the
    listener is registered only while the script
    loads or has loaded, the fallback timer only after it has loaded;
    [resolve] is called only where [bridgeReady] is set; a failed script
    has rejected the promise. *)
Record loadingOk (st : bridgeState) : Prop := {
  injected_once : injected st <= 1;
  created_once : created st <= 1;
  nothing_before :
    bridgeReadyPromise st = None ->
    created st = 0 /\ injected st = 0 /\ script st = NotInjected
    /\ bridgeReady st = false;
  appended_once : script st <> NotInjected -> injected st = 1;
  listening_script :
    listening st = true -> script st = Loading \/ script st = Loaded;
  fallback_script : fallbackPending st = true -> script st = Loaded;
  resolved_ready :
    forall p, In (ReadyResolved p) (settled st) -> bridgeReady st = true;
  failed_rejected :
    script st = Failed ->
    exists p, bridgeReadyPromise st = Some p
              /\ In (ReadyRejected p "Failed to load API bridge") (settled st)
}.

(** A client whose script failed before it became ready. *)
Definition gaveUp (p : nat) (st : bridgeState) : Prop :=
  script st = Failed /\ bridgeReady st = false /\ listening st = false
  /\ fallbackPending st = false /\ bridgeReadyPromise st = Some p
  /\ In (ReadyRejected p "Failed to load API bridge") (settled st)
  /\ ~ In (ReadyResolved p) (settled st).

(** Decimal digits. *)
Definition isDigit (c : ascii) : bool :=
  let n := code c in ((48 <=? n) && (n <=? 57))%N.

Fixpoint isDigits (s : string) : bool :=
  match s with
  | EmptyString => true
  | String c r => isDigit c && isDigits r
  end.

End ServiceNowAPI.

(** ** JSON values and a reference [JSON.parse] *)

Module Json.

(** A JSON value.  A number [JNumber m e] is [m * 10^e], with [m] not a
    multiple of ten unless it is zero; an object lists its properties in
    insertion order. *)
#[local] Unset Elimination Schemes.
Inductive json :=
  | JNull
  | JBool (b : bool)
  | JNumber (m e : Z)
  | JString (s : string)
  | JArray (items : list json)
  | JObject (members : list (string * json)).
#[local] Set Elimination Schemes.

(** JSON white space: space, tab, line feed, carriage return. *)
Definition isJsonSpace (c : ascii) : bool :=
  let n := code c in ((n =? 32) || (n =? 9) || (n =? 10) || (n =? 13))%N.

Fixpoint skipSpace (s : string) : string :=
  match s with
  | String c r => if isJsonSpace c then skipSpace r else s
  | EmptyString => EmptyString
  end.

Definition digitValue (c : ascii) : option Z :=
  let n := code c in
  if ((48 <=? n) && (n <=? 57))%N then Some (Z.of_N n - 48)%Z else None.

Definition hexValue (c : ascii) : option N :=
  let n := code c in
  if ((48 <=? n) && (n <=? 57))%N then Some (n - 48)%N
  else if ((65 <=? n) && (n <=? 70))%N then Some (n - 55)%N
  else if ((97 <=? n) && (n <=? 102))%N then Some (n - 87)%N
  else None.

(** A maximal run of digits: the digits read so far as a number, how many
    were read, and the rest of the input. *)
Fixpoint digits (acc : Z) (count : nat) (s : string) : Z * nat * string :=
  match s with
  | String c r =>
      match digitValue c with
      | Some d => digits (10 * acc + d) (S count) r
      | None => (acc, count, s)
      end
  | EmptyString => (acc, count, s)
  end.

(** Drops the trailing zeros of a mantissa into the exponent. *)
Fixpoint normalize (fuel : nat) (m e : Z) : Z * Z :=
  match fuel with
  | O => (m, e)
  | S fuel' =>
      if (m =? 0)%Z then (0, 0)%Z
      else if (m mod 10 =? 0)%Z then normalize fuel' (m / 10)%Z (e + 1)%Z
      else (m, e)
  end.

(** A number token: [-? int frac? exp?], the integer part without a
    leading zero. *)
Definition parseNumber (s : string) : option (json * string) :=
  let '(negative, s1) :=
    match s with
    | String "-" r => (true, r)
    | _ => (false, s)
    end in
  let '(int, nInt, s2) := digits 0 0 s1 in
  let leadingZero :=
    match s1 with
    | String "0" _ => Nat.ltb 1 nInt
    | _ => false
    end in
  if Nat.eqb nInt 0 || leadingZero then None
  else
    let fraction :=
      match s2 with
      | String "." r =>
          let '(m, nFrac, s3) := digits int 0 r in
          if Nat.eqb nFrac 0 then None else Some (m, nFrac, s3)
      | _ => Some (int, 0, s2)
      end in
    match fraction with
    | None => None
    | Some (m, nFrac, s3) =>
        let exponent :=
          match s3 with
          | String c r =>
              if Ascii.eqb c "e" || Ascii.eqb c "E" then
                let '(sign, r1) :=
                  match r with
                  | String "+" r' => (1%Z, r')
                  | String "-" r' => ((-1)%Z, r')
                  | _ => (1%Z, r)
                  end in
                let '(x, nExp, s4) := digits 0 0 r1 in
                if Nat.eqb nExp 0 then None else Some ((sign * x)%Z, s4)
              else Some (0%Z, s3)
          | EmptyString => Some (0%Z, s3)
          end in
        match exponent with
        | None => None
        | Some (x, s4) =>
            let '(m', e') :=
              normalize (nInt + nFrac) m (x - Z.of_nat nFrac)%Z in
            Some (JNumber (if negative then - m' else m')%Z e', s4)
        end
    end.

(** Where the scan of a string token stands: in plain text, just after a
    backslash, or inside a [\uXXXX] escape with [remaining] digits to read. *)
Inductive scan :=
  | Plain
  | Escape
  | Hex (remaining : nat) (acc : N).

Definition escaped (c : ascii) : option ascii :=
  let n := code c in
  if (n =? 34)%N || (n =? 92)%N || (n =? 47)%N then Some c
  else if (n =? 98)%N then Some (ascii_of_N 8)
  else if (n =? 102)%N then Some (ascii_of_N 12)
  else if (n =? 110)%N then Some (ascii_of_N 10)
  else if (n =? 114)%N then Some (ascii_of_N 13)
  else if (n =? 116)%N then Some (ascii_of_N 9)
  else None.

Definition consChar (c : ascii) (r : option (string * string))
  : option (string * string) :=
  match r with
  | Some (body, rest) => Some (String c body, rest)
  | None => None
  end.

(** The characters of a string token after its opening quote, up to the
    closing quote.  An escape of a code unit above 255 has no counterpart
    in the modelled strings and is refused. *)
Fixpoint parseChars (st : scan) (s : string) : option (string * string) :=
  match s with
  | EmptyString => None
  | String c r =>
      match st with
      | Plain =>
          if (code c =? 34)%N then Some (EmptyString, r)
          else if (code c =? 92)%N then parseChars Escape r
          else if (code c <? 32)%N then None
          else consChar c (parseChars Plain r)
      | Escape =>
          match escaped c with
          | Some ch => consChar ch (parseChars Plain r)
          | None => if (code c =? 117)%N then parseChars (Hex 4 0) r else None
          end
      | Hex (S remaining) acc =>
          match hexValue c with
          | None => None
          | Some d =>
              let acc' := (16 * acc + d)%N in
              match remaining with
              | O => if (acc' <? 256)%N
                     then consChar (ascii_of_N acc') (parseChars Plain r)
                     else None
              | S _ => parseChars (Hex remaining acc') r
              end
          end
      | Hex O _ => None
      end
  end.

(** [obj[key] = value]: a repeated key keeps its place and takes the
    last value. *)
Fixpoint setMember (key : string) (value : json) (members : list (string * json))
  : list (string * json) :=
  match members with
  | [] => [(key, value)]
  | (k, v) :: rest =>
      if String.eqb k key then (k, value) :: rest
      else (k, v) :: setMember key value rest
  end.

(** Recursive descent over the JSON grammar.  Every call reads at least
    one character before it calls again, so [fuel] above twice the length
    of the input is never used up. *)
Fixpoint parseValue (fuel : nat) (s : string) : option (json * string) :=
  match fuel with
  | O => None
  | S fuel' =>
      match skipSpace s with
      | EmptyString => None
      | String c r as s' =>
          if (code c =? 123)%N then
            match skipSpace r with
            | String "}" r' => Some (JObject [], r')
            | _ => parseMembers fuel' [] r
            end
          else if (code c =? 91)%N then
            match skipSpace r with
            | String "]" r' => Some (JArray [], r')
            | _ => parseItems fuel' [] r
            end
          else if (code c =? 34)%N then
            match parseChars Plain r with
            | Some (body, rest) => Some (JString body, rest)
            | None => None
            end
          else if startsWith s' "true" then Some (JBool true, substringFrom 4 s')
          else if startsWith s' "false" then Some (JBool false, substringFrom 5 s')
          else if startsWith s' "null" then Some (JNull, substringFrom 4 s')
          else parseNumber s'
      end
  end
with parseItems (fuel : nat) (acc : list json) (s : string)
  : option (json * string) :=
  match fuel with
  | O => None
  | S fuel' =>
      match parseValue fuel' s with
      | None => None
      | Some (v, rest) =>
          match skipSpace rest with
          | String "," r => parseItems fuel' (acc ++ [v]) r
          | String "]" r => Some (JArray (acc ++ [v]), r)
          | _ => None
          end
      end
  end
with parseMembers (fuel : nat) (acc : list (string * json)) (s : string)
  : option (json * string) :=
  match fuel with
  | O => None
  | S fuel' =>
      match skipSpace s with
      | String "034" r =>
          match parseChars Plain r with
          | None => None
          | Some (key, rest) =>
              match skipSpace rest with
              | String ":" r1 =>
                  match parseValue fuel' r1 with
                  | None => None
                  | Some (v, rest1) =>
                      match skipSpace rest1 with
                      | String "," r2 => parseMembers fuel' (setMember key v acc) r2
                      | String "}" r2 => Some (JObject (setMember key v acc), r2)
                      | _ => None
                      end
                  end
              | _ => None
              end
          end
      | _ => None
      end
  end.

(** [JSON.parse(text)]: [None] stands for the [SyntaxError] it throws. *)
Definition parse (text : string) : option json :=
  match parseValue (2 * String.length text + 2) text with
  | Some (v, rest) =>
      match skipSpace rest with
      | EmptyString => Some v
      | _ => None
      end
  | None => None
  end.

End Json.

(** ** The background-script runner ([src/lib/background-script.js]) *)

Module BackgroundScript.

Import Json.

Definition LF : ascii := ascii_of_N 10.

(** One match of [/<BR\s*\/?>/i] at the start of [s]: the number of
    characters of the tag.  White space is neither a slash nor [>], so the
    greedy [\s*] never has to give characters back. *)
Fixpoint tagTail (s : string) : option nat :=
  match s with
  | String c r =>
      if isWhiteSpace c then S <$> tagTail r
      else if Ascii.eqb c ">" then Some 1
      else if Ascii.eqb c "/" then
        match r with
        | String ">" _ => Some 2
        | _ => None
        end
      else None
  | EmptyString => None
  end.

Definition matchBR (s : string) : option nat :=
  match s with
  | String "<" (String b (String r' rest)) =>
      if (Ascii.eqb b "B" || Ascii.eqb b "b") && (Ascii.eqb r' "R" || Ascii.eqb r' "r")
      then (fun n => 3 + n) <$> tagTail rest
      else None
  | _ => None
  end.

(** [html.replace(/<BR\s*\/?>/gi, '\n')]: [skip] characters of a tag
    already replaced remain to be dropped. *)
Fixpoint replaceBRFrom (skip : nat) (s : string) : string :=
  match s with
  | EmptyString => EmptyString
  | String c r =>
      match skip with
      | S skip' => replaceBRFrom skip' r
      | O =>
          match matchBR s with
          | Some n => String LF (replaceBRFrom (n - 1) r)
          | None => String c (replaceBRFrom 0 r)
          end
      end
  end.

Definition replaceBR (s : string) : string := replaceBRFrom 0 s.

(** The match of [new RegExp(escapedStart + '([\\s\\S]*?)' + escapedEnd)]:
    both markers are escaped, so they match literally.  The leftmost match
    begins at the first occurrence of the start marker and, the group being
    lazy, ends at the first occurrence of the end marker after it; when no
    end marker follows the first start marker, none follows a later one.
    The result is the captured group. *)
Definition matchBetween (startMarker endMarker : string) (s : string)
  : option string :=
  match indexOf s startMarker with
  | None => None
  | Some i =>
      let rest := substringFrom (i + String.length startMarker) s in
      match indexOf rest endMarker with
      | None => None
      | Some j => Some (substringTo j rest)
      end
  end.

(** [executeAndExtract(script, startMarker, endMarker, options)] from the
    point where [await execute(script, options)] has returned [html]: the
    group of the match in the raw response, [None] for [null]. *)
Definition executeAndExtract (startMarker endMarker : string) (html : string)
  : option string :=
  matchBetween startMarker endMarker html.

Definition scriptPrefix : string := "*** Script: ".

Section Platform.

(** The two platform functions the runner calls: [JSON.parse], with [None]
    for a thrown [SyntaxError], and the entity decoding a [textarea]
    element performs in [decodeHtmlEntities]. *)
Variable JSON_parse : string -> option json.
Variable decodeHtmlEntities : string -> string.

(** [cleanHtmlOutput(html)]. *)
Definition cleanHtmlOutput (html : string) : string :=
  if negb (truthy html) then EmptyString
  else decodeHtmlEntities (replaceBR html).

(** The body of the [forEach] of [parseScriptLines]: the records one line
    adds to [results].  A line that is not JSON is pushed as a string. *)
Definition parseLine (line : string) : list json :=
  let cleanLine := trim line in
  let cleanLine :=
    if startsWith cleanLine scriptPrefix
    then substringFrom (String.length scriptPrefix) cleanLine
    else cleanLine in
  if truthy cleanLine && negb (startsWith cleanLine "###") then
    match JSON_parse cleanLine with
    | Some parsed => [parsed]
    | None => if truthy (trim cleanLine) then [JString cleanLine] else []
    end
  else [].

(** [parseScriptLines(text)]. *)
Definition parseScriptLines (text : string) : list json :=
  let lines := List.filter (fun line => truthy (trim line)) (splitChar LF text) in
  concat (map parseLine lines).


End Platform.

(** The template literal of [generateMessageId] in the runner: [counter]
    is the incremented [messageIdCounter]. *)
Definition generateMessageId (now counter : N) : string :=
  "glass_bg_" ++ pretty now ++ "_" ++ pretty counter.


End BackgroundScript.

(** ** The page-context bridge ([src/api-bridge.js]) *)

Module ApiBridge.

Import ServiceNowAPI.

(** What the bridge can see of the hosting page: [window.g_ck], the text
    of the [script] elements in document order, [document.cookie] and
    [window.location.origin]. *)
Record page := {
  g_ck : option string;
  scripts : list string;
  cookie : string;
  origin : string
}.

(** The two quote characters, single and double. *)
Definition isQuote (c : ascii) : bool := Ascii.eqb c "'" || Ascii.eqb c "034".

(** No character of the string is a quote. *)
Fixpoint quoteFree (s : string) : bool :=
  match s with
  | EmptyString => true
  | String c r => negb (isQuote c) && quoteFree r
  end.

(** [\s*] followed by one literal character. *)
Fixpoint afterSpaces (c : ascii) (s : string) : option string :=
  match s with
  | String d r =>
      if Ascii.eqb d c then Some r
      else if isWhiteSpace d then afterSpaces c r
      else None
  | EmptyString => None
  end.

(** [\s*] followed by one quote character. *)
Fixpoint afterSpacesQuote (s : string) : option string :=
  match s with
  | String d r =>
      if isQuote d then Some r
      else if isWhiteSpace d then afterSpacesQuote r
      else None
  | EmptyString => None
  end.

(** The greedy group of characters other than quotes, and the quote that
    must close it. *)
Fixpoint quoted (s : string) : option string :=
  match s with
  | EmptyString => None
  | String c r =>
      if isQuote c then Some EmptyString
      else String c <$> quoted r
  end.

(** A match at the start of [s] of the pattern of [getSessionToken]:
    [g_ck], white space, [=], white space, a quote, one or more characters
    other than quotes, a quote.  The result is the captured group.  No
    character class overlaps the literal after it, so the match is found
    without giving characters back. *)
Definition tokenAt (s : string) : option string :=
  if startsWith s "g_ck" then
    match afterSpaces "=" (substringFrom 4 s) with
    | Some r =>
        match afterSpacesQuote r with
        | Some body =>
            match quoted body with
            | Some EmptyString => None
            | other => other
            end
        | None => None
        end
    | None => None
    end
  else None.

(** [content.match] with that pattern: the group of the leftmost match. *)
Fixpoint matchToken (content : string) : option string :=
  match tokenAt content with
  | Some token => Some token
  | None =>
      match content with
      | EmptyString => None
      | String _ r => matchToken r
      end
  end.

(** The first loop of [getSessionToken]. *)
Fixpoint tokenInScripts (scripts : list string) : option string :=
  match scripts with
  | [] => None
  | content :: rest =>
      match matchToken content with
      | Some token => Some token
      | None => tokenInScripts rest
      end
  end.

Definition isSessionCookie (name : string) : bool :=
  String.eqb name "glide_user_session" || String.eqb name "JSESSIONID".

(** The second loop: the first cookie with a session name decides, and
    returns [cookie[1]], which is [undefined] when the cookie has no [=]. *)
Fixpoint tokenInCookies (cookies : list string) : option (option string) :=
  match cookies with
  | [] => None
  | c :: rest =>
      let cookie := splitChar "=" (trim c) in
      if isSessionCookie (hd EmptyString cookie)
      then Some (nth_error cookie 1)
      else tokenInCookies rest
  end.

(** [getSessionToken()]: [None] is a return value of [null] or
    [undefined]. *)
Definition getSessionToken (pg : page) : option string :=
  if truthyOpt (g_ck pg) then g_ck pg
  else
    match tokenInScripts (scripts pg) with
    | Some token => Some token
    | None =>
        match tokenInCookies (splitChar ";" (cookie pg)) with
        | Some value => value
        | None => None
        end
    end.

(** The request kinds of the bridge's message listener. *)
Inductive kind :=
  | ApiRequest
  | ImpersonateRequest
  | EndImpersonateRequest
  | CurrentUserRequest
  | GenericApiRequest
  | BackgroundScriptRequest
  | RetrieveUpdateSetsRequest.

Definition kindOf (type : string) : option kind :=
  if String.eqb type "snEzApiRequest" then Some ApiRequest
  else if String.eqb type "snEzImpersonateRequest" then Some ImpersonateRequest
  else if String.eqb type "snEzEndImpersonateRequest" then Some EndImpersonateRequest
  else if String.eqb type "snEzCurrentUserRequest" then Some CurrentUserRequest
  else if String.eqb type "glassApiRequest" then Some GenericApiRequest
  else if String.eqb type "glassBackgroundScriptRequest" then Some BackgroundScriptRequest
  else if String.eqb type "glassRetrieveUpdateSetsRequest" then Some RetrieveUpdateSetsRequest
  else None.

(** The listener of the bridge: which handler a message reaches, if any. *)
Definition route (m : message) : option kind :=
  if negb (truthyOpt (type m)) || negb (truthyOpt (messageId m)) then None
  else kindOf (default EmptyString (type m)).

(** What a handler does before it returns: a message posted to the
    window, or a network request started with [fetch]. *)
Inductive effect :=
  | Post (m : message)
  | Fetch (url : string) (method : string) (body : list (string * string)).

Definition isFetch (e : effect) : bool :=
  match e with Fetch _ _ _ => true | Post _ => false end.

(** The handler the listener calls for each method of the client. *)
Definition handlerFor (m : apiMethod) : kind :=
  match m with
  | TableGet => GenericApiRequest
  | LookupUser => ApiRequest
  | Impersonate => ImpersonateRequest
  | EndImpersonate => EndImpersonateRequest
  | GetCurrentUser => CurrentUserRequest
  | Request => GenericApiRequest
  end.

Definition NoSessionToken : string := "No authentication token available".

(** [a || b] on possibly absent strings. *)
Definition orElse (a b : option string) : option string :=
  if truthyOpt a then a else b.

(** [handleBackgroundScriptRequest(data)] up to its return: the error
    response, or the [fetch] of [/sys.scripts.do] with the form fields of
    its body. *)
Definition handleBackgroundScriptRequest (pg : page) (data : message)
  : list effect :=
  let script := default "undefined" (property "script" (fields data)) in
  let scope := default EmptyString (orElse (property "scope" (fields data)) (Some EmptyString)) in
  let g_ck := default EmptyString
                (orElse (orElse (g_ck pg) (getSessionToken pg)) (Some EmptyString)) in
  if negb (truthy g_ck) then
    [Post {| type := Some "glassBackgroundScriptResponse";
             messageId := messageId data;
             fields := [("error", NoSessionToken)] |}]
  else
    [Fetch (origin pg ++ "/sys.scripts.do") "POST"
       ([("script", script); ("runscript", "Run script");
         ("sysparm_ck", g_ck); ("quota_managed_transaction", "on")]
        ++ (if truthy scope then [("sys_scope", scope)] else []))].

End ApiBridge.

(** ** Sample data

    Command objects in the shape of the repository's: [listCommand] is the
    [list] command of [src/commands/list.js] with its validator, and
    [helpCommand] the [help] command; what their [execute] does to the page
    is outside the model, they complete normally. *)

(** * Impersonation: command, client and bridge
    ([src/commands/impersonate.js], [src/lib/api.js], [api-bridge.js]) *)

Module ImpersonateCommand.

Import JsString ServiceNowAPI ApiBridge.

(** How a [fetch] of the bridge ends: with a response, whose body
    [response.text()] then delivers or fails to deliver, or with a
    failure.  An error is kept as its [message], a string. *)
Inductive fetched :=
  | Answered (status : N) (statusText : string) (textError : option string)
  | FetchFailed (message : string).

(** [response.ok]. *)
Definition ok (status : N) : bool := (200 <=? status)%N && (status <=? 299)%N.

(** The arguments of a [fetch] of the impersonation handlers. *)
Record fetchCall := {
  url : string;
  method : string;
  headers : list (string * string);
  credentials : string
}.

(** A request the bridge makes: a [fetch], or the synchronous
    [XMLHttpRequest] GET of [getImpersonatingUser]. *)
Inductive netCall :=
  | FetchCall (call : fetchCall)
  | XhrGet (href : string).

(** A [script] element with [type="text/javascript"], as
    [getImpersonatingUser] reads it. *)
Record typedScript := {
  innerText : string;
  innerHTML : string
}.

(** The literal the pattern of [getImpersonatingUser] begins with, its
    first group. *)
Definition impersonationMark : string := "'user.impersonation', '".

(** The characters before the first single quote, and what follows that
    quote. *)
Fixpoint untilQuote (s : string) : option (string * string) :=
  match s with
  | EmptyString => None
  | String c r =>
      if Ascii.eqb c "'" then Some (EmptyString, r)
      else match untilQuote r with
           | Some (group, rest) => Some (String c group, rest)
           | None => None
           end
  end.

(** A match of the pattern at the start of [s]: the mark, the greedy
    group of characters other than single quotes, a single quote and a
    closing bracket.  The group cannot give characters back, since the
    quote after it is not in its class.  The result is the second
    group. *)
Definition impersonationAt (s : string) : option string :=
  if startsWith s impersonationMark then
    match untilQuote (substringFrom (String.length impersonationMark) s) with
    | Some (group, String c _) => if Ascii.eqb c ")" then Some group else None
    | _ => None
    end
  else None.

(** [text.match(pattern)]: the leftmost match; its second group. *)
Fixpoint matchImpersonation (s : string) : option string :=
  match impersonationAt s with
  | Some group => Some group
  | None =>
      match s with
      | EmptyString => None
      | String _ r => matchImpersonation r
      end
  end.

(** [match && match[2]] taken when truthy, else the empty string the
    variable starts with. *)
Definition userIn (text : string) : string :=
  match matchImpersonation text with
  | Some group => if truthy group then group else EmptyString
  | None => EmptyString
  end.

(** [getImpersonatingUser()]: the requests it makes and the name it
    returns.  [typed] are the typed script elements in document order;
    [xhr] is the response of the synchronous GET, [None] when [send] or
    the reading of the response throws. *)
Definition getImpersonatingUser (pg : page) (typed : list typedScript)
    (xhr : string -> option string) : list netCall * string :=
  let scripts :=
    List.filter (fun script => includes (innerText script) "user.impersonation")
                typed in
  let impersonatingUser :=
    match scripts with
    | script :: _ => userIn (innerHTML script)
    | [] => EmptyString
    end in
  if negb (truthy impersonatingUser) then
    let href := origin pg +:+ "/notfoundthispage.do" in
    ([XhrGet href],
     match xhr href with
     | Some response => userIn response
     | None => EmptyString
     end)
  else ([], impersonatingUser).

(** The message the bridge posts back. *)
Record reply := {
  replyType : string;
  replyId : option string;
  success : bool;
  error : option string
}.

Section Bridge.

Variable encodeURIComponent : string -> string.

(** The [fetch] both handlers make. *)
Definition impersonateFetch (pg : page) (instanceUrl username : string)
  : fetchCall :=
  {| url := instanceUrl +:+ "/api/now/ui/impersonate/" +:+ encodeURIComponent username;
     method := "POST";
     headers := [("Accept", "application/json");
                 ("Content-Type", "application/json");
                 ("X-UserToken", default EmptyString (orElse (g_ck pg) (Some EmptyString)));
                 ("X-Requested-With", "XMLHttpRequest")];
     credentials := "same-origin" |}.

(** The [then] and [catch] of both handlers; [caught] is what the
    [catch] puts before the message of the error. *)
Definition answered (type caught : string) (messageId : option string)
    (f : fetched) : reply :=
  match f with
  | Answered status statusText textError =>
      if ok status then
        {| replyType := type; replyId := messageId; success := true; error := None |}
      else
        match textError with
        | None =>
            {| replyType := type; replyId := messageId; success := false;
               error := Some ("API returned: " +:+ pretty status +:+ " " +:+ statusText) |}
        | Some message =>
            {| replyType := type; replyId := messageId; success := false;
               error := Some (caught +:+ message) |}
        end
  | FetchFailed message =>
      {| replyType := type; replyId := messageId; success := false;
         error := Some (caught +:+ message) |}
  end.

(** [handleImpersonateRequest(data)]: the requests made and the reply;
    [net] is what the network makes of a [fetch]. *)
Definition handleImpersonateRequest (pg : page) (net : fetchCall -> fetched)
    (data : message) : list netCall * reply :=
  let instanceUrl := default "undefined" (property "instanceUrl" (fields data)) in
  let username := default "undefined" (property "username" (fields data)) in
  let call := impersonateFetch pg instanceUrl username in
  ([FetchCall call],
   answered "snEzImpersonateResponse" "Network error: " (messageId data) (net call)).

(** [handleEndImpersonateRequest(data)]. *)
Definition handleEndImpersonateRequest (pg : page) (typed : list typedScript)
    (xhr : string -> option string) (net : fetchCall -> fetched) (data : message)
  : list netCall * reply :=
  let instanceUrl := default "undefined" (property "instanceUrl" (fields data)) in
  let '(lookup, originalUser) := getImpersonatingUser pg typed xhr in
  if negb (truthy originalUser) then
    (lookup,
     {| replyType := "snEzEndImpersonateResponse"; replyId := messageId data;
        success := false; error := Some "You are not impersonating anyone" |})
  else
    let call := impersonateFetch pg instanceUrl originalUser in
    (lookup ++ [FetchCall call],
     answered "snEzEndImpersonateResponse" EmptyString (messageId data) (net call)).

(** The listener of the bridge, for the two requests of this module: the
    handler it calls, if any, with what the handler does. *)
Definition listener (pg : page) (typed : list typedScript)
    (xhr : string -> option string) (net : fetchCall -> fetched) (m : message)
  : option (list netCall * reply) :=
  match route m with
  | Some ImpersonateRequest => Some (handleImpersonateRequest pg net m)
  | Some EndImpersonateRequest =>
      Some (handleEndImpersonateRequest pg typed xhr net m)
  | _ => None
  end.

(** How the promise of [_sendMessage] is settled: [ensureBridgeReady]
    rejected, so that nothing was posted; the response was delivered
    before the timeout; or the timeout timer fired first, after the bridge
    had received the request. *)
Inductive delivery :=
  | BridgeFailed
  | InTime
  | TimedOut.

Definition BridgeFailure : string := "Failed to load API bridge".

Definition RequestTimedOut (type : string) : string :=
  "Request timed out: " +:+ type.

(** [await this._sendMessage(type, data)] as the calling method sees it:
    the requests the bridge made meanwhile, and the message of the error
    thrown or the response.  [now] and [counter] give the id as
    [_generateMessageId] makes it; [bridge] is the listener of the bridge.
    A request the listener has no handler for gets no response, so it
    times out. *)
Definition sendAndAwait (d : delivery)
    (bridge : message -> option (list netCall * reply))
    (type : string) (now counter : N) (data : list (string * string))
  : list netCall * (string + reply) :=
  match d with
  | BridgeFailed => ([], inl BridgeFailure)
  | InTime =>
      match bridge (request type (messageIdOf now counter) data) with
      | Some (calls, response) => (calls, inr response)
      | None => ([], inl (RequestTimedOut type))
      end
  | TimedOut =>
      match bridge (request type (messageIdOf now counter) data) with
      | Some (calls, _) => (calls, inl (RequestTimedOut type))
      | None => ([], inl (RequestTimedOut type))
      end
  end.

(** The end of [impersonate] and [endImpersonate] of the client, from the
    response on: the message of the error thrown, or nothing. *)
Definition thrown (fallback : string) (response : reply) : option string :=
  if negb (success response) then
    orElse (error response) (Some fallback)
  else None.

(** The two methods of the client: the requests made and the message of
    the error thrown, if any. *)
Definition impersonate (pg : page) (typed : list typedScript)
    (xhr : string -> option string) (net : fetchCall -> fetched) (d : delivery)
    (now counter : N) (instanceUrl username : string)
  : list netCall * option string :=
  match sendAndAwait d (listener pg typed xhr net)
          (requestType Impersonate) now counter
          [("username", username); ("instanceUrl", instanceUrl)] with
  | (calls, inl message) => (calls, Some message)
  | (calls, inr response) => (calls, thrown "Impersonation failed" response)
  end.

Definition endImpersonate (pg : page) (typed : list typedScript)
    (xhr : string -> option string) (net : fetchCall -> fetched) (d : delivery)
    (now counter : N) (instanceUrl : string)
  : list netCall * option string :=
  match sendAndAwait d (listener pg typed xhr net)
          (requestType EndImpersonate) now counter
          [("instanceUrl", instanceUrl)] with
  | (calls, inl message) => (calls, Some message)
  | (calls, inr response) => (calls, thrown "End impersonation failed" response)
  end.

End Bridge.

(** What the command does to the panel, the page and the network. *)
Inductive action :=
  | ShowError (text : string)
  | ShowSuccess (text : string)
  | Hide
  | Show
  | Reload
  | Network (call : netCall).

Definition END_KEYWORDS : list string :=
  ["end"; "exit"; "stop"; "quit"; "off"; "clear"].

(** [validate(args)]. *)
Definition validate (args : list string) : CommandRegistry.validation_result :=
  match args with
  | [] => CommandRegistry.VString "Usage: impersonate <username|end>"
  | _ => CommandRegistry.VTrue
  end.

(** [execute(args, ctx)]: [None] when [args[0]] is missing and the first
    statement throws; else what was done, in order.  [instanceUrl] is what
    [context.getInstanceUrl()] gives; the two methods of the client are
    given as what they do and throw. *)
Definition execute (args : list string) (instanceUrl : option string)
    (apiImpersonate : string -> string -> list netCall * option string)
    (apiEndImpersonate : string -> list netCall * option string)
  : option (list action) :=
  match args with
  | [] => None
  | username :: _ =>
      let target := toLowerCase username in
      match instanceUrl with
      | Some instance =>
          if negb (truthy instance) then
            Some [ShowError "Unable to detect instance. Please ensure you are on a platform page."]
          else if existsb (String.eqb target) END_KEYWORDS then
            let '(calls, failure) := apiEndImpersonate instance in
            Some ([ShowSuccess "Ending impersonation..."; Hide]
                  ++ map Network calls
                  ++ match failure with
                     | None => [Reload]
                     | Some message => [Show; ShowError message]
                     end)
          else
            let '(calls, failure) := apiImpersonate instance username in
            Some ([ShowSuccess ("Impersonating user: " +:+ username +:+ "..."); Hide]
                  ++ map Network calls
                  ++ match failure with
                     | None => [Reload]
                     | Some message =>
                         [Show; ShowError ("Impersonation failed: " +:+ message)]
                     end)
      | None =>
          Some [ShowError "Unable to detect instance. Please ensure you are on a platform page."]
      end
  end.

(** The command on a page, with the client and the bridge in place. *)
Definition run (encodeURIComponent : string -> string) (pg : page)
    (typed : list typedScript) (xhr : string -> option string)
    (net : fetchCall -> fetched) (d : delivery) (now counter : N)
    (args : list string) (instanceUrl : option string) : option (list action) :=
  execute args instanceUrl
    (impersonate encodeURIComponent pg typed xhr net d now counter)
    (endImpersonate encodeURIComponent pg typed xhr net d now counter).

(** The command object; [typeError] is the message of the engine's
    [TypeError] for [args[0].toLowerCase()] without [args[0]].  Errors of
    the client are caught inside [execute], so nothing else rejects. *)
Definition descriptor (typeError : string)
    (run : list string -> option (list action)) : CommandRegistry.command :=
  {| CommandRegistry.cmd_name := Some "impersonate";
     CommandRegistry.cmd_aliases := ["imp"; "su"];
     CommandRegistry.cmd_validate := Some validate;
     CommandRegistry.cmd_execute :=
       Some (fun args => match run args with
                         | Some _ => CommandRegistry.Fulfilled
                         | None => CommandRegistry.Rejected typeError
                         end) |}.

(** Why an impersonation did not go through, as the bridge words it. *)
Definition refusal (caught : string) (f : fetched) : string :=
  match f with
  | Answered status statusText None =>
      "API returned: " +:+ pretty status +:+ " " +:+ statusText
  | Answered _ _ (Some message) => caught +:+ message
  | FetchFailed message => caught +:+ message
  end.

(** The [fetch] succeeded: a response with [response.ok]. *)
Definition accepted (f : fetched) : bool :=
  match f with
  | Answered status _ _ => ok status
  | FetchFailed _ => false
  end.

(** The message of the error the client's method throws when it does
    throw: the rejection of [_sendMessage], or the reason in the reply,
    or the method's own text when that reason is empty. *)
Definition failure (type caught fallback : string) (d : delivery) (f : fetched)
  : string :=
  match d with
  | BridgeFailed => BridgeFailure
  | TimedOut => RequestTimedOut type
  | InTime => if truthy (refusal caught f) then refusal caught f else fallback
  end.

Definition isNetwork (a : action) : bool :=
  match a with Network _ => true | _ => false end.

Definition isShowError (a : action) : bool :=
  match a with ShowError _ => true | _ => false end.

End ImpersonateCommand.

Module Samples.

Import CommandRegistry.

Definition listCommand : command :=
  {| cmd_name := Some "list";
     cmd_aliases := ["ls"; "l"];
     cmd_validate := Some (fun args =>
       match args with
       | [] => VString "Usage: list <table_name>"
       | _ => VTrue
       end);
     cmd_execute := Some (fun _ => Fulfilled) |}.

Definition helpCommand : command :=
  {| cmd_name := Some "help";
     cmd_aliases := ["h"; "?"];
     cmd_validate := Some (fun _ => VTrue);
     cmd_execute := Some (fun _ => Fulfilled) |}.

Definition loginCommand : command :=
  {| cmd_name := Some "login";
     cmd_aliases := ["signin"; "li"];
     cmd_validate := Some (fun _ => VTrue);
     cmd_execute := Some (fun _ => Fulfilled) |}.

(** A definition object without [execute]. *)
Definition noExecute : command :=
  {| cmd_name := Some "broken";
     cmd_aliases := ["b"];
     cmd_validate := None;
     cmd_execute := None |}.

(** A command whose validator answers [false] instead of a message. *)
Definition strictCommand : command :=
  {| cmd_name := Some "strict";
     cmd_aliases := [];
     cmd_validate := Some (fun args =>
       match args with
       | [] => VTrue
       | _ => VFalse
       end);
     cmd_execute := Some (fun _ => Fulfilled) |}.

(** A command that claims the alias [l] of [listCommand]. *)
Definition logsCommand : command :=
  {| cmd_name := Some "logs";
     cmd_aliases := ["l"];
     cmd_validate := None;
     cmd_execute := Some (fun _ => Fulfilled) |}.

(** A command with the empty string among its aliases. *)
Definition homeCommand : command :=
  {| cmd_name := Some "home";
     cmd_aliases := [EmptyString];
     cmd_validate := None;
     cmd_execute := Some (fun _ => Fulfilled) |}.

(** The two cached tables of the specification's example. *)
Definition incident : ListCommand.table_def :=
  {| ListCommand.name := "Incident"; ListCommand.table := "incident" |}.

Definition incident_task : ListCommand.table_def :=
  {| ListCommand.name := "Incident Task"; ListCommand.table := "incident_task" |}.

Definition incidentTables : list ListCommand.table_def :=
  [incident; incident_task].

(** Two requests of the bridge client, sent one after the other, and the
    responses of the bridge to them. *)
Definition twoRequests : list ServiceNowAPI.event :=
  [ServiceNowAPI.Send "glassApiRequest" [("method", "GET")] 1700000000000;
   ServiceNowAPI.Send "snEzApiRequest" [("username", "admin")] 1700000000007].

Definition firstId : string := "glass_1700000000000_1".
Definition secondId : string := "glass_1700000000007_2".

Definition firstResponse : ServiceNowAPI.message :=
  {| ServiceNowAPI.type := Some "glassApiResponse";
     ServiceNowAPI.messageId := Some firstId;
     ServiceNowAPI.fields := [("result", "[]")] |}.

Definition secondResponse : ServiceNowAPI.message :=
  {| ServiceNowAPI.type := Some "snEzApiResponse";
     ServiceNowAPI.messageId := Some secondId;
     ServiceNowAPI.fields := [("result", "[admin]")] |}.











(** A page that exposes no session token, and one that does; a
    script-execution request. *)
Definition anonymousPage : ApiBridge.page :=
  {| ApiBridge.g_ck := None;
     ApiBridge.scripts := ["var NOW = {};"; "window.g_user = 'admin';"];
     ApiBridge.cookie := "glide_session_store=AB12; BIGipServerpool=44";
     ApiBridge.origin := "https://dev.example.com" |}.

Definition sessionPage : ApiBridge.page :=
  {| ApiBridge.g_ck := None;
     ApiBridge.scripts := ["var NOW = {};"; "var g_ck = 'f00d';"];
     ApiBridge.cookie := "glide_session_store=AB12";
     ApiBridge.origin := "https://dev.example.com" |}.

Definition scriptRequest : ServiceNowAPI.message :=
  {| ServiceNowAPI.type := Some "glassBackgroundScriptRequest";
     ServiceNowAPI.messageId := Some "glass_bg_1700000000000_1";
     ServiceNowAPI.fields := [("script", "gs.print(1)"); ("scope", "")] |}.

(** The cache of table definitions while its first fetch waits for the
    rows, and the rows that arrive. *)
Definition awaitingCache : ListCommand.cache :=
  ListCommand.cacheRun
    [ListCommand.CallFetch true 1000 1000;
     ListCommand.InstanceUrl 0 (Some "https://dev.example.com")]
    (ListCommand.emptyCache None true).

Definition incidentRows : list ListCommand.row :=
  [{| ListCommand.row_name := "incident"; ListCommand.row_label := Some "Incident" |};
   {| ListCommand.row_name := "incident_task";
      ListCommand.row_label := Some "Incident Task" |}].

Definition sampleRegistry : registry :=
  registerAll [helpCommand; listCommand; loginCommand] empty_registry.

Definition strictRegistry : registry :=
  registerAll [strictCommand] empty_registry.

Definition clashRegistry : registry :=
  registerAll [listCommand; logsCommand] empty_registry.

Definition homeRegistry : registry :=
  registerAll [helpCommand; homeCommand] empty_registry.

End Samples.

(** * Properties *)

Import CommandRegistry ListCommand ServiceNowAPI Json BackgroundScript ApiBridge.

(** *** Facts about the registry *)

Lemma register_accepted (c : command) (r : registry) :
  accepted c = true ->
  register c r =
    ({| commands := <[keyOf c := c]> (commands r);
        aliases := foldl (fun m alias => <[toLowerCase alias := keyOf c]> m)
                         (aliases r) (cmd_aliases c) |}, Returned).
Proof.
  unfold accepted, register, keyOf.
  destruct (cmd_name c) as [n|]; simpl; [|discriminate].
  destruct (cmd_execute c); simpl.
  - destruct (truthy n); [reflexivity | discriminate].
  - rewrite andb_false_r. discriminate.
Qed.

Lemma register_refused (c : command) (r : registry) :
  accepted c = false -> register c r = (r, Thrown InvalidDescriptor).
Proof.
  unfold accepted, register.
  destruct (cmd_name c) as [n|]; simpl; [|reflexivity].
  destruct (cmd_execute c); simpl; [|reflexivity].
  destruct (truthy n); [|reflexivity].
  simpl. discriminate.
Qed.

Lemma foldl_alias_lookup (key : string) (l : list string) (m : gmap string string) (k : string) :
  foldl (fun m alias => <[toLowerCase alias := key]> m) m l !! k =
    if bool_decide (k ∈ map toLowerCase l) then Some key else m !! k.
Proof.
  revert m. induction l as [|a l IH]; intros m; simpl.
  - reflexivity.
  - rewrite IH. destruct (decide (k = toLowerCase a)) as [->|Hne].
    + rewrite lookup_insert_eq.
      rewrite (bool_decide_eq_true_2 (toLowerCase a ∈ toLowerCase a :: _)) by left.
      by case_bool_decide.
    + rewrite lookup_insert_ne by done.
      case_bool_decide as H1; case_bool_decide as H2; try done.
      * exfalso. apply H2. by right.
      * exfalso. apply elem_of_cons in H2 as [?|?]; done.
Qed.

Lemma registerAll_app (l1 l2 : list command) (r : registry) :
  registerAll (l1 ++ l2) r = registerAll l2 (registerAll l1 r).
Proof. unfold registerAll. apply foldl_app. Qed.

Lemma registerAll_cons (c : command) (l : list command) (r : registry) :
  registerAll (c :: l) r = registerAll l (fst (register c r)).
Proof. reflexivity. Qed.

Lemma commands_registerAll_other (k : string) (l : list command) (r : registry) :
  Forall (fun d => accepted d = true -> keyOf d <> k) l ->
  commands (registerAll l r) !! k = commands r !! k.
Proof.
  revert r. induction l as [|d l IH]; intros r Hl; [reflexivity|].
  inversion Hl as [|? ? Hd Hl']; subst.
  rewrite registerAll_cons, IH by assumption.
  destruct (accepted d) eqn:Ha.
  - rewrite register_accepted by assumption. simpl.
    apply lookup_insert_ne. auto.
  - by rewrite register_refused.
Qed.

Lemma aliases_registerAll_other (k : string) (l : list command) (r : registry) :
  Forall (fun d => accepted d = true -> k ∉ aliasKeys d) l ->
  aliases (registerAll l r) !! k = aliases r !! k.
Proof.
  revert r. induction l as [|d l IH]; intros r Hl; [reflexivity|].
  inversion Hl as [|? ? Hd Hl']; subst.
  rewrite registerAll_cons, IH by assumption.
  destruct (accepted d) eqn:Ha.
  - rewrite register_accepted by assumption. simpl.
    rewrite foldl_alias_lookup. rewrite bool_decide_eq_false_2; auto.
  - by rewrite register_refused.
Qed.

(** Registration never stores a command under the empty name. *)
Lemma toLowerCase_empty (s : string) : toLowerCase s = "" -> s = "".
Proof. destruct s; [reflexivity | discriminate]. Qed.

Lemma accepted_key_nonempty (c : command) : accepted c = true -> keyOf c <> "".
Proof.
  unfold accepted, keyOf. destruct (cmd_name c) as [n|]; simpl; [|discriminate].
  intros H E. apply toLowerCase_empty in E. subst. discriminate.
Qed.

Lemma trimStart_blank (s : string) : isBlank s = true -> trimStart s = "".
Proof.
  induction s as [|c s IH]; simpl; [reflexivity|].
  destruct (isWhiteSpace c); simpl; [assumption | discriminate].
Qed.

Lemma parts_blank (line : string) : isBlank line = true -> parts line = [""].
Proof. intros H. unfold parts, trim. by rewrite trimStart_blank. Qed.

(** *** Registration of an invalid definition *)

(** C4. A definition object whose [name] is missing (or empty) or whose
    [execute] is missing makes [register] throw the invalid-descriptor
    error, and the registry after the call, both maps, is the registry
    before it. *)
Theorem C4_register_invalid_is_atomic (c : command) (r : registry) :
  truthyOpt (cmd_name c) = false \/ cmd_execute c = None ->
  register c r = (r, Thrown InvalidDescriptor).
Proof.
  intros H. apply register_refused. unfold accepted.
  destruct H as [-> | ->]; [reflexivity | apply andb_false_r].
Qed.

Lemma C4_register_invalid_witness :
  (truthyOpt (cmd_name Samples.noExecute) = false \/ cmd_execute Samples.noExecute = None)
  /\ register Samples.noExecute Samples.sampleRegistry
     = (Samples.sampleRegistry, Thrown InvalidDescriptor).
Proof.
  split.
  - right. reflexivity.
  - apply (C4_register_invalid_is_atomic Samples.noExecute Samples.sampleRegistry).
    right. reflexivity.
Defined.

(** *** Validation in dispatch *)

(** C5, as the code has it. When the resolved command has a validator and
    it returns anything but [true], dispatch calls the validator only, never
    [execute], and the error shown to the user is the returned value itself
    when that value is truthy (a non-empty string is shown verbatim) and the
    default message [Invalid arguments for <name>] when it is falsy. *)
Theorem C5_validation_failure_stops_dispatch
    (r : registry) (line : string) (c : command)
    (validate : list string -> validation_result) :
  get (commandName line) r = Some c ->
  cmd_validate c = Some validate ->
  validate (args line) <> VTrue ->
  let result := validate (args line) in
  let shown := if vtruthy result then vToString result else InvalidArguments c in
  execute line r = ([InvokeValidate c (args line)], Thrown shown)
  /\ executeCommand line r = ([InvokeValidate c (args line)], Some shown)
  /\ (forall s, result = VString s -> s <> "" -> shown = s)
  /\ existsb isInvokeExecute (fst (executeCommand line r)) = false.
Proof.
  intros Hget Hval Hne result shown.
  assert (Hexec : execute line r = ([InvokeValidate c (args line)], Thrown shown)).
  { unfold execute. rewrite Hget, Hval. fold result.
    subst shown. destruct result eqn:E; try reflexivity. contradiction. }
  assert (Hcmd : executeCommand line r = ([InvokeValidate c (args line)], Some shown)).
  { unfold executeCommand. rewrite Hexec. reflexivity. }
  repeat split; try assumption.
  - intros s Hs Hs'. subst shown. rewrite Hs. simpl.
    destruct s; [contradiction | reflexivity].
  - rewrite Hcmd. reflexivity.
Qed.

Lemma C5_validation_failure_witness :
  get (commandName "ls") Samples.sampleRegistry = Some Samples.listCommand
  /\ cmd_validate Samples.listCommand
     = Some (fun args => match args with
                         | [] => VString "Usage: list <table_name>"
                         | _ => VTrue
                         end)
  /\ VString "Usage: list <table_name>" <> VTrue
  /\ executeCommand "ls" Samples.sampleRegistry
     = ([InvokeValidate Samples.listCommand []], Some "Usage: list <table_name>").
Proof.
  split; [vm_compute; reflexivity|].
  split; [reflexivity|].
  split; [discriminate|].
  refine (proj1 (proj2 (C5_validation_failure_stops_dispatch
            Samples.sampleRegistry "ls" Samples.listCommand
            (fun args => match args with
                         | [] => VString "Usage: list <table_name>"
                         | _ => VTrue
                         end) _ _ _))).
  - vm_compute; reflexivity.
  - reflexivity.
  - vm_compute. discriminate.
Defined.

(** C5 as stated fails: a validator that returns [false] is not shown
    [false]; the user sees the default message. *)
Lemma C5_falsy_result_counterexample :
  get (commandName "strict now") Samples.strictRegistry = Some Samples.strictCommand
  /\ (exists validate, cmd_validate Samples.strictCommand = Some validate
        /\ validate (args "strict now") = VFalse)
  /\ executeCommand "strict now" Samples.strictRegistry
     = ([InvokeValidate Samples.strictCommand ["now"]],
        Some "Invalid arguments for strict")
  /\ "Invalid arguments for strict" <> vToString VFalse.
Proof.
  split; [vm_compute; reflexivity|].
  split; [eexists; split; [reflexivity | vm_compute; reflexivity]|].
  split; [vm_compute; reflexivity | discriminate].
Qed.

(** *** Resolution by name and alias *)

Lemma get_insensitive (r : registry) (t t' : string) :
  toLowerCase t = toLowerCase t' -> get t r = get t' r.
Proof. unfold get. intros ->. reflexivity. Qed.

Lemma get_name_first (r : registry) (t : string) (d : command) :
  commands r !! toLowerCase t = Some d -> get t r = Some d.
Proof. unfold get. intros ->. reflexivity. Qed.

Lemma get_by_alias (r : registry) (t key : string) :
  commands r !! toLowerCase t = None ->
  aliases r !! toLowerCase t = Some key ->
  get t r = commands r !! key.
Proof. unfold get. intros -> ->. reflexivity. Qed.

(** C6, as the code has it. The registry does no collision detection, so
    transparency holds for a registered command [c] as far as later
    registrations leave its keys alone: when no later command takes the
    name of [c], every spelling of the name resolves to [c]; and every
    alias of [c] that is not the name of a registered command and that no
    later command claims resolves to [c] too.  Resolution ignores case and
    looks in the name map before the alias map. *)
Theorem C6_alias_transparency
    (before after : list command) (c : command) (r0 : registry) :
  accepted c = true ->
  Forall (fun d => accepted d = true -> keyOf d <> keyOf c) after ->
  (forall t, toLowerCase t = keyOf c ->
     get t (registerAll (before ++ c :: after) r0) = Some c)
  /\ (forall alias t,
        alias ∈ cmd_aliases c ->
        toLowerCase t = toLowerCase alias ->
        commands (registerAll (before ++ c :: after) r0) !! toLowerCase alias = None ->
        Forall (fun d => accepted d = true -> toLowerCase alias ∉ aliasKeys d) after ->
        get t (registerAll (before ++ c :: after) r0) = Some c)
  /\ (forall r t t', toLowerCase t = toLowerCase t' -> get t r = get t' r)
  /\ (forall r t d, commands r !! toLowerCase t = Some d -> get t r = Some d).
Proof.
  intros Hc Hafter.
  assert (Hname : commands (registerAll (before ++ c :: after) r0) !! keyOf c = Some c).
  { rewrite registerAll_app, registerAll_cons.
    rewrite commands_registerAll_other by assumption.
    rewrite register_accepted by assumption. simpl.
    apply lookup_insert_eq. }
  split; [|split; [|split]].
  - intros t Ht. apply get_name_first. by rewrite Ht.
  - intros alias t Hin Ht Hfree Hkeep.
    rewrite (get_by_alias _ t (keyOf c)).
    + exact Hname.
    + by rewrite Ht.
    + rewrite Ht, registerAll_app, registerAll_cons.
      rewrite aliases_registerAll_other by assumption.
      rewrite register_accepted by assumption. simpl.
      rewrite foldl_alias_lookup. rewrite bool_decide_eq_true_2; [reflexivity|].
      apply list_elem_of_fmap. eauto.
  - apply get_insensitive.
  - apply get_name_first.
Qed.

Lemma C6_alias_transparency_witness :
  accepted Samples.listCommand = true
  /\ get "List" Samples.sampleRegistry = Some Samples.listCommand
  /\ get "LS" Samples.sampleRegistry = Some Samples.listCommand.
Proof.
  split; [reflexivity|].
  assert (Hafter : Forall (fun d => accepted d = true -> keyOf d <> keyOf Samples.listCommand)
                          [Samples.loginCommand]).
  { repeat constructor. vm_compute. discriminate. }
  pose proof (C6_alias_transparency [Samples.helpCommand] [Samples.loginCommand]
                Samples.listCommand empty_registry eq_refl Hafter) as [Hn [Ha _]].
  split.
  - apply (Hn "List"). reflexivity.
  - apply (Ha "ls" "LS").
    + left.
    + reflexivity.
    + vm_compute. reflexivity.
    + repeat constructor. vm_compute. intros _ H.
      repeat (apply elem_of_cons in H as [H|H]; [discriminate|]).
      by apply elem_of_nil in H.
Defined.

(** C6 as stated fails: [l] is an alias of the registered [list] command,
    yet after a later command has claimed the same alias it resolves to
    that command. *)
Lemma C6_alias_clash_counterexample :
  get "list" Samples.clashRegistry = Some Samples.listCommand
  /\ "l" ∈ cmd_aliases Samples.listCommand
  /\ get "l" Samples.clashRegistry = Some Samples.logsCommand
  /\ Samples.logsCommand <> Samples.listCommand.
Proof.
  split; [vm_compute; reflexivity|].
  split; [right; left|].
  split; [vm_compute; reflexivity|].
  discriminate.
Qed.

(** *** A blank command line *)

(** C10, as the code has it. In a registry built by registrations none of
    which gives the empty string as an alias, a line of white space only
    (the empty line included) has the empty string as command token and
    makes dispatch fail with the unknown-command error for it; no validator
    and no [execute] is called, and the error is shown to the user. *)
Theorem C10_blank_line_is_unknown_command (cs : list command) (line : string) :
  isBlank line = true ->
  Forall (fun d => accepted d = true -> "" ∉ aliasKeys d) cs ->
  commandName line = ""
  /\ execute line (registerAll cs empty_registry) = ([], Thrown (UnknownCommand ""))
  /\ executeCommand line (registerAll cs empty_registry) = ([], Some (UnknownCommand "")).
Proof.
  intros Hblank Hcs.
  assert (Hname : commandName line = "").
  { unfold commandName. by rewrite parts_blank. }
  assert (Hget : get "" (registerAll cs empty_registry) = None).
  { unfold get. simpl.
    rewrite commands_registerAll_other.
    - simpl. rewrite lookup_empty.
      rewrite aliases_registerAll_other by assumption.
      simpl. by rewrite lookup_empty.
    - apply Forall_forall. intros d _. apply accepted_key_nonempty. }
  assert (Hexec : execute line (registerAll cs empty_registry)
                  = ([], Thrown (UnknownCommand ""))).
  { unfold execute. rewrite Hname, Hget. reflexivity. }
  repeat split; try assumption.
  unfold executeCommand. rewrite Hexec. reflexivity.
Qed.

Lemma C10_blank_line_witness :
  isBlank "   " = true
  /\ executeCommand "   " Samples.sampleRegistry
     = ([], Some "Unknown command: . Type 'help' for available commands.").
Proof.
  split; [reflexivity|].
  refine (proj2 (proj2 (C10_blank_line_is_unknown_command
            [Samples.helpCommand; Samples.listCommand; Samples.loginCommand]
            "   " eq_refl _))).
  repeat constructor; vm_compute; intros _ H;
    repeat (apply elem_of_cons in H as [H|H]; [discriminate|]);
    by apply elem_of_nil in H.
Defined.

(** C10 as stated fails: once a command has been registered with the empty
    string among its aliases, a blank line resolves to it and runs it. *)
Lemma C10_empty_alias_counterexample :
  isBlank "   " = true
  /\ execute "   " Samples.homeRegistry
     = ([InvokeExecute Samples.homeCommand []], Returned)
  /\ executeCommand "   " Samples.homeRegistry
     = ([InvokeExecute Samples.homeCommand []], None).
Proof. repeat split; vm_compute; reflexivity. Qed.

(** *** Table lookup *)

Lemma sortInsert_elem {A} (compare : A -> A -> Z) (x y : A) (l : list A) :
  y ∈ sortInsert compare x l <-> y = x \/ y ∈ l.
Proof.
  induction l as [|z l IH]; simpl.
  - rewrite list_elem_of_singleton, elem_of_nil. tauto.
  - destruct (0 <? compare x z)%Z.
    + rewrite !elem_of_cons, IH. tauto.
    + rewrite !elem_of_cons. tauto.
Qed.

Lemma sort_elem {A} (compare : A -> A -> Z) (y : A) (l : list A) :
  y ∈ sort compare l <-> y ∈ l.
Proof.
  induction l as [|x l IH]; simpl; [reflexivity|].
  rewrite sortInsert_elem, elem_of_cons, IH. reflexivity.
Qed.

Lemma sort_length {A} (compare : A -> A -> Z) (l : list A) :
  length (sort compare l) = length l.
Proof.
  induction l as [|x l IH]; simpl; [reflexivity|].
  rewrite <- IH. generalize (sort compare l). intros s.
  induction s as [|z s IHs]; simpl; [reflexivity|].
  destruct (0 <? compare x z)%Z; simpl; congruence.
Qed.

Lemma sortInsert_sorted (x : table_def) (l : list table_def) :
  StronglySorted shorterId l -> StronglySorted shorterId (sortInsert sortByLength x l).
Proof.
  induction 1 as [|z l Hl IH Hz]; simpl.
  - repeat constructor.
  - destruct (0 <? sortByLength x z)%Z eqn:E.
    + constructor; [assumption|].
      apply Forall_forall. intros y Hy. apply sortInsert_elem in Hy as [->|Hy].
      * apply Z.ltb_lt in E. unfold sortByLength in E. unfold shorterId. lia.
      * rewrite Forall_forall in Hz. auto.
    + apply Z.ltb_ge in E. unfold sortByLength in E.
      constructor; [constructor; assumption|].
      constructor; [unfold shorterId; lia|].
      eapply Forall_impl; [exact Hz|]. unfold shorterId. intros; simpl in *. lia.
Qed.

Lemma sort_sorted (l : list table_def) : StronglySorted shorterId (sort sortByLength l).
Proof.
  induction l as [|x l IH]; simpl; [constructor|].
  by apply sortInsert_sorted.
Qed.

Lemma take_sorted (n : nat) (l : list table_def) :
  StronglySorted shorterId l -> StronglySorted shorterId (take n l).
Proof.
  intros H. revert n. induction H as [|z l Hl IH Hz]; intros [|n]; simpl; try constructor.
  - apply IH.
  - by apply Forall_take.
Qed.

Lemma truthy_toLowerCase (s : string) : truthy (toLowerCase s) = truthy s.
Proof. by destruct s. Qed.

Lemma toLowerCase_same_truthy (s s' : string) :
  toLowerCase s = toLowerCase s' -> truthy s = truthy s'.
Proof. intros H. by rewrite <- (truthy_toLowerCase s), H, truthy_toLowerCase. Qed.

Lemma filter_Forall {A} (f : A -> bool) (l : list A) :
  Forall (fun x => f x = true) (List.filter f l).
Proof.
  apply Forall_forall. intros x Hx. apply list_elem_of_In, filter_In in Hx. tauto.
Qed.

Lemma sort_Forall {A} (compare : A -> A -> Z) (P : A -> Prop) (l : list A) :
  Forall P l -> Forall P (sort compare l).
Proof.
  rewrite !Forall_forall. intros H x Hx. apply H. by apply sort_elem in Hx.
Qed.

(** C7, as the code has it. [resolveTableName] returns the technical name
    of a cached table whose technical name equals the input up to case,
    if there is one; otherwise that of a table whose display name equals
    the input up to case, if there is one; otherwise the input in lower
    case, which is the input itself exactly when it has no upper-case
    letter.  It returns a name for every input. *)
Theorem C7_resolve_prefers_id_then_name (tables : list table_def) (input : string) :
  ((exists d, d ∈ tables /\ toLowerCase (table d) = toLowerCase input) ->
     exists d, d ∈ tables /\ toLowerCase (table d) = toLowerCase input
               /\ resolveTableName tables input = table d)
  /\ ((forall d, d ∈ tables -> toLowerCase (table d) <> toLowerCase input) ->
      (exists d, d ∈ tables /\ toLowerCase (name d) = toLowerCase input) ->
      exists d, d ∈ tables /\ toLowerCase (name d) = toLowerCase input
                /\ resolveTableName tables input = table d)
  /\ ((forall d, d ∈ tables ->
         toLowerCase (table d) <> toLowerCase input
         /\ toLowerCase (name d) <> toLowerCase input) ->
      resolveTableName tables input = toLowerCase input)
  /\ resolveTableName Samples.incidentTables "incident" = "incident"
  /\ resolveTableName Samples.incidentTables "Incident Task" = "incident_task"
  /\ resolveTableName Samples.incidentTables "nonexistent_xyz" = "nonexistent_xyz".
Proof.
  unfold resolveTableName.
  split; [|split; [|split; [|repeat split; vm_compute; reflexivity]]].
  - intros [d [Hd Heq]].
    destruct (List.find _ tables) as [e|] eqn:E.
    + apply find_some in E as [Hin He]. apply String.eqb_eq in He.
      exists e. by rewrite list_elem_of_In.
    + exfalso. apply list_elem_of_In in Hd.
      pose proof (find_none _ _ E d Hd) as H. simpl in H.
      apply String.eqb_neq in H. contradiction.
  - intros Hno [d [Hd Heq]].
    destruct (List.find (fun def => (toLowerCase (table def) =? toLowerCase input)%string) tables)
      as [e|] eqn:E.
    + apply find_some in E as [Hin He]. apply String.eqb_eq in He.
      apply list_elem_of_In in Hin. by destruct (Hno e Hin).
    + destruct (List.find (fun def => (toLowerCase (name def) =? toLowerCase input)%string) tables)
        as [e|] eqn:E'.
      * apply find_some in E' as [Hin He]. apply String.eqb_eq in He.
        exists e. by rewrite list_elem_of_In.
      * exfalso. apply list_elem_of_In in Hd.
        pose proof (find_none _ _ E' d Hd) as H. simpl in H.
        apply String.eqb_neq in H. contradiction.
  - intros Hno.
    destruct (List.find (fun def => (toLowerCase (table def) =? toLowerCase input)%string) tables)
      as [e|] eqn:E.
    + apply find_some in E as [Hin He]. apply String.eqb_eq in He.
      apply list_elem_of_In in Hin. by destruct (Hno e Hin) as [? _].
    + destruct (List.find (fun def => (toLowerCase (name def) =? toLowerCase input)%string) tables)
        as [e|] eqn:E'; [|reflexivity].
      apply find_some in E' as [Hin He]. apply String.eqb_eq in He.
      apply list_elem_of_In in Hin. by destruct (Hno e Hin) as [_ ?].
Qed.

(** C7 as stated fails: an input that matches no cached table is not
    returned as it is, it is returned in lower case. *)
Lemma C7_fallback_lowercases_counterexample :
  Forall (fun d => toLowerCase (table d) <> toLowerCase "Nonexistent_XYZ"
                   /\ toLowerCase (name d) <> toLowerCase "Nonexistent_XYZ")
         Samples.incidentTables
  /\ resolveTableName Samples.incidentTables "Nonexistent_XYZ" = "nonexistent_xyz"
  /\ resolveTableName Samples.incidentTables "Nonexistent_XYZ" <> "Nonexistent_XYZ".
Proof.
  split; [repeat constructor; vm_compute; discriminate|].
  split; [vm_compute; reflexivity | vm_compute; discriminate].
Qed.

(** *** Message ids *)

Lemma pretty_N_char_digit (d : N) : isDigit (pretty_N_char d) = true.
Proof. unfold pretty_N_char. repeat case_match; reflexivity. Qed.

Lemma pretty_N_go_digits (x : N) (s : string) :
  isDigits s = true -> isDigits (pretty_N_go x s) = true.
Proof.
  revert s. induction (N.lt_wf_0 x) as [x _ IH]; intros s Hs.
  destruct (decide (x = 0)%N) as [->|Hx].
  - by rewrite pretty_N_go_0.
  - rewrite pretty_N_go_step by lia.
    apply IH.
    + apply N.div_lt; lia.
    + simpl. by rewrite pretty_N_char_digit.
Qed.

Lemma pretty_N_digits (x : N) : isDigits (pretty x) = true.
Proof.
  unfold pretty, pretty_N. case_decide; [reflexivity|].
  by apply pretty_N_go_digits.
Qed.

Lemma digits_then_underscore (a a' b b' : string) :
  isDigits a = true -> isDigits a' = true ->
  a +:+ "_" +:+ b = a' +:+ "_" +:+ b' -> a = a' /\ b = b'.
Proof.
  revert a'. induction a as [|c a IH]; intros [|c' a'] Ha Ha' H; simpl in *.
  - by injection H.
  - injection H as Hc _. subst c'. discriminate.
  - injection H as Hc _. subst c. discriminate.
  - injection H as Hc H. subst c'.
    apply andb_prop in Ha as [_ Ha]. apply andb_prop in Ha' as [_ Ha'].
    destruct (IH a' Ha Ha' H) as [-> ->]. done.
Qed.

Lemma messageIdOf_inj (now now' c c' : N) :
  messageIdOf now c = messageIdOf now' c' -> now = now' /\ c = c'.
Proof.
  unfold messageIdOf. intros H.
  apply (f_equal (substringFrom 6)) in H. simpl in H.
  apply digits_then_underscore in H as [H1 H2]; try apply pretty_N_digits.
  split; by apply (inj pretty).
Qed.

Lemma messageIdOf_truthy (now c : N) : truthy (messageIdOf now c) = true.
Proof. reflexivity. Qed.

(** *** The log *)

Lemma settlements_app (p : nat) (l1 l2 : list op) :
  settlements p (l1 ++ l2) = settlements p l1 ++ settlements p l2.
Proof.
  induction l1 as [|o l1 IH]; simpl; [reflexivity|].
  destruct o; try assumption; destruct (Nat.eqb p _); simpl; congruence.
Qed.

Lemma deletions_app (id : string) (l1 l2 : list op) :
  deletions id (l1 ++ l2) = deletions id l1 + deletions id l2.
Proof.
  induction l1 as [|o l1 IH]; simpl; [reflexivity|].
  destruct o; try assumption. destruct (String.eqb id _); simpl; congruence.
Qed.

Lemma generated_mono (st st' : state) (id : string) :
  (messageIdCounter st <= messageIdCounter st')%N ->
  generated st id -> generated st' id.
Proof. intros Hle (now & c & -> & Hc). exists now, c. split; [reflexivity | lia]. Qed.

(** *** The invariant *)

Lemma wf_initial : wf initial.
Proof.
  constructor; simpl.
  - intros id h H. by rewrite lookup_empty in H.
  - intros t id ty p H. by rewrite lookup_empty in H.
  - intros t _. apply lookup_empty.
  - intros id h H. by rewrite lookup_empty in H.
  - reflexivity.
  - intros id1 id2 h1 h2 H. by rewrite lookup_empty in H.
  - intros id [[h H]|H]; [by rewrite lookup_empty in H | lia].
  - intros p. lia.
  - intros id. lia.
Qed.

(** The id of a new request is not in use. *)
Lemma fresh_id (st : state) (now : N) :
  wf st ->
  messageHandlers st !! messageIdOf now (messageIdCounter st + 1) = None
  /\ deletions (messageIdOf now (messageIdCounter st + 1)) (log st) = 0.
Proof.
  intros Hwf.
  assert (Hnot : ~ generated st (messageIdOf now (messageIdCounter st + 1))).
  { intros (now' & c & Heq & Hc). apply messageIdOf_inj in Heq as [_ <-]. lia. }
  split.
  - destruct (messageHandlers st !! _) eqn:E; [|reflexivity].
    exfalso. apply Hnot, (wf_generated st Hwf). left. eauto.
  - destruct (deletions _ (log st)) eqn:E; [reflexivity|].
    exfalso. apply Hnot, (wf_generated st Hwf). right. lia.
Qed.

Lemma live_timer_lt (st : state) (t : positive) (k : task) :
  wf st -> timers st !! t = Some k -> (t < nextTimer st)%positive.
Proof.
  intros Hwf Ht. destruct (Pos.ltb_spec t (nextTimer st)) as [|Hge]; [assumption|].
  rewrite (wf_timer_fresh st Hwf t Hge) in Ht. discriminate.
Qed.

Lemma wf_sendMessage (ty : string) (data : list (string * string)) (now : N) (st : state) :
  wf st -> wf (snd (_sendMessage ty data now st)).
Proof.
  intros Hwf. destruct (fresh_id st now Hwf) as [Hfresh Hdel].
  set (id := messageIdOf now (messageIdCounter st + 1)) in *.
  constructor; simpl; fold id.
  - intros id' h. rewrite lookup_insert. case_decide as E.
    + intros [= <-]. simpl. exists ty. subst id'.
      rewrite lookup_insert_ne by lia. by rewrite lookup_insert_eq.
    + intros Hh. destruct (wf_handler_timer st Hwf id' h Hh) as [ty' Ht].
      exists ty'. pose proof (live_timer_lt st _ _ Hwf Ht).
      rewrite !lookup_insert_ne by lia. assumption.
  - intros t id' ty' p. rewrite lookup_insert. case_decide as E; [discriminate|].
    rewrite lookup_insert. case_decide as E'.
    + intros [= <- <- <-]. subst t. by rewrite lookup_insert_eq.
    + intros Ht. pose proof (wf_timer_handler st Hwf _ _ _ _ Ht) as Hh.
      rewrite lookup_insert_ne; [assumption|]. intros <-. congruence.
  - intros t Ht. rewrite !lookup_insert_ne by lia. apply (wf_timer_fresh st Hwf). lia.
  - intros id' h. rewrite settlements_app, deletions_app. simpl.
    rewrite app_nil_r, Nat.add_0_r.
    rewrite lookup_insert. case_decide as E.
    + intros [= <-]. simpl. subst id'. split; [lia|]. split; [|assumption].
      apply (wf_promise_fresh st Hwf). lia.
    + intros Hh. destruct (wf_pending st Hwf id' h Hh) as (? & ? & ?).
      repeat split; try assumption. lia.
  - intros p Hp. rewrite settlements_app. simpl. rewrite app_nil_r.
    apply (wf_promise_fresh st Hwf). lia.
  - intros id1 id2 h1 h2. rewrite !lookup_insert.
    case_decide as E1; case_decide as E2; try congruence.
    + intros [= <-] Hh2. simpl. intros Hp.
      destruct (wf_pending st Hwf id2 h2 Hh2) as (? & _). lia.
    + intros Hh1 [= <-]. simpl. intros Hp.
      destruct (wf_pending st Hwf id1 h1 Hh1) as (? & _). lia.
    + apply (wf_promise_owner st Hwf).
  - intros id'. rewrite deletions_app. simpl. rewrite Nat.add_0_r.
    rewrite lookup_insert. case_decide as E.
    + intros _. subst id'. exists now, (messageIdCounter st + 1)%N. split; [reflexivity | simpl; lia].
    + intros H. eapply generated_mono; [|apply (wf_generated st Hwf id' H)]. simpl. lia.
  - intros p. rewrite settlements_app. simpl. rewrite app_nil_r. apply (wf_settled_once st Hwf).
  - intros id'. rewrite deletions_app. simpl. rewrite Nat.add_0_r. apply (wf_deleted_once st Hwf).
Qed.

(** Settling an entry, by its response or by its timeout: the entry and its
    timer go, and the log grows by operations [ops] that delete this id
    once and settle this promise once. *)
Lemma wf_settle (st : state) (id : string) (h : handler) (ops : list op) (s : settlement) :
  wf st ->
  messageHandlers st !! id = Some h ->
  deletions id ops = 1 ->
  (forall id', id' <> id -> deletions id' ops = 0) ->
  settlements (promise h) ops = [s] ->
  (forall p, p <> promise h -> settlements p ops = []) ->
  wf {| messageHandlers := delete id (messageHandlers st);
        messageIdCounter := messageIdCounter st;
        timers := delete (timeout h) (timers st);
        nextTimer := nextTimer st;
        nextPromise := nextPromise st;
        log := log st ++ ops |}.
Proof.
  intros Hwf Hh Hdel Hdel' Hset Hset'.
  destruct (wf_handler_timer st Hwf id h Hh) as [ty Ht].
  destruct (wf_pending st Hwf id h Hh) as (Hlt & Hnone & Hzero).
  constructor; simpl.
  - intros id' h'. rewrite lookup_delete. case_decide as E; [discriminate|].
    intros Hh'. destruct (wf_handler_timer st Hwf id' h' Hh') as [ty' Ht'].
    exists ty'. rewrite lookup_delete_ne; [assumption|].
    intros Heq. rewrite Heq in Ht. congruence.
  - intros t id' ty' p. rewrite lookup_delete. case_decide as E; [discriminate|].
    intros Ht'. pose proof (wf_timer_handler st Hwf _ _ _ _ Ht') as Hh'.
    rewrite lookup_delete_ne; [assumption|].
    intros <-. rewrite Hh in Hh'. injection Hh' as ->. simpl in E. congruence.
  - intros t Hge. rewrite lookup_delete. case_decide; [reflexivity|].
    by apply (wf_timer_fresh st Hwf).
  - intros id' h'. rewrite lookup_delete. case_decide as E; [discriminate|].
    intros Hh'. destruct (wf_pending st Hwf id' h' Hh') as (? & ? & ?).
    rewrite settlements_app, deletions_app.
    rewrite Hdel' by congruence. rewrite Hset'.
    + rewrite app_nil_r. repeat split; try assumption. lia.
    + intros Hp. apply E. symmetry. by apply (wf_promise_owner st Hwf id' id h' h).
  - intros p Hp. rewrite settlements_app, (wf_promise_fresh st Hwf p Hp).
    rewrite Hset'; [reflexivity | lia].
  - intros id1 id2 h1 h2. rewrite !lookup_delete.
    case_decide; [discriminate|]. case_decide; [discriminate|].
    apply (wf_promise_owner st Hwf).
  - intros id'. rewrite lookup_delete, deletions_app. case_decide as E.
    + intros _. subst id'. apply (wf_generated st Hwf). left. eauto.
    + rewrite Hdel' by congruence. rewrite Nat.add_0_r. apply (wf_generated st Hwf).
  - intros p. rewrite settlements_app, length_app.
    destruct (decide (p = promise h)) as [->|Hp].
    + rewrite Hnone, Hset. simpl. lia.
    + rewrite Hset' by assumption. simpl. rewrite Nat.add_0_r. apply (wf_settled_once st Hwf).
  - intros id'. rewrite deletions_app.
    destruct (decide (id' = id)) as [->|Hne].
    + rewrite Hzero, Hdel. lia.
    + rewrite Hdel' by assumption. rewrite Nat.add_0_r. apply (wf_deleted_once st Hwf).
Qed.

Lemma eqb_string_ne (a b : string) : a <> b -> String.eqb a b = false.
Proof. apply String.eqb_neq. Qed.

Lemma eqb_nat_ne (a b : nat) : a <> b -> Nat.eqb a b = false.
Proof. apply Nat.eqb_neq. Qed.

(** What [_handleMessage] does with the response to a pending request. *)
Lemma handleMessage_response (m : message) (st : state) (id : string) (h : handler) :
  isResponseFor id m = true ->
  truthy id = true ->
  messageHandlers st !! id = Some h ->
  _handleMessage m st =
    {| messageHandlers := delete id (messageHandlers st);
       messageIdCounter := messageIdCounter st;
       timers := delete (timeout h) (timers st);
       nextTimer := nextTimer st;
       nextPromise := nextPromise st;
       log := log st ++ [MapDelete id; ClearTimeout (timeout h); Resolve (promise h) m] |}.
Proof.
  unfold isResponseFor, _handleMessage.
  destruct (messageId m) as [i|]; [|discriminate].
  destruct (type m) as [ty|]; [|discriminate].
  intros H Hid Hh. apply andb_prop in H as [Hi Hinc].
  apply String.eqb_eq in Hi. subst i. rewrite Hid, Hh. simpl.
  rewrite Hinc. destruct ty; [discriminate|]. reflexivity.
Qed.

(** In every other case [_handleMessage] leaves the state as it is. *)
Lemma handleMessage_cases (m : message) (st : state) :
  _handleMessage m st = st
  \/ exists id h, isResponseFor id m = true /\ truthy id = true
                  /\ messageHandlers st !! id = Some h.
Proof.
  unfold _handleMessage, isResponseFor.
  destruct (messageId m) as [id|]; [|by left].
  destruct (truthy id) eqn:Hid; simpl; [|by left].
  destruct (messageHandlers st !! id) as [h|] eqn:Hh; [|by left].
  destruct (type m) as [ty|]; simpl; [|by left].
  destruct (truthy ty) eqn:Hty; simpl; [|by left].
  destruct (includes ty "Response") eqn:Hinc; simpl; [|by left].
  right. exists id, h. rewrite String.eqb_refl. auto.
Qed.

Lemma wf_handleMessage (m : message) (st : state) :
  wf st -> wf (_handleMessage m st).
Proof.
  intros Hwf. destruct (handleMessage_cases m st) as [-> | (id & h & Hm & Hid & Hh)];
    [assumption|].
  rewrite (handleMessage_response m st id h Hm Hid Hh).
  apply (wf_settle st id h _ (ResolvedWith m)); try assumption; simpl.
  - by rewrite String.eqb_refl.
  - intros id' Hne. by rewrite eqb_string_ne.
  - by rewrite Nat.eqb_refl.
  - intros p Hne. by rewrite eqb_nat_ne.
Qed.

Lemma wf_fireTimer (t : positive) (st : state) :
  wf st -> wf (fireTimer t st).
Proof.
  intros Hwf. unfold fireTimer.
  destruct (timers st !! t) as [[id ty p|m]|] eqn:Ht; [| |assumption].
  - pose proof (wf_timer_handler st Hwf _ _ _ _ Ht) as Hh.
    apply (wf_settle st id {| promise := p; timeout := t |} _
             (RejectedWith ("Request timed out: " ++ ty))); try assumption; simpl.
    + by rewrite String.eqb_refl.
    + intros id' Hne. by rewrite eqb_string_ne.
    + by rewrite Nat.eqb_refl.
    + intros q Hne. by rewrite eqb_nat_ne.
  - constructor; simpl.
    + intros id h Hh. destruct (wf_handler_timer st Hwf id h Hh) as [ty Ht'].
      exists ty. rewrite lookup_delete_ne; [assumption|].
      intros Heq. rewrite Heq in Ht. congruence.
    + intros t' id ty p. rewrite lookup_delete. case_decide; [discriminate|].
      apply (wf_timer_handler st Hwf).
    + intros t' Hge. rewrite lookup_delete. case_decide; [reflexivity|].
      by apply (wf_timer_fresh st Hwf).
    + intros id h Hh. rewrite settlements_app, deletions_app. simpl.
      rewrite app_nil_r, Nat.add_0_r. by apply (wf_pending st Hwf).
    + intros p Hp. rewrite settlements_app. simpl. rewrite app_nil_r.
      by apply (wf_promise_fresh st Hwf).
    + apply (wf_promise_owner st Hwf).
    + intros id. rewrite deletions_app. simpl. rewrite Nat.add_0_r.
      apply (wf_generated st Hwf).
    + intros p. rewrite settlements_app. simpl. rewrite app_nil_r.
      apply (wf_settled_once st Hwf).
    + intros id. rewrite deletions_app. simpl. rewrite Nat.add_0_r.
      apply (wf_deleted_once st Hwf).
Qed.

Lemma wf_step (e : event) (st : state) : wf st -> wf (step e st).
Proof.
  destruct e; simpl.
  - apply wf_sendMessage.
  - apply wf_handleMessage.
  - apply wf_fireTimer.
Qed.

Lemma run_app (es es' : list event) (st : state) :
  run (es ++ es') st = run es' (run es st).
Proof. unfold run. apply foldl_app. Qed.

Lemma wf_run (es : list event) (st : state) : wf st -> wf (run es st).
Proof.
  revert st. induction es as [|e es IH]; intros st Hwf; [assumption|].
  apply IH, wf_step, Hwf.
Qed.

Lemma wf_reachable (es : list event) : wf (run es initial).
Proof. apply wf_run, wf_initial. Qed.

(** *** Responses out of order *)

Lemma generated_truthy (st : state) (id : string) : generated st id -> truthy id = true.
Proof. intros (now & c & -> & _). reflexivity. Qed.

Lemma pending_truthy (st : state) (id : string) (h : handler) :
  wf st -> messageHandlers st !! id = Some h -> truthy id = true.
Proof.
  intros Hwf Hh. apply (generated_truthy st), (wf_generated st Hwf). left. eauto.
Qed.

Lemma counter_step (e : event) (st : state) :
  (messageIdCounter st <= messageIdCounter (step e st))%N.
Proof.
  destruct e as [ty data now|m|t]; simpl.
  - lia.
  - destruct (handleMessage_cases m st) as [-> | (id & h & Hm & Hid & Hh)]; [lia|].
    rewrite (handleMessage_response m st id h Hm Hid Hh). simpl. lia.
  - unfold fireTimer. destruct (timers st !! t) as [[?|?]|]; simpl; lia.
Qed.

Lemma counter_run (es : list event) (st : state) :
  (messageIdCounter st <= messageIdCounter (run es st))%N.
Proof.
  revert st. induction es as [|e es IH]; intros st; simpl; [lia|].
  etransitivity; [apply (counter_step e)|apply IH].
Qed.

(** Delivering the responses to two pending requests, one after the other. *)
Lemma deliver_two (st : state) (ida idb : string) (ha hb : handler) (ra rb : message) :
  wf st ->
  messageHandlers st !! ida = Some ha ->
  messageHandlers st !! idb = Some hb ->
  ida <> idb ->
  isResponseFor ida ra = true ->
  isResponseFor idb rb = true ->
  let final := run [Deliver ra; Deliver rb] st in
  settlements (promise ha) (log final) = [ResolvedWith ra]
  /\ settlements (promise hb) (log final) = [ResolvedWith rb]
  /\ messageHandlers final = delete idb (delete ida (messageHandlers st))
  /\ timers final = delete (timeout hb) (delete (timeout ha) (timers st)).
Proof.
  intros Hwf Ha Hb Hne Hra Hrb final.
  assert (Hp : promise ha <> promise hb).
  { intros Hp. apply Hne. by apply (wf_promise_owner st Hwf ida idb ha hb). }
  destruct (wf_pending st Hwf ida ha Ha) as (_ & Hsa & _).
  destruct (wf_pending st Hwf idb hb Hb) as (_ & Hsb & _).
  subst final. unfold run. simpl.
  rewrite (handleMessage_response ra st ida ha Hra (pending_truthy st ida ha Hwf Ha) Ha).
  erewrite (handleMessage_response rb _ idb hb Hrb (pending_truthy st idb hb Hwf Hb)).
  2:{ simpl. rewrite lookup_delete_ne by assumption. exact Hb. }
  simpl. rewrite !settlements_app, Hsa, Hsb. simpl.
  rewrite !Nat.eqb_refl, !eqb_nat_ne by congruence.
  repeat split; reflexivity.
Qed.

(** C1. Take any state the client reaches and two requests pending in it
    under distinct ids.  Their promises are distinct, and when the response
    to the second is delivered before the response to the first, each
    promise is settled exactly once, resolved with the response that carries
    its own id.  Delivery in the other order settles the promises in the
    same way and leaves the same entries and timers, so the outcome depends
    on the ids only.  Ids the client generates for two requests are always
    distinct. *)
Theorem C1_responses_match_by_id
    (es : list event) (id1 id2 : string) (h1 h2 : handler) (resp1 resp2 : message) :
  messageHandlers (run es initial) !! id1 = Some h1 ->
  messageHandlers (run es initial) !! id2 = Some h2 ->
  id1 <> id2 ->
  isResponseFor id1 resp1 = true ->
  isResponseFor id2 resp2 = true ->
  let reversed := run [Deliver resp2; Deliver resp1] (run es initial) in
  let inOrder := run [Deliver resp1; Deliver resp2] (run es initial) in
  promise h1 <> promise h2
  /\ settlements (promise h1) (log reversed) = [ResolvedWith resp1]
  /\ settlements (promise h2) (log reversed) = [ResolvedWith resp2]
  /\ promiseState (promise h1) reversed = Some (ResolvedWith resp1)
  /\ promiseState (promise h2) reversed = Some (ResolvedWith resp2)
  /\ promiseState (promise h1) inOrder = Some (ResolvedWith resp1)
  /\ promiseState (promise h2) inOrder = Some (ResolvedWith resp2)
  /\ messageHandlers reversed = messageHandlers inOrder
  /\ timers reversed = timers inOrder
  /\ messageHandlers reversed !! id1 = None
  /\ messageHandlers reversed !! id2 = None
  /\ (forall ty data now between ty' data' now',
        let '(_, ida, _, sent) := _sendMessage ty data now (run es initial) in
        let '(_, idb, _, _) := _sendMessage ty' data' now' (run between sent) in
        ida <> idb).
Proof.
  intros H1 H2 Hne Hr1 Hr2 reversed inOrder.
  pose proof (wf_reachable es) as Hwf.
  destruct (deliver_two _ id2 id1 h2 h1 resp2 resp1 Hwf H2 H1 (not_eq_sym Hne) Hr2 Hr1)
    as (Ra2 & Ra1 & Rh & Rt).
  destruct (deliver_two _ id1 id2 h1 h2 resp1 resp2 Hwf H1 H2 Hne Hr1 Hr2)
    as (Oa1 & Oa2 & Oh & Ot).
  fold reversed in Ra1, Ra2, Rh, Rt. fold inOrder in Oa1, Oa2, Oh, Ot.
  unfold promiseState. rewrite Ra1, Ra2, Oa1, Oa2, Rh, Rt, Oh, Ot.
  repeat split.
  - intros Hp. apply Hne. by apply (wf_promise_owner _ Hwf id1 id2 h1 h2).
  - apply delete_delete.
  - apply delete_delete.
  - apply lookup_delete_eq.
  - rewrite lookup_delete_ne by assumption. apply lookup_delete_eq.
  - intros ty data now between ty' data' now'. simpl.
    intros Heq. apply messageIdOf_inj in Heq as [_ Heq].
    pose proof (counter_run between (snd (_sendMessage ty data now (run es initial)))) as Hle.
    simpl in Hle. lia.
Qed.

Lemma C1_responses_match_by_id_witness :
  messageHandlers (run Samples.twoRequests initial) !! Samples.firstId
    = Some {| promise := 0; timeout := 1 |}
  /\ messageHandlers (run Samples.twoRequests initial) !! Samples.secondId
    = Some {| promise := 1; timeout := 3 |}
  /\ Samples.firstId <> Samples.secondId
  /\ isResponseFor Samples.firstId Samples.firstResponse = true
  /\ isResponseFor Samples.secondId Samples.secondResponse = true
  /\ promiseState 0 (run [Deliver Samples.secondResponse; Deliver Samples.firstResponse]
                         (run Samples.twoRequests initial))
     = Some (ResolvedWith Samples.firstResponse)
  /\ promiseState 1 (run [Deliver Samples.secondResponse; Deliver Samples.firstResponse]
                         (run Samples.twoRequests initial))
     = Some (ResolvedWith Samples.secondResponse).
Proof.
  assert (Ha : messageHandlers (run Samples.twoRequests initial) !! Samples.firstId
               = Some {| promise := 0; timeout := 1 |}) by (vm_compute; reflexivity).
  assert (Hb : messageHandlers (run Samples.twoRequests initial) !! Samples.secondId
               = Some {| promise := 1; timeout := 3 |}) by (vm_compute; reflexivity).
  assert (Hne : Samples.firstId <> Samples.secondId) by discriminate.
  pose proof (C1_responses_match_by_id Samples.twoRequests
                Samples.firstId Samples.secondId _ _
                Samples.firstResponse Samples.secondResponse
                Ha Hb Hne eq_refl eq_refl) as (_ & _ & _ & P1 & P2 & _).
  repeat split; assumption || reflexivity.
Defined.

(** *** Settlement at most once *)

Lemma timer_step (e : event) (st : state) :
  (nextTimer st <= nextTimer (step e st))%positive.
Proof.
  destruct e as [ty data now|m|t]; simpl.
  - lia.
  - destruct (handleMessage_cases m st) as [-> | (id & h & Hm & Hid & Hh)]; [lia|].
    rewrite (handleMessage_response m st id h Hm Hid Hh). simpl. lia.
  - unfold fireTimer. destruct (timers st !! t) as [[?|?]|]; simpl; lia.
Qed.

Lemma timer_run (es : list event) (st : state) :
  (nextTimer st <= nextTimer (run es st))%positive.
Proof.
  revert st. induction es as [|e es IH]; intros st; simpl; [lia|].
  etransitivity; [apply (timer_step e)|apply IH].
Qed.

(** A settled request stays settled, whatever happens next. *)
Lemma settled_step (e : event) (st : state) (id : string) (p : nat) (t : positive)
    (s : settlement) :
  wf st -> generated st id -> (t < nextTimer st)%positive ->
  settledAt id p t s st -> settledAt id p t s (step e st).
Proof.
  intros Hwf Hgen Ht (Hh & Htm & Hdel & Hset).
  assert (Hother : forall id' h', messageHandlers st !! id' = Some h' ->
                                  id' <> id /\ promise h' <> p).
  { intros id' h' Hh'. split; [congruence|].
    destruct (wf_pending st Hwf id' h' Hh') as (_ & Hnone & _).
    intros <-. rewrite Hnone in Hset. discriminate. }
  destruct e as [ty data now|m|t']; simpl.
  - unfold settledAt; simpl. rewrite settlements_app, deletions_app. simpl.
    rewrite app_nil_r, Nat.add_0_r.
    repeat split; try assumption.
    + rewrite lookup_insert_ne; [assumption|].
      intros Heq. destruct Hgen as (now' & c & -> & Hc).
      apply messageIdOf_inj in Heq as [_ Heq]. lia.
    + rewrite !lookup_insert_ne by lia. assumption.
  - destruct (handleMessage_cases m st) as [-> | (id' & h' & Hm & Hid & Hh')];
      [by repeat split|].
    rewrite (handleMessage_response m st id' h' Hm Hid Hh').
    destruct (Hother id' h' Hh') as [Hne Hp].
    unfold settledAt; simpl. rewrite settlements_app, deletions_app. simpl.
    rewrite eqb_string_ne, eqb_nat_ne by congruence.
    rewrite app_nil_r, Nat.add_0_r. repeat split; try assumption.
    + rewrite lookup_delete_ne by congruence. assumption.
    + rewrite lookup_delete. case_decide; [reflexivity | assumption].
  - unfold fireTimer. destruct (timers st !! t') as [[id' ty' p'|m]|] eqn:Et;
      [| |by repeat split].
    + destruct (Hother id' _ (wf_timer_handler st Hwf _ _ _ _ Et)) as [Hne Hp].
      simpl in Hp.
      unfold settledAt; simpl. rewrite settlements_app, deletions_app. simpl.
      rewrite eqb_string_ne, eqb_nat_ne by congruence.
      rewrite app_nil_r, Nat.add_0_r. repeat split; try assumption.
      * rewrite lookup_delete_ne by congruence. assumption.
      * rewrite lookup_delete. case_decide; [reflexivity | assumption].
    + unfold settledAt; simpl. rewrite settlements_app, deletions_app. simpl.
      rewrite app_nil_r, Nat.add_0_r. repeat split; try assumption.
      rewrite lookup_delete. case_decide; [reflexivity | assumption].
Qed.

Lemma settled_run (es : list event) (st : state) (id : string) (p : nat) (t : positive)
    (s : settlement) :
  wf st -> generated st id -> (t < nextTimer st)%positive ->
  settledAt id p t s st -> settledAt id p t s (run es st).
Proof.
  revert st. induction es as [|e es IH]; intros st Hwf Hgen Ht Hs; [assumption|].
  simpl. apply IH.
  - by apply wf_step.
  - eapply generated_mono; [apply (counter_step e)|assumption].
  - pose proof (timer_step e st). lia.
  - by apply settled_step.
Qed.

(** The timeout of a pending request fires. *)
Lemma pending_timeout (st : state) (id ty : string) (p : nat) (t : positive) :
  pendingAt id ty p t st ->
  log (fireTimer t st)
    = log st ++ [MapDelete id; Reject p ("Request timed out: " ++ ty)]
  /\ settledAt id p t (RejectedWith ("Request timed out: " ++ ty)) (fireTimer t st).
Proof.
  intros (Hh & Htm & Hdel & Hset). unfold fireTimer, settledAt. rewrite Htm. simpl.
  rewrite settlements_app, deletions_app, Hdel, Hset. simpl.
  rewrite String.eqb_refl, Nat.eqb_refl, !lookup_delete_eq. repeat split.
Qed.

(** The response to a pending request arrives. *)
Lemma pending_response (st : state) (id ty : string) (p : nat) (t : positive)
    (resp : message) :
  wf st -> pendingAt id ty p t st -> isResponseFor id resp = true ->
  log (_handleMessage resp st)
    = log st ++ [MapDelete id; ClearTimeout t; Resolve p resp]
  /\ settledAt id p t (ResolvedWith resp) (_handleMessage resp st).
Proof.
  intros Hwf (Hh & Htm & Hdel & Hset) Hr.
  rewrite (handleMessage_response resp st id _ Hr (pending_truthy st id _ Hwf Hh) Hh).
  unfold settledAt. simpl.
  rewrite settlements_app, deletions_app, Hdel, Hset. simpl.
  rewrite String.eqb_refl, Nat.eqb_refl, !lookup_delete_eq. repeat split.
Qed.

(** A pending request stays pending until its response or its timeout
    settles it. *)
Lemma pending_step (e : event) (st : state) (id ty : string) (p : nat) (t : positive) :
  wf st -> pendingAt id ty p t st ->
  pendingAt id ty p t (step e st) \/ exists s, settledAt id p t s (step e st).
Proof.
  intros Hwf Hpend. pose proof Hpend as (Hh & Htm & Hdel & Hset).
  destruct e as [ty' data now|m|t']; simpl.
  - left. destruct (fresh_id st now Hwf) as [Hfresh _].
    pose proof (live_timer_lt st t _ Hwf Htm) as Hlt.
    unfold pendingAt; simpl. rewrite settlements_app, deletions_app. simpl.
    rewrite app_nil_r, Nat.add_0_r. repeat split; try assumption.
    + rewrite lookup_insert_ne; [assumption|]. intros Heq. congruence.
    + rewrite !lookup_insert_ne by lia. assumption.
  - destruct (handleMessage_cases m st) as [-> | (id' & h' & Hm & Hid & Hh')];
      [by left|].
    destruct (decide (id' = id)) as [->|Hne].
    + right. exists (ResolvedWith m). by apply (pending_response st id ty).
    + left. rewrite (handleMessage_response m st id' h' Hm Hid Hh').
      destruct (wf_handler_timer st Hwf id' h' Hh') as [ty'' Htm'].
      assert (Hp : promise h' <> p).
      { intros Hp. apply Hne.
        by apply (wf_promise_owner st Hwf id' id h' {| promise := p; timeout := t |}). }
      unfold pendingAt; simpl. rewrite settlements_app, deletions_app. simpl.
      rewrite eqb_string_ne, eqb_nat_ne by congruence.
      rewrite app_nil_r, Nat.add_0_r. repeat split; try assumption.
      * rewrite lookup_delete_ne by congruence. assumption.
      * rewrite lookup_delete_ne; [assumption|]. intros Heq. rewrite Heq in Htm'. congruence.
  - destruct (decide (t' = t)) as [->|Hne].
    + right. eexists. by apply (pending_timeout st id ty).
    + left. unfold fireTimer.
      destruct (timers st !! t') as [[id' ty' p'|m]|] eqn:Et; [| |assumption].
      * pose proof (wf_timer_handler st Hwf _ _ _ _ Et) as Hh'.
        assert (Hid : id' <> id) by (intros ->; congruence).
        assert (Hp : p' <> p).
        { intros Hp. apply Hid.
          by apply (wf_promise_owner st Hwf id' id _ _ Hh' Hh). }
        unfold pendingAt; simpl. rewrite settlements_app, deletions_app. simpl.
        rewrite eqb_string_ne, eqb_nat_ne by congruence.
        rewrite app_nil_r, Nat.add_0_r. repeat split; try assumption.
        -- rewrite lookup_delete_ne by congruence. assumption.
        -- rewrite lookup_delete_ne by congruence. assumption.
      * unfold pendingAt; simpl. rewrite settlements_app, deletions_app. simpl.
        rewrite app_nil_r, Nat.add_0_r. repeat split; try assumption.
        rewrite lookup_delete_ne by congruence. assumption.
Qed.

Lemma pending_run (es : list event) (st : state) (id ty : string) (p : nat) (t : positive) :
  wf st -> generated st id -> (t < nextTimer st)%positive ->
  pendingAt id ty p t st ->
  pendingAt id ty p t (run es st) \/ exists s, settledAt id p t s (run es st).
Proof.
  revert st. induction es as [|e es IH]; intros st Hwf Hgen Ht Hpend; [by left|].
  simpl.
  assert (Hgen' : generated (step e st) id).
  { eapply generated_mono; [apply (counter_step e)|assumption]. }
  assert (Ht' : (t < nextTimer (step e st))%positive).
  { pose proof (timer_step e st). lia. }
  destruct (pending_step e st id ty p t Hwf Hpend) as [Hp | [s Hs]].
  - apply IH; try assumption. by apply wf_step.
  - right. exists s. apply settled_run; try assumption. by apply wf_step.
Qed.

(** A request is pending right after it has been sent. *)
Lemma pending_sent (ty : string) (data : list (string * string)) (now : N) (st : state) :
  wf st ->
  let '(p, id, t, sent) := _sendMessage ty data now st in
  pendingAt id ty p t sent /\ generated sent id /\ (t < nextTimer sent)%positive.
Proof.
  intros Hwf. simpl. destruct (fresh_id st now Hwf) as [_ Hdel].
  unfold pendingAt; simpl. rewrite settlements_app, deletions_app. simpl.
  rewrite app_nil_r, Nat.add_0_r, Hdel.
  rewrite (wf_promise_fresh st Hwf) by lia.
  rewrite lookup_insert_eq, lookup_insert_ne, lookup_insert_eq by lia.
  repeat split; try lia.
  eexists _, _. split; [reflexivity | simpl; lia].
Qed.

Lemma handleMessage_no_entry (m : message) (st : state) (id : string) :
  messageId m = Some id -> messageHandlers st !! id = None -> _handleMessage m st = st.
Proof.
  intros Hm Hh. unfold _handleMessage. rewrite Hm, Hh. by destruct (negb (truthy id)).
Qed.

(** C2. A request is sent from any state the client reaches, and any
    events follow.  Whatever they are, the entry of the request has been
    deleted at most once and its promise settled at most once, and the
    request is either still pending or settled.  While it is pending, the
    firing of its timeout deletes the entry and then rejects the promise,
    and the arrival of its response deletes the entry, clears the timer and
    resolves the promise; either way the request is settled.  Once it is
    settled, a message that carries its id finds no entry and leaves the
    state untouched, its timeout can no longer fire, and after any further
    events the entry is still absent, deleted once, and the promise still
    holds its one settlement. *)
Theorem C2_entry_removed_exactly_once
    (es after : list event) (ty : string) (data : list (string * string)) (now : N) :
  let '(p, id, t, sent) := _sendMessage ty data now (run es initial) in
  let st := run after sent in
  deletions id (log st) <= 1
  /\ length (settlements p (log st)) <= 1
  /\ pendingAt id ty p t sent
  /\ (pendingAt id ty p t st \/ exists s, settledAt id p t s st)
  /\ (pendingAt id ty p t st ->
      let timedOut := fireTimer t st in
      log timedOut = log st ++ [MapDelete id; Reject p ("Request timed out: " ++ ty)]
      /\ settledAt id p t (RejectedWith ("Request timed out: " ++ ty)) timedOut
      /\ forall resp, isResponseFor id resp = true ->
           log (_handleMessage resp st)
             = log st ++ [MapDelete id; ClearTimeout t; Resolve p resp]
           /\ settledAt id p t (ResolvedWith resp) (_handleMessage resp st))
  /\ (forall s, settledAt id p t s st ->
      (forall m, messageId m = Some id -> _handleMessage m st = st)
      /\ fireTimer t st = st
      /\ forall later, settledAt id p t s (run later st)).
Proof.
  pose proof (wf_reachable es) as Hwf.
  pose proof (pending_sent ty data now (run es initial) Hwf) as Hsent.
  pose proof (wf_sendMessage ty data now (run es initial) Hwf) as Hwf1.
  destruct (_sendMessage ty data now (run es initial)) as [[[p id] t] sent].
  simpl in Hwf1. destruct Hsent as (Hpend & Hgen & Ht).
  pose proof (wf_run after sent Hwf1) as Hwf2.
  cbv zeta. split; [apply (wf_deleted_once _ Hwf2)|].
  split; [apply (wf_settled_once _ Hwf2)|].
  split; [assumption|].
  split; [by apply (pending_run after sent id ty p t)|].
  split.
  - intros Hp. split; [apply (pending_timeout _ _ _ _ _ Hp)|].
    split; [apply (pending_timeout _ _ _ _ _ Hp)|].
    intros resp Hr. by apply (pending_response _ id ty).
  - intros s Hs. split; [|split].
    + intros m Hm. apply (handleMessage_no_entry m _ id Hm). apply Hs.
    + unfold fireTimer. destruct Hs as (_ & -> & _). reflexivity.
    + intros later. apply settled_run; try assumption.
      * eapply generated_mono; [apply (counter_run after)|assumption].
      * pose proof (timer_run after sent). lia.
Qed.

(** *** Script execution without a session token *)

Lemma tokenInScripts_none (l : list string) :
  Forall (fun content => matchToken content = None) l -> tokenInScripts l = None.
Proof. induction 1 as [|c l Hc _ IH]; simpl; [reflexivity|]. by rewrite Hc. Qed.

Lemma tokenInCookies_none (l : list string) :
  Forall (fun c => isSessionCookie (hd EmptyString (splitChar "=" (trim c))) = false) l ->
  tokenInCookies l = None.
Proof. induction 1 as [|c l Hc _ IH]; simpl; [reflexivity|]. by rewrite Hc. Qed.

(** C9. When the page has no truthy [g_ck] global, no script element whose
    text matches the token pattern, and no cookie named as a session
    cookie, [getSessionToken] finds nothing, and the handler of a
    script-execution request answers with the no-token error response for
    the request's id and starts no [fetch].  A message of the
    script-execution type with an id is routed to this handler. *)
Theorem C9_no_token_no_network (pg : page) (data : message) :
  truthyOpt (g_ck pg) = false ->
  Forall (fun content => matchToken content = None) (scripts pg) ->
  Forall (fun c => isSessionCookie (hd EmptyString (splitChar "=" (trim c))) = false)
         (splitChar ";" (cookie pg)) ->
  getSessionToken pg = None
  /\ handleBackgroundScriptRequest pg data
     = [Post {| type := Some "glassBackgroundScriptResponse";
                messageId := messageId data;
                fields := [("error", "No authentication token available")] |}]
  /\ existsb isFetch (handleBackgroundScriptRequest pg data) = false
  /\ (type data = Some "glassBackgroundScriptRequest" ->
      truthyOpt (messageId data) = true ->
      route data = Some BackgroundScriptRequest).
Proof.
  intros Hg Hs Hc.
  assert (Hnone : getSessionToken pg = None).
  { unfold getSessionToken. rewrite Hg, (tokenInScripts_none _ Hs).
    by rewrite (tokenInCookies_none _ Hc). }
  assert (Hrun : handleBackgroundScriptRequest pg data
     = [Post {| type := Some "glassBackgroundScriptResponse";
                messageId := messageId data;
                fields := [("error", "No authentication token available")] |}]).
  { unfold handleBackgroundScriptRequest, orElse. rewrite Hnone, Hg. reflexivity. }
  repeat split; try assumption.
  - rewrite Hrun. reflexivity.
  - intros Hty Hid. unfold route. rewrite Hty, Hid. reflexivity.
Qed.

Lemma C9_no_token_witness :
  truthyOpt (g_ck Samples.anonymousPage) = false
  /\ Forall (fun content => matchToken content = None) (scripts Samples.anonymousPage)
  /\ Forall (fun c => isSessionCookie (hd EmptyString (splitChar "=" (trim c))) = false)
            (splitChar ";" (cookie Samples.anonymousPage))
  /\ handleBackgroundScriptRequest Samples.anonymousPage Samples.scriptRequest
     = [Post {| type := Some "glassBackgroundScriptResponse";
                messageId := Some "glass_bg_1700000000000_1";
                fields := [("error", "No authentication token available")] |}].
Proof.
  assert (Hs : Forall (fun content => matchToken content = None)
                      (scripts Samples.anonymousPage)).
  { repeat constructor. }
  assert (Hc : Forall (fun c => isSessionCookie (hd EmptyString (splitChar "=" (trim c))) = false)
                      (splitChar ";" (cookie Samples.anonymousPage))).
  { vm_compute. repeat constructor. }
  split; [reflexivity|]. split; [exact Hs|]. split; [exact Hc|].
  exact (proj1 (proj2 (C9_no_token_no_network Samples.anonymousPage Samples.scriptRequest
                         eq_refl Hs Hc))).
Defined.

(** With a token in a script element the same request goes to the network. *)
Example sessionPage_fetches :
  handleBackgroundScriptRequest Samples.sessionPage Samples.scriptRequest
  = [Fetch "https://dev.example.com/sys.scripts.do" "POST"
       [("script", "gs.print(1)"); ("runscript", "Run script");
        ("sysparm_ck", "f00d"); ("quota_managed_transaction", "on")]].
Proof. vm_compute. reflexivity. Qed.

(** *** Parsing the output of a script *)

Lemma trimEnd_ink (s : string) : trimEnd s = "" \/ endsInInk (trimEnd s) = true.
Proof.
  induction s as [|c s IH]; simpl; [by left|].
  destruct (trimEnd s) as [|d r] eqn:E.
  - destruct (isWhiteSpace c) eqn:W; [by left|]. right. simpl. by rewrite W.
  - right. destruct IH as [IH|IH]; [discriminate|]. exact IH.
Qed.

Lemma endsInInk_trimEnd (s : string) : endsInInk s = true -> trimEnd s = s.
Proof.
  induction s as [|c s IH]; simpl; [discriminate|].
  destruct s as [|d r].
  - simpl. intros H. apply negb_true_iff in H. by rewrite H.
  - intros H. rewrite (IH H). reflexivity.
Qed.







Lemma substringFrom_app (a b : string) (k : nat) :
  substringFrom (String.length a + k) (a +:+ b) = substringFrom k b.
Proof. induction a as [|c a IH]; simpl; [reflexivity | exact IH]. Qed.

Lemma truthy_app_r (a b : string) : truthy b = true -> truthy (a +:+ b) = true.
Proof. by destruct a. Qed.





(** * Further properties of the code *)

(** *** More on the registry *)

Lemma lowerChar_idem (c : ascii) : lowerChar (lowerChar c) = lowerChar c.
Proof. destruct c as [[] [] [] [] [] [] [] []]; reflexivity. Qed.

Lemma toLowerCase_idem (s : string) : toLowerCase (toLowerCase s) = toLowerCase s.
Proof. induction s as [|c s IH]; simpl; [reflexivity|]. by rewrite lowerChar_idem, IH. Qed.

Lemma consistent_empty : consistent empty_registry.
Proof.
  split; simpl.
  - intros key c H. by rewrite lookup_empty in H.
  - intros alias key H. by rewrite lookup_empty in H.
Qed.

Lemma consistent_register (c : command) (r : registry) :
  consistent r -> consistent (fst (register c r)).
Proof.
  intros [Hc Ha]. destruct (accepted c) eqn:Hacc.
  - rewrite register_accepted by assumption. split; simpl.
    + intros key d. rewrite lookup_insert. case_decide as E.
      * intros [= <-]. by subst key.
      * apply Hc.
    + intros alias key. rewrite foldl_alias_lookup. case_bool_decide.
      * intros [= <-]. rewrite lookup_insert_eq. eauto.
      * intros H'. rewrite lookup_insert. case_decide; [eauto|]. by eapply Ha.
  - by rewrite register_refused.
Qed.

Lemma consistent_registerAll (cs : list command) (r : registry) :
  consistent r -> consistent (registerAll cs r).
Proof.
  revert r. induction cs as [|c cs IH]; intros r Hr; [assumption|].
  rewrite registerAll_cons. by apply IH, consistent_register.
Qed.

(** In a consistent registry the listed names are the tokens that
    resolve. *)
Lemma listed_resolves (r : registry) (t : string) :
  consistent r ->
  toLowerCase t ∈ getCommandNames r <-> is_Some (get t r).
Proof.
  intros [Hc Ha].
  unfold getCommandNames, get. rewrite elem_of_union, !elem_of_dom. split.
  - intros [[c H]|[k H]].
    + rewrite H. eauto.
    + destruct (commands r !! toLowerCase t); [eauto|]. rewrite H. by eapply Ha.
  - destruct (commands r !! toLowerCase t) as [c|]; [eauto|].
    destruct (aliases r !! toLowerCase t) as [k|]; [eauto|].
    intros [? [=]].
Qed.

(** X1. In a registry built by registrations from the empty one, a name
    or alias that is known always resolves: an alias never leads to a name
    that is missing.  What [get] returns is a command that [register]
    accepted, and when it was found by name it is stored under its own
    lower-cased name. *)
Theorem X1_known_tokens_resolve (cs : list command) (t : string) :
  (toLowerCase t ∈ getCommandNames (registerAll cs empty_registry) <->
     is_Some (get t (registerAll cs empty_registry)))
  /\ (forall c, get t (registerAll cs empty_registry) = Some c -> accepted c = true)
  /\ (forall c, commands (registerAll cs empty_registry) !! toLowerCase t = Some c ->
        keyOf c = toLowerCase t).
Proof.
  pose proof (consistent_registerAll cs _ consistent_empty) as Hr.
  set (r := registerAll cs empty_registry) in *.
  split; [by apply listed_resolves|]. destruct Hr as [Hc Ha]. split.
  - intros c. unfold get.
    destruct (commands r !! toLowerCase t) as [d|] eqn:E.
    + intros [= <-]. by apply (Hc _ _ E).
    + destruct (aliases r !! toLowerCase t) as [k|]; [|discriminate].
      intros H. by apply (Hc _ _ H).
  - intros c H. symmetry. by apply (Hc _ _ H).
Qed.

Lemma get_unknown (r : registry) (t : string) :
  commands r !! toLowerCase t = None ->
  aliases r !! toLowerCase t = None ->
  get t r = None.
Proof. unfold get. by intros -> ->. Qed.

(** X2. When the first token of a line is, up to case, neither the name
    nor an alias of any command that was registered, dispatch invokes
    nothing and the user is shown the unknown-command error for that
    token. *)
Theorem X2_unknown_token_invokes_nothing (cs : list command) (line : string) :
  Forall (fun d => accepted d = true ->
                   keyOf d <> toLowerCase (commandName line)
                   /\ toLowerCase (commandName line) ∉ aliasKeys d) cs ->
  execute line (registerAll cs empty_registry)
    = ([], Thrown (UnknownCommand (commandName line)))
  /\ executeCommand line (registerAll cs empty_registry)
    = ([], Some (UnknownCommand (commandName line))).
Proof.
  intros Hcs.
  assert (Hget : get (commandName line) (registerAll cs empty_registry) = None).
  { apply get_unknown.
    - rewrite commands_registerAll_other; [apply lookup_empty|].
      eapply Forall_impl; [exact Hcs|]. simpl. intros d H Hd. by apply H.
    - rewrite aliases_registerAll_other; [apply lookup_empty|].
      eapply Forall_impl; [exact Hcs|]. simpl. intros d H Hd. by apply H. }
  unfold executeCommand, execute. rewrite Hget. split; reflexivity.
Qed.

Lemma X2_unknown_token_witness :
  executeCommand "unknownthing arg1" Samples.sampleRegistry
  = ([], Some "Unknown command: unknownthing. Type 'help' for available commands.").
Proof.
  refine (proj2 (X2_unknown_token_invokes_nothing
            [Samples.helpCommand; Samples.listCommand; Samples.loginCommand]
            "unknownthing arg1" _)).
  repeat (apply List.Forall_cons;
    [intros _; split;
       [vm_compute; discriminate
       |vm_compute; intros H;
        repeat (apply elem_of_cons in H as [H|H]; [discriminate|]);
        by apply elem_of_nil in H]|]).
  apply List.Forall_nil.
Defined.

(** X3. Whatever the line and the registry, dispatch deals with one
    command only, the one the first token resolves to, and with the
    arguments of the line: it calls the validator at most once, [execute] at
    most once, and the validator first.  It never calls [execute] when the
    validator returned something else than [true]; and when it has called
    [execute], the user is shown exactly the message [execute] rejected with,
    or nothing when it completed. *)
Theorem X3_dispatch_runs_one_command (r : registry) (line : string) :
  match get (commandName line) r with
  | None => fst (executeCommand line r) = []
  | Some c =>
      In (fst (executeCommand line r)) (invocationShapes c (args line))
      /\ (forall validate, cmd_validate c = Some validate ->
            validate (args line) <> VTrue ->
            existsb isInvokeExecute (fst (executeCommand line r)) = false)
      /\ (forall run, cmd_execute c = Some run ->
            existsb isInvokeExecute (fst (executeCommand line r)) = true ->
            snd (executeCommand line r)
            = match run (args line) with
              | Fulfilled => None
              | Rejected e => Some e
              end)
  end.
Proof.
  unfold executeCommand, execute.
  destruct (get (commandName line) r) as [c|]; [|reflexivity].
  unfold invocationShapes, runCommand.
  destruct (cmd_validate c) as [v|]; destruct (cmd_execute c) as [run|];
    try destruct (v (args line)) eqn:Ev;
    try destruct (run (args line)) eqn:Er; simpl;
    repeat split; try tauto; try congruence;
      try (intros ? [= <-]); try (intros ? [= <-] ?); try congruence;
      try (intros; discriminate).
  all: intros _; by rewrite Er.
Qed.

(** X5. Registering the same definition object a second time changes
    nothing: the registry after two registrations is the registry after
    one. *)
Theorem X5_register_is_idempotent (c : command) (r : registry) :
  register c (fst (register c r)) = register c r.
Proof.
  destruct (accepted c) eqn:Hacc.
  - rewrite !register_accepted by assumption. simpl. f_equal. f_equal.
    + apply insert_insert_eq.
    + apply map_eq. intros k. rewrite !foldl_alias_lookup.
      by case_bool_decide.
  - by rewrite !register_refused.
Qed.

Lemma alias_keys_lower (cs : list command) (r : registry) :
  (forall a k, aliases r !! a = Some k -> toLowerCase a = a) ->
  forall a k, aliases (registerAll cs r) !! a = Some k -> toLowerCase a = a.
Proof.
  revert r. induction cs as [|c cs IH]; intros r Hr; [assumption|].
  rewrite registerAll_cons. apply IH.
  destruct (accepted c) eqn:Hacc.
  - rewrite register_accepted by assumption. simpl.
    intros a k. rewrite foldl_alias_lookup. case_bool_decide as E.
    + intros _. apply list_elem_of_fmap in E as (x & -> & _). apply toLowerCase_idem.
    + apply Hr.
  - by rewrite register_refused.
Qed.

(** X6. Every completion [findMatching] offers for a prefix begins with
    the lower-cased prefix and, in a registry built by registrations, is a
    token that dispatch resolves to a command; and every registered name or
    alias that begins with the lower-cased prefix is offered. *)
Theorem X6_completions_resolve (cs : list command) (prefix name : string) :
  (name ∈ findMatching prefix (registerAll cs empty_registry) ->
     startsWith name (toLowerCase prefix) = true
     /\ is_Some (get name (registerAll cs empty_registry)))
  /\ (startsWith name (toLowerCase prefix) = true ->
      is_Some (commands (registerAll cs empty_registry) !! name)
      \/ is_Some (aliases (registerAll cs empty_registry) !! name) ->
      name ∈ findMatching prefix (registerAll cs empty_registry)).
Proof.
  destruct (consistent_registerAll cs _ consistent_empty) as [Hc Ha].
  pose proof (alias_keys_lower cs empty_registry) as Hlow.
  set (r := registerAll cs empty_registry) in *.
  unfold findMatching. split.
  - intros H. apply elem_of_filter in H as [Hp Hn]. split; [assumption|].
    assert (Hname : toLowerCase name = name).
    { unfold getCommandNames in Hn. apply elem_of_union in Hn as [Hn|Hn];
        apply elem_of_dom in Hn as [x Hx].
      - destruct (Hc _ _ Hx) as [_ ->]. apply toLowerCase_idem.
      - eapply Hlow; [|exact Hx]. intros a k H. simpl in H. by rewrite lookup_empty in H. }
    apply listed_resolves; [by split|]. by rewrite Hname.
  - intros Hp Hn. apply elem_of_filter. split; [assumption|].
    unfold getCommandNames. rewrite elem_of_union, !elem_of_dom. exact Hn.
Qed.

(** *** The tokens of a command line *)

Lemma splitWsFrom_cons (b : bool) (s : string) :
  exists piece rest, splitWsFrom b s = piece :: rest.
Proof.
  revert b. induction s as [|c s IH]; intros b; simpl; [eauto|].
  destruct (isWhiteSpace c).
  - destruct b; [apply IH | eauto].
  - destruct (IH false) as (p & rest & ->). eauto.
Qed.

Lemma splitWsFrom_inkfree (b : bool) (s : string) :
  Forall (fun tok => hasWhiteSpace tok = false) (splitWsFrom b s).
Proof.
  revert b. induction s as [|c s IH]; intros b; simpl.
  - by repeat constructor.
  - destruct (isWhiteSpace c) eqn:W.
    + destruct b; [apply IH|]. constructor; [reflexivity | apply IH].
    + specialize (IH false). destruct (splitWsFrom false s) as [|p rest].
      * repeat constructor. simpl. by rewrite W.
      * inversion IH as [|? ? Hp Hrest]; subst. constructor; [|assumption].
        simpl. by rewrite W.
Qed.

Lemma splitWsFrom_nonempty (s : string) :
  endsInInk s = true ->
  Forall (fun tok => tok <> "") (splitWsFrom true s)
  /\ Forall (fun tok => tok <> "") (tl (splitWsFrom false s)).
Proof.
  induction s as [|c s IH]; [discriminate|].
  intros H. destruct s as [|d r].
  - simpl in *. apply negb_true_iff in H. rewrite H. by repeat constructor.
  - assert (Hr : endsInInk (String d r) = true) by exact H.
    destruct (IH Hr) as [IHt IHf].
    change (splitWsFrom true (String c (String d r)))
      with (if isWhiteSpace c then splitWsFrom true (String d r)
            else match splitWsFrom false (String d r) with
                 | piece :: rest => String c piece :: rest
                 | [] => [String c EmptyString]
                 end).
    change (splitWsFrom false (String c (String d r)))
      with (if isWhiteSpace c then EmptyString :: splitWsFrom true (String d r)
            else match splitWsFrom false (String d r) with
                 | piece :: rest => String c piece :: rest
                 | [] => [String c EmptyString]
                 end).
    destruct (isWhiteSpace c); [by split|].
    destruct (splitWsFrom_cons false (String d r)) as (p & rest & E).
    rewrite E in *. simpl in IHf. split; [constructor; [discriminate | assumption] | assumption].
Qed.

Lemma isBlank_trimStart (s : string) : isBlank (trimStart s) = isBlank s.
Proof.
  induction s as [|c s IH]; [reflexivity|]. simpl.
  destruct (isWhiteSpace c) eqn:W; simpl; [assumption | by rewrite W].
Qed.

Lemma trimEnd_blank (s : string) : trimEnd s = "" -> isBlank s = true.
Proof.
  induction s as [|c s IH]; [reflexivity|]. simpl.
  destruct (trimEnd s); [|discriminate].
  destruct (isWhiteSpace c); [intros _; by apply IH | discriminate].
Qed.

Lemma trimEnd_head (c : ascii) (s : string) :
  isWhiteSpace c = false -> exists r, trimEnd (String c s) = String c r.
Proof. intros W. simpl. destruct (trimEnd s); rewrite ?W; eauto. Qed.

(** A line that is not blank trims to a text with ink at both ends. *)
Lemma trim_nonblank (line : string) :
  isBlank line = false ->
  exists c r, trim line = String c r /\ isWhiteSpace c = false
              /\ endsInInk (trim line) = true.
Proof.
  intros Hb. unfold trim.
  assert (Hs : isBlank (trimStart line) = false) by (by rewrite isBlank_trimStart).
  assert (Hc : exists c r, trimStart line = String c r /\ isWhiteSpace c = false).
  { clear Hs. induction line as [|c s IH]; [discriminate|]. simpl in *.
    destruct (isWhiteSpace c) eqn:W; [by apply IH | eauto]. }
  destruct Hc as (c & r & E & W). rewrite E in *.
  destruct (trimEnd_head c r W) as [r' E'].
  exists c, r'. split; [assumption|]. split; [assumption|].
  destruct (trimEnd_ink (String c r)) as [H|H]; [|assumption].
  rewrite E' in H. discriminate.
Qed.

Lemma splitWsFrom_token (b : bool) (t : string) :
  hasWhiteSpace t = false -> splitWsFrom b t = [t].
Proof.
  revert b. induction t as [|c t IH]; intros b H; [reflexivity|].
  simpl in *. apply orb_false_iff in H as [W H]. rewrite W, (IH false H). reflexivity.
Qed.

Lemma splitWsFrom_token_space (t rest : string) :
  hasWhiteSpace t = false ->
  splitWsFrom false (t +:+ " " +:+ rest) = t :: splitWsFrom true rest.
Proof.
  induction t as [|c t IH]; intros H; [reflexivity|].
  simpl in *. apply orb_false_iff in H as [W H]. rewrite W, (IH H). reflexivity.
Qed.

Lemma splitWsFrom_ink_first (c : ascii) (s : string) :
  isWhiteSpace c = false ->
  splitWsFrom true (String c s) = splitWsFrom false (String c s).
Proof. intros W. simpl. by rewrite W. Qed.

Lemma join_head (c : ascii) (r : string) (ts : list string) :
  exists s, join " " (String c r :: ts) = String c s.
Proof. destruct ts; simpl; eauto. Qed.

Lemma split_join (b : bool) (t : string) (ts : list string) :
  Forall (fun tok => tok <> "" /\ hasWhiteSpace tok = false) (t :: ts) ->
  splitWsFrom false (join " " (t :: ts)) = t :: ts.
Proof.
  revert t. induction ts as [|t' ts IH]; intros t H.
  - inversion H as [|? ? [_ Ht] _]; subst. by apply splitWsFrom_token.
  - inversion H as [|? ? [_ Ht] H']; subst.
    change (join " " (t :: t' :: ts)) with (t +:+ " " +:+ join " " (t' :: ts)).
    rewrite splitWsFrom_token_space by assumption. f_equal.
    pose proof (IH t' H') as IH'.
    inversion H' as [|? ? [Hne Hws] _]; subst.
    destruct t' as [|c r]; [contradiction|].
    simpl in Hws. apply orb_false_iff in Hws as [W _].
    destruct (join_head c r ts) as [s Es]. rewrite Es in *.
    by rewrite splitWsFrom_ink_first.
Qed.

Lemma token_ink (t : string) :
  t <> "" -> hasWhiteSpace t = false -> endsInInk t = true.
Proof.
  induction t as [|c t IH]; [contradiction|]. intros _ H. simpl in H.
  apply orb_false_iff in H as [W H]. destruct t as [|d r].
  - simpl. by rewrite W.
  - apply IH; [discriminate | assumption].
Qed.

Lemma endsInInk_app (a b : string) :
  endsInInk b = true -> endsInInk (a +:+ b) = true.
Proof.
  intros Hb. induction a as [|c a IH]; [assumption|].
  simpl. destruct (a +:+ b) eqn:E; [discriminate | assumption].
Qed.

Lemma join_ink (t : string) (ts : list string) :
  Forall (fun tok => tok <> "" /\ hasWhiteSpace tok = false) (t :: ts) ->
  endsInInk (join " " (t :: ts)) = true.
Proof.
  revert t. induction ts as [|t' ts IH]; intros t H.
  - inversion H as [|? ? [Hne Ht] _]; subst. by apply token_ink.
  - inversion H as [|? ? _ H']; subst.
    change (join " " (t :: t' :: ts)) with (t +:+ " " +:+ join " " (t' :: ts)).
    apply endsInInk_app, (endsInInk_app " "), IH, H'.
Qed.

(** X4. The tokens of a command line never contain white space, and
    when the line is not blank none of them is empty.  Splitting undoes
    joining: for tokens that are non-empty and free of white space, the line
    made of them with single spaces between has the first as its command
    token and the others as its arguments. *)
Theorem X4_tokens_of_a_line (line t : string) (ts : list string) :
  Forall (fun tok => hasWhiteSpace tok = false) (parts line)
  /\ (isBlank line = false -> Forall (fun tok => tok <> "") (parts line))
  /\ (Forall (fun tok => tok <> "" /\ hasWhiteSpace tok = false) (t :: ts) ->
      parts (join " " (t :: ts)) = t :: ts
      /\ commandName (join " " (t :: ts)) = t
      /\ args (join " " (t :: ts)) = ts).
Proof.
  split; [apply splitWsFrom_inkfree|]. split.
  - intros Hb. unfold parts, splitWhitespace.
    destruct (trim_nonblank line Hb) as (c & r & E & W & Hink).
    destruct (splitWsFrom_nonempty _ Hink) as [_ Htl].
    rewrite E in *. simpl in *. rewrite W in *.
    destruct (splitWsFrom_cons false r) as (p & rest & Er). rewrite Er in *.
    constructor; [discriminate | assumption].
  - intros H.
    assert (Hparts : parts (join " " (t :: ts)) = t :: ts).
    { unfold parts, splitWhitespace, trim.
      assert (Hstart : trimStart (join " " (t :: ts)) = join " " (t :: ts)).
      { inversion H as [|? ? [Hne Hws] _]; subst.
        destruct t as [|c r]; [contradiction|].
        simpl in Hws. apply orb_false_iff in Hws as [W _].
        destruct (join_head c r ts) as [s ->]. simpl. by rewrite W. }
      rewrite Hstart, (endsInInk_trimEnd _ (join_ink t ts H)).
      by apply (split_join false). }
    unfold commandName, args. rewrite Hparts. by repeat split.
Qed.

(** *** More on the table lookup *)

Lemma sortInsert_perm {A} (compare : A -> A -> Z) (x : A) (l : list A) :
  Permutation (sortInsert compare x l) (x :: l).
Proof.
  induction l as [|y l IH]; simpl; [reflexivity|].
  destruct (0 <? compare x y)%Z; [|reflexivity].
  rewrite IH. apply perm_swap.
Qed.

Lemma sort_perm {A} (compare : A -> A -> Z) (l : list A) :
  Permutation (sort compare l) l.
Proof.
  induction l as [|x l IH]; simpl; [reflexivity|].
  rewrite sortInsert_perm. by constructor.
Qed.

Lemma startsWith_includes (s p : string) :
  startsWith s p = true -> includes s p = true.
Proof.
  intros H. unfold includes. apply bool_decide_eq_true.
  destruct s; simpl; rewrite H; eauto.
Qed.

Lemma match_split (q : string) (d : table_def) :
  isMatch q d = isStartsWithMatch q d || isIncludesMatch q d.
Proof.
  unfold isMatch, isStartsWithMatch, isIncludesMatch.
  pose proof (startsWith_includes (toLowerCase (name d)) q) as Hn.
  pose proof (startsWith_includes (toLowerCase (table d)) q) as Ht.
  destruct (startsWith (toLowerCase (name d)) q);
    destruct (startsWith (toLowerCase (table d)) q); simpl;
    rewrite ?Hn, ?Ht by reflexivity; simpl; rewrite ?orb_true_r; reflexivity.
Qed.

Lemma starts_not_includes (q : string) (d : table_def) :
  isStartsWithMatch q d = true -> isIncludesMatch q d = false.
Proof.
  unfold isStartsWithMatch, isIncludesMatch.
  destruct (startsWith (toLowerCase (name d)) q);
    destruct (startsWith (toLowerCase (table d)) q); simpl; congruence.
Qed.

Lemma filter_two_groups (q : string) (l : list table_def) :
  Permutation (List.filter (isStartsWithMatch q) l ++ List.filter (isIncludesMatch q) l)
              (List.filter (isMatch q) l).
Proof.
  induction l as [|d l IH]; simpl; [reflexivity|].
  rewrite match_split.
  destruct (isStartsWithMatch q d) eqn:Es.
  - rewrite (starts_not_includes q d Es). simpl. by constructor.
  - simpl. destruct (isIncludesMatch q d); [|assumption].
    rewrite <- Permutation_middle. by constructor.
Qed.

(** *** The ranking of the lookup *)

Lemma includes_not_starts (q : string) (d : table_def) :
  isIncludesMatch q d = true -> isStartsWithMatch q d = false.
Proof.
  intros H. destruct (isStartsWithMatch q d) eqn:E; [|done].
  by rewrite (starts_not_includes q d E) in H.
Qed.

(** A group in order of length is in order of rank. *)
Lemma group_ranked (q : string) (group : bool) (l : list table_def) :
  StronglySorted shorterId l ->
  Forall (fun d => isStartsWithMatch q d = group) l ->
  StronglySorted (rankedBefore q) l.
Proof.
  intros Hs. induction Hs as [|x l Hl IH Hx]; intros Hg; [constructor|].
  apply Forall_cons_1 in Hg as [Hgx Hgl].
  constructor; [by apply IH|].
  rewrite Forall_forall in *. intros y Hy. right. split.
  - by rewrite Hgx, (Hgl y Hy).
  - by apply Hx.
Qed.

(** The starts-with matches followed by the mere substring matches, each
    group in order of length, are in order of rank. *)
Lemma groups_ranked (q : string) (starts subs : list table_def) :
  StronglySorted shorterId starts ->
  StronglySorted shorterId subs ->
  Forall (fun d => isStartsWithMatch q d = true) starts ->
  Forall (fun d => isStartsWithMatch q d = false) subs ->
  StronglySorted (rankedBefore q) (starts ++ subs).
Proof.
  intros Hs Hb Hgs Hgb.
  induction Hs as [|x l Hl IH Hx]; simpl; [by apply (group_ranked q false)|].
  apply Forall_cons_1 in Hgs as [Hgx Hgl].
  constructor; [by apply IH|].
  apply Forall_app. split.
  - rewrite Forall_forall in *. intros y Hy. right. split.
    + by rewrite Hgx, (Hgl y Hy).
    + by apply Hx.
  - rewrite Forall_forall in *. intros y Hy. left. split; [done|by apply Hgb].
Qed.

(** C8. [findMatchingTables] compares lower-cased text, so two inputs
    that differ in case only give the same result; its result consists of
    starts-with matches followed by matches that are mere substring
    matches, each group in order of increasing length of the technical
    name; it holds at most ten entries, all of them cached tables.  For a
    non-empty input the result is the first ten of a ranking of all the
    cached tables whose display or technical name contains the input up to
    case, each as often as it is cached: every starts-with match is ranked
    before every mere substring match, and within a group a shorter
    technical name is never ranked after a longer one; so no match is
    left out unless ten matches ranked no later are returned.  For the
    empty input the result is empty.  For the tables Incident/incident and
    Incident Task/incident_task, in either order, the input [inc] gives
    incident before incident_task. *)
Theorem C8_lookup_ranks_and_caps (tables : list table_def) (input : string) :
  (forall input', toLowerCase input = toLowerCase input' ->
     findMatchingTables tables input = findMatchingTables tables input')
  /\ (exists starts subs,
        findMatchingTables tables input = starts ++ subs
        /\ Forall (fun d => isStartsWithMatch (toLowerCase input) d = true) starts
        /\ Forall (fun d => isIncludesMatch (toLowerCase input) d = true) subs
        /\ StronglySorted shorterId starts
        /\ StronglySorted shorterId subs)
  /\ length (findMatchingTables tables input) <= 10
  /\ (forall d, d ∈ findMatchingTables tables input -> d ∈ tables)
  /\ (truthy input = true ->
      exists ranking,
        Permutation ranking (List.filter (isMatch (toLowerCase input)) tables)
        /\ StronglySorted (rankedBefore (toLowerCase input)) ranking
        /\ findMatchingTables tables input = take 10 ranking)
  /\ (truthy input = false -> findMatchingTables tables input = [])
  /\ findMatchingTables [Samples.incident; Samples.incident_task] "inc"
     = [Samples.incident; Samples.incident_task]
  /\ findMatchingTables [Samples.incident_task; Samples.incident] "inc"
     = [Samples.incident; Samples.incident_task].
Proof.
  split; [|split; [|split; [|split; [|split; [|split; [|split]]]]]].
  - intros input' H. unfold findMatchingTables.
    by rewrite (toLowerCase_same_truthy _ _ H), H.
  - unfold findMatchingTables. destruct (negb (truthy input)).
    + exists [], []. repeat split; constructor.
    + rewrite take_app.
      eexists _, _. split; [reflexivity|].
      repeat split.
      * apply Forall_take, sort_Forall, filter_Forall.
      * apply Forall_take, sort_Forall, filter_Forall.
      * apply take_sorted, sort_sorted.
      * apply take_sorted, sort_sorted.
  - unfold findMatchingTables. destruct (negb (truthy input)); simpl; [lia|].
    rewrite length_take. lia.
  - intros d. unfold findMatchingTables. destruct (negb (truthy input)).
    + intros H. by apply elem_of_nil in H.
    + intros H. apply (subseteq_take 10) in H.
      apply elem_of_app in H as [H|H]; apply sort_elem in H;
        apply list_elem_of_In, filter_In in H; apply list_elem_of_In; tauto.
  - intros Hin. unfold findMatchingTables. rewrite Hin. cbn [negb].
    set (q := toLowerCase input).
    exists (sort sortByLength (List.filter (isStartsWithMatch q) tables)
            ++ sort sortByLength (List.filter (isIncludesMatch q) tables)).
    split; [|split; [|reflexivity]].
    + rewrite !sort_perm. apply filter_two_groups.
    + apply groups_ranked.
      * apply sort_sorted.
      * apply sort_sorted.
      * apply sort_Forall, filter_Forall.
      * apply sort_Forall. eapply Forall_impl; [apply filter_Forall|].
        intros d. apply includes_not_starts.
  - intros Hin. unfold findMatchingTables. by rewrite Hin.
  - vm_compute. reflexivity.
  - vm_compute. reflexivity.
Qed.

(** X7. For a non-empty input, the result of [findMatchingTables] holds
    as many entries as there are cached tables whose display name or
    technical name contains the input, ignoring case, up to ten; and when
    there are at most ten such tables the result is a rearrangement of
    exactly these: none is lost, none is added, none is repeated. *)
Theorem X7_lookup_is_complete_below_the_cap (tables : list table_def) (input : string) :
  truthy input = true ->
  length (findMatchingTables tables input)
    = min 10 (length (List.filter (isMatch (toLowerCase input)) tables))
  /\ (length (List.filter (isMatch (toLowerCase input)) tables) <= 10 ->
      Permutation (findMatchingTables tables input)
                  (List.filter (isMatch (toLowerCase input)) tables)).
Proof.
  intros Hin. unfold findMatchingTables. rewrite Hin. simpl negb. cbv iota.
  set (q := toLowerCase input).
  assert (Hperm : Permutation
            (sort sortByLength (List.filter (isStartsWithMatch q) tables)
             ++ sort sortByLength (List.filter (isIncludesMatch q) tables))
            (List.filter (isMatch q) tables)).
  { rewrite !sort_perm. apply filter_two_groups. }
  split.
  - rewrite length_take, (Permutation_length Hperm). lia.
  - intros Hle. rewrite take_ge; [assumption|].
    rewrite (Permutation_length Hperm). lia.
Qed.

Lemma X7_lookup_witness :
  truthy "task" = true
  /\ Permutation (findMatchingTables Samples.incidentTables "task")
                 [Samples.incident_task].
Proof.
  split; [reflexivity|].
  refine (proj2 (X7_lookup_is_complete_below_the_cap Samples.incidentTables "task" eq_refl) _).
  vm_compute. lia.
Defined.

Lemma find_ext {A} (f g : A -> bool) (l : list A) :
  (forall x, f x = g x) -> List.find f l = List.find g l.
Proof.
  intros H. induction l as [|x l IH]; simpl; [reflexivity|]. by rewrite H, IH.
Qed.

Lemma NoDup_map_eq {A B} (f : A -> B) (l : list A) (x y : A) :
  NoDup (map f l) -> x ∈ l -> y ∈ l -> f x = f y -> x = y.
Proof.
  induction l as [|z l IH]; simpl; intros Hnd Hx Hy Hf.
  - by apply elem_of_nil in Hx.
  - apply NoDup_cons in Hnd as [Hz Hnd].
    apply elem_of_cons in Hx as [->|Hx]; apply elem_of_cons in Hy as [->|Hy].
    + reflexivity.
    + exfalso. apply Hz. rewrite Hf. apply list_elem_of_fmap. eauto.
    + exfalso. apply Hz. rewrite <- Hf. apply list_elem_of_fmap. eauto.
    + by apply IH.
Qed.

(** X8. When no two cached tables have the same technical name up to
    case, a resolved name resolves to itself: resolving twice gives what
    resolving once gives. *)
Theorem X8_resolved_names_are_stable (tables : list table_def) (input : string) :
  NoDup (map (fun def => toLowerCase (table def)) tables) ->
  resolveTableName tables (resolveTableName tables input)
  = resolveTableName tables input.
Proof.
  intros Hnd. unfold resolveTableName at 2 3.
  destruct (List.find (fun def => (toLowerCase (table def) =? toLowerCase input)%string) tables)
    as [e|] eqn:E.
  - pose proof (find_some _ _ E) as [_ He]. apply String.eqb_eq in He.
    unfold resolveTableName.
    rewrite (find_ext _ (fun def => (toLowerCase (table def) =? toLowerCase input)%string));
      [by rewrite E|].
    intros d. by rewrite He.
  - destruct (List.find (fun def => (toLowerCase (name def) =? toLowerCase input)%string) tables)
      as [e|] eqn:E'.
    + pose proof (find_some _ _ E') as [Hin _]. apply list_elem_of_In in Hin.
      unfold resolveTableName.
      destruct (List.find (fun def => (toLowerCase (table def) =? toLowerCase (table e))%string)
                  tables) as [d|] eqn:Ed.
      * pose proof (find_some _ _ Ed) as [Hd Hde]. apply String.eqb_eq in Hde.
        apply list_elem_of_In in Hd.
        by rewrite (NoDup_map_eq _ tables d e Hnd Hd Hin Hde).
      * exfalso. apply list_elem_of_In in Hin.
        pose proof (find_none _ _ Ed e Hin) as H. simpl in H.
        by rewrite String.eqb_refl in H.
    + unfold resolveTableName. rewrite toLowerCase_idem, E, E'. reflexivity.
Qed.

Lemma X8_resolved_names_witness :
  NoDup (map (fun def => toLowerCase (table def)) Samples.incidentTables)
  /\ resolveTableName Samples.incidentTables
       (resolveTableName Samples.incidentTables "Incident Task")
     = resolveTableName Samples.incidentTables "Incident Task".
Proof.
  assert (H : NoDup (map (fun def => toLowerCase (table def)) Samples.incidentTables)).
  { vm_compute. repeat constructor; intros H;
      repeat (apply elem_of_cons in H as [H|H]; [discriminate|]);
      by apply elem_of_nil in H. }
  split; [exact H|]. exact (X8_resolved_names_are_stable _ "Incident Task" H).
Defined.

(** *** The cache of table definitions *)

(** [loadCacheFromStorage] touches the tables and their timestamp only. *)
Lemma load_frame (now : Z) (st : cache) :
  let st' := snd (loadCacheFromStorage now st) in
  isFetching st' = isFetching st /\ fetchPromise st' = fetchPromise st
  /\ running st' = running st /\ requests st' = requests st
  /\ promises st' = promises st /\ storage st' = storage st
  /\ storageAvailable st' = storageAvailable st /\ resolved st' = resolved st.
Proof.
  unfold loadCacheFromStorage.
  destruct (storageAvailable st) eqn:Ea; [|by rewrite ?Ea].
  destruct (storage st) as [[|tables ts]|] eqn:Es; simpl; rewrite ?Ea, ?Es; try done.
  destruct (now - ts <? CACHE_DURATION)%Z; simpl; rewrite ?Ea, ?Es; done.
Qed.

Lemma singleFlight_load (now : Z) (st : cache) :
  singleFlight st -> singleFlight (snd (loadCacheFromStorage now st)).
Proof.
  destruct (load_frame now st) as (H1 & H2 & H3 & _ & H5 & _).
  unfold singleFlight. by rewrite H1, H2, H3, H5.
Qed.

(** While a fetch is in flight, a call of [fetchTableDefinitions] starts
    nothing. *)
Lemma fetch_in_flight (c : bool) (now nowLoad : Z) (st : cache) (p : nat) (ph : phase) :
  singleFlight st -> running st = [(p, ph)] ->
  let '(a, st') := fetchTableDefinitions c now nowLoad st in
  running st' = running st /\ requests st' = requests st
  /\ promises st' = promises st /\ isFetching st' = isFetching st
  /\ fetchPromise st' = fetchPromise st
  /\ (a = Later p \/ exists tables, a = Now tables).
Proof.
  intros Hs Hr. unfold fetchTableDefinitions.
  destruct (_ && _); [repeat split; eauto|].
  pose proof (load_frame nowLoad st) as (H1 & H2 & H3 & H4 & H5 & _).
  destruct (loadCacheFromStorage nowLoad st) as [loaded st1]. simpl in *.
  destruct loaded; [repeat split; eauto|].
  unfold singleFlight in Hs. rewrite Hr in Hs. destruct Hs as (Hf & Hp & _).
  rewrite H1, H2, Hf, Hp. repeat split; eauto; congruence.
Qed.

Lemma singleFlight_fetch (c : bool) (now nowLoad : Z) (st : cache) :
  singleFlight st -> singleFlight (snd (fetchTableDefinitions c now nowLoad st)).
Proof.
  intros Hs. destruct (running st) as [|[p ph] rest] eqn:Hr.
  - unfold fetchTableDefinitions.
    destruct (_ && _); [assumption|].
    pose proof (load_frame nowLoad st) as (H1 & H2 & H3 & H4 & H5 & _).
    pose proof (singleFlight_load nowLoad st Hs) as Hs1.
    destruct (loadCacheFromStorage nowLoad st) as [loaded st1]. simpl in *.
    destruct loaded; [assumption|].
    assert (Hf : isFetching st1 = false).
    { unfold singleFlight in Hs. rewrite Hr in Hs. congruence. }
    rewrite Hf. destruct (fetchPromise st1); destruct c; unfold singleFlight; simpl;
      rewrite H3, Hr; simpl; auto.
  - destruct rest as [|b rest]; [|unfold singleFlight in Hs; rewrite Hr in Hs; by destruct b].
    pose proof (fetch_in_flight c now nowLoad st p ph Hs Hr) as H.
    destruct (fetchTableDefinitions c now nowLoad st) as [a st']. simpl.
    destruct H as (H1 & H2 & H3 & H4 & H5 & _).
    unfold singleFlight in *. by rewrite H1, H3, H4, H5.
Qed.

Lemma get_in_flight (c : bool) (n1 n2 n3 n4 : Z) (st : cache) (p : nat) (ph : phase) :
  singleFlight st -> running st = [(p, ph)] ->
  let st' := snd (getTableDefinitions c n1 n2 n3 n4 st) in
  running st' = running st /\ requests st' = requests st /\ promises st' = promises st.
Proof.
  intros Hs Hr. unfold getTableDefinitions. simpl.
  set (st1 := if Nat.eqb (length (cachedTables st)) 0
              then snd (loadCacheFromStorage n1 st) else st).
  assert (H1 : singleFlight st1 /\ running st1 = running st
               /\ requests st1 = requests st /\ promises st1 = promises st).
  { subst st1. destruct (Nat.eqb _ 0); [|by repeat split].
    pose proof (load_frame n1 st) as (_ & _ & H3 & H4 & H5 & _).
    split; [by apply singleFlight_load|]. by repeat split. }
  destruct H1 as (Hs1 & Hr1 & Hq1 & Hp1).
  destruct (CACHE_DURATION <=? n2 - cacheTimestamp st1)%Z; [|by repeat split].
  assert (Hr1' : running st1 = [(p, ph)]) by congruence.
  pose proof (fetch_in_flight c n3 n4 st1 p ph Hs1 Hr1') as H.
  destruct (fetchTableDefinitions c n3 n4 st1) as [a st2]. simpl.
  destruct H as (H2 & H3 & H4 & _). repeat split; congruence.
Qed.

Lemma singleFlight_get (c : bool) (n1 n2 n3 n4 : Z) (st : cache) :
  singleFlight st -> singleFlight (snd (getTableDefinitions c n1 n2 n3 n4 st)).
Proof.
  intros Hs. unfold getTableDefinitions. simpl.
  destruct (CACHE_DURATION <=? _)%Z.
  - apply singleFlight_fetch. destruct (Nat.eqb _ 0); [by apply singleFlight_load | assumption].
  - destruct (Nat.eqb _ 0); [by apply singleFlight_load | assumption].
Qed.

(** A suspended body is the one in flight. *)
Lemma suspended_running (p : nat) (atTables : bool) (st : cache) :
  singleFlight st -> suspended p atTables st = true ->
  exists ph, running st = [(p, ph)] /\ isAwaitingTables ph = atTables.
Proof.
  unfold singleFlight, suspended. intros Hs H.
  destruct (running st) as [|[q ph] [|b rest]]; simpl in H; try discriminate;
    [|by destruct Hs].
  rewrite orb_false_r in H. apply andb_prop in H as [Hq Hph].
  apply Nat.eqb_eq in Hq. apply Bool.eqb_prop in Hph. subst. eauto.
Qed.

Lemma singleFlight_finish (p : nat) (st : cache) (ph : phase) :
  running st = [(p, ph)] -> singleFlight (finish p st).
Proof. intros Hr. unfold singleFlight, finish. simpl. rewrite Hr. simpl. by rewrite Nat.eqb_refl. Qed.

Lemma singleFlight_step (e : cacheEvent) (st : cache) :
  singleFlight st -> singleFlight (cacheStep e st).
Proof.
  intros Hs. destruct e as [c now nowLoad|c n1 n2 n3 n4|p url|p result n1 n2]; simpl.
  - by apply singleFlight_fetch.
  - by apply singleFlight_get.
  - unfold instanceUrlArrives. destruct (suspended p false st) eqn:E; [|assumption].
    destruct (suspended_running p false st Hs E) as (ph & Hr & _).
    destruct (truthyOpt url); [|by apply (singleFlight_finish p st ph)].
    unfold singleFlight in *. simpl. rewrite Hr in *. simpl. by rewrite Nat.eqb_refl.
  - unfold tablesArrive. destruct (suspended p true st) eqn:E; [|assumption].
    destruct (suspended_running p true st Hs E) as (ph & Hr & _).
    destruct result as [[|t ts]|]; try by apply (singleFlight_finish p st ph).
    apply (singleFlight_finish p _ ph). unfold saveCacheToStorage. simpl.
    by destruct (storageAvailable st).
Qed.

Lemma singleFlight_run (es : list cacheEvent) (st : cache) :
  singleFlight st -> singleFlight (cacheRun es st).
Proof.
  revert st. induction es as [|e es IH]; intros st Hs; [assumption|].
  apply IH, singleFlight_step, Hs.
Qed.

(** X10. Whatever calls and completions have happened since the page
    loaded, at most one fetch of the table definitions is in flight.  While
    one is, a further call of [fetchTableDefinitions] or
    [getTableDefinitions] starts no second one: no body is added, no
    [api.tableGet] call is made, no promise is created, and
    [fetchTableDefinitions] answers with the promise of the fetch in flight
    or with tables it has at hand. *)
Theorem X10_one_fetch_in_flight
    (es : list cacheEvent) (stored : option item) (available : bool) :
  singleFlight (cacheRun es (emptyCache stored available))
  /\ length (running (cacheRun es (emptyCache stored available))) <= 1
  /\ (forall p ph,
        running (cacheRun es (emptyCache stored available)) = [(p, ph)] ->
        (forall c now nowLoad,
           let '(a, st') := fetchTableDefinitions c now nowLoad
                              (cacheRun es (emptyCache stored available)) in
           running st' = [(p, ph)]
           /\ requests st' = requests (cacheRun es (emptyCache stored available))
           /\ promises st' = promises (cacheRun es (emptyCache stored available))
           /\ (a = Later p \/ exists tables, a = Now tables))
        /\ (forall c n1 n2 n3 n4,
              let st' := snd (getTableDefinitions c n1 n2 n3 n4
                                (cacheRun es (emptyCache stored available))) in
              running st' = [(p, ph)]
              /\ requests st' = requests (cacheRun es (emptyCache stored available))
              /\ promises st' = promises (cacheRun es (emptyCache stored available)))).
Proof.
  assert (Hs : singleFlight (cacheRun es (emptyCache stored available))).
  { apply singleFlight_run. reflexivity. }
  set (st := cacheRun es (emptyCache stored available)) in *.
  split; [assumption|]. split.
  - unfold singleFlight in Hs.
    destruct (running st) as [|[p ph] [|b rest]]; simpl; lia || contradiction.
  - intros p ph Hr. split.
    + intros c now nowLoad. pose proof (fetch_in_flight c now nowLoad st p ph Hs Hr) as H.
      destruct (fetchTableDefinitions c now nowLoad st) as [a st'].
      destruct H as (H1 & H2 & H3 & _ & _ & H6). rewrite H1, H2, H3. by repeat split.
    + intros c n1 n2 n3 n4.
      destruct (get_in_flight c n1 n2 n3 n4 st p ph Hs Hr) as (H1 & H2 & H3).
      cbv zeta. rewrite H1, H2, H3. by repeat split.
Qed.

(** *** Freshness of the cache *)



(** *** The cache is never emptied *)

Lemma nonEmpty_step (e : cacheEvent) (st : cache) :
  storedNonEmpty st -> cachedTables st <> [] ->
  storedNonEmpty (cacheStep e st) /\ cachedTables (cacheStep e st) <> [].
Proof.
  intros Hsto Hne.
  assert (Hload : forall now s, storedNonEmpty s -> cachedTables s <> [] ->
            storedNonEmpty (snd (loadCacheFromStorage now s))
            /\ cachedTables (snd (loadCacheFromStorage now s)) <> []).
  { intros now s Hs Hc. unfold loadCacheFromStorage.
    destruct (storageAvailable s); [|by split].
    destruct (storage s) as [[|tables ts]|] eqn:Es; try by split.
    destruct (now - ts <? CACHE_DURATION)%Z; [|by split].
    split; [|simpl; by apply (Hs tables ts)].
    intros tb tm H. simpl in H. rewrite <- Es in H. exact (Hs tb tm H). }
  assert (Hfetch : forall c now nowLoad s, storedNonEmpty s -> cachedTables s <> [] ->
            storedNonEmpty (snd (fetchTableDefinitions c now nowLoad s))
            /\ cachedTables (snd (fetchTableDefinitions c now nowLoad s)) <> []).
  { intros c now nowLoad s Hs Hc. unfold fetchTableDefinitions.
    destruct (_ && _); [by split|].
    destruct (Hload nowLoad s Hs Hc) as [Hs1 Hc1].
    destruct (loadCacheFromStorage nowLoad s) as [loaded s1]. simpl in *.
    destruct loaded; [by split|].
    destruct (isFetching s1); destruct (fetchPromise s1); destruct c; by split. }
  assert (Hfin : forall p s, storedNonEmpty s -> cachedTables s <> [] ->
            storedNonEmpty (finish p s) /\ cachedTables (finish p s) <> []).
  { intros p s Hs Hc. by split. }
  destruct e as [c now nowLoad|c n1 n2 n3 n4|p url|p result n1 n2]; simpl.
  - by apply Hfetch.
  - unfold getTableDefinitions. simpl.
    assert (H1 : storedNonEmpty (if Nat.eqb (length (cachedTables st)) 0
                                 then snd (loadCacheFromStorage n1 st) else st)
                 /\ cachedTables (if Nat.eqb (length (cachedTables st)) 0
                                  then snd (loadCacheFromStorage n1 st) else st) <> []).
    { destruct (Nat.eqb _ 0); [by apply Hload | by split]. }
    destruct H1 as [H1 H2].
    destruct (CACHE_DURATION <=? _)%Z; [by apply Hfetch | by split].
  - unfold instanceUrlArrives. destruct (suspended p false st); [|by split].
    destruct (truthyOpt url); [by split | by apply Hfin].
  - unfold tablesArrive. destruct (suspended p true st); [|by split].
    destruct result as [[|t ts]|]; try by apply Hfin.
    apply Hfin.
    + unfold saveCacheToStorage, storedNonEmpty. simpl.
      destruct (storageAvailable st); simpl; [|exact Hsto].
      intros tables ts' [= <- _]. discriminate.
    + unfold saveCacheToStorage. simpl. by destruct (storageAvailable st).
Qed.

(** X11. A fetch that fails, or that brings no row, leaves the cached
    tables, their timestamp and the stored item as they were, and its
    promise is resolved with the tables the cache had.  More generally,
    provided the stored item (if any) holds at least one table, a cache
    that holds tables holds tables after any sequence of calls and
    completions: no refresh ever empties it. *)
Theorem X11_refresh_never_empties_the_cache (st : cache) (es : list cacheEvent) :
  storedNonEmpty st ->
  cachedTables st <> [] ->
  cachedTables (cacheRun es st) <> []
  /\ storedNonEmpty (cacheRun es st)
  /\ (forall p n1 n2 result,
        result = None \/ result = Some [] ->
        suspended p true st = true ->
        cachedTables (tablesArrive p result n1 n2 st) = cachedTables st
        /\ cacheTimestamp (tablesArrive p result n1 n2 st) = cacheTimestamp st
        /\ storage (tablesArrive p result n1 n2 st) = storage st
        /\ isFetching (tablesArrive p result n1 n2 st) = false
        /\ resolved (tablesArrive p result n1 n2 st)
           = resolved st ++ [(p, cachedTables st)]).
Proof.
  intros Hsto Hne. split; [|split].
  - revert st Hsto Hne. induction es as [|e es IH]; intros st Hsto Hne; [assumption|].
    simpl. destruct (nonEmpty_step e st Hsto Hne). by apply IH.
  - revert st Hsto Hne. induction es as [|e es IH]; intros st Hsto Hne; [assumption|].
    simpl. destruct (nonEmpty_step e st Hsto Hne). by apply IH.
  - intros p n1 n2 result Hres Hsus. unfold tablesArrive. rewrite Hsus.
    destruct Hres as [-> | ->]; by repeat split.
Qed.

Lemma X11_refresh_witness :
  storedNonEmpty (tablesArrive 0 (Some Samples.incidentRows) 5000 5001 Samples.awaitingCache)
  /\ cachedTables (cacheRun
       [CallGet true 0 (5000 + CACHE_DURATION) (5000 + CACHE_DURATION)
                (5001 + CACHE_DURATION);
        InstanceUrl 1 (Some "https://dev.example.com");
        TablesArrive 1 None 0 0]
       (tablesArrive 0 (Some Samples.incidentRows) 5000 5001 Samples.awaitingCache))
     <> [].
Proof.
  assert (Hs : storedNonEmpty
                 (tablesArrive 0 (Some Samples.incidentRows) 5000 5001 Samples.awaitingCache)).
  { intros tables ts. vm_compute. intros [= <- _]. discriminate. }
  split; [exact Hs|].
  apply (X11_refresh_never_empties_the_cache _ _ Hs). vm_compute. discriminate.
Defined.

(** *** The request on its way to the bridge *)

Lemma request_plain (ty id : string) (data : list (string * string)) :
  property "type" data = None ->
  property "messageId" data = None ->
  request ty id data = {| type := Some ty; messageId := Some id; fields := data |}.
Proof. unfold request. by intros -> ->. Qed.

Lemma post_timer_sent (ty : string) (data : list (string * string)) (now : N) (st : state) :
  let '(p, id, t, sent) := _sendMessage ty data now st in
  timers sent !! Pos.succ t = Some (PostTask (request ty id data)).
Proof. simpl. apply lookup_insert_eq. Qed.

(** X12. A request sent by any of the client's methods, with data that
    has no [type] or [messageId] of its own, is posted when its delay timer
    fires, carrying the method's type and the generated id; the bridge's
    listener routes it to the handler of that method; and the client, which
    hears its own message too, ignores it: the state is unchanged and the
    request still pending. *)
Theorem X12_request_reaches_bridge_not_client
    (es : list event) (m : apiMethod) (data : list (string * string)) (now : N) :
  property "type" data = None ->
  property "messageId" data = None ->
  let '(p, id, t, sent) := _sendMessage (requestType m) data now (run es initial) in
  let posted := fireTimer (Pos.succ t) sent in
  let echo := {| type := Some (requestType m); messageId := Some id; fields := data |} in
  log posted = log sent ++ [PostMessage echo]
  /\ ApiBridge.route echo = Some (ApiBridge.handlerFor m)
  /\ _handleMessage echo posted = posted
  /\ pendingAt id (requestType m) p t posted.
Proof.
  intros Hty Hid.
  pose proof (wf_reachable es) as Hwf.
  pose proof (pending_sent (requestType m) data now (run es initial) Hwf) as Hsent.
  pose proof (wf_sendMessage (requestType m) data now (run es initial) Hwf) as Hwf1.
  pose proof (post_timer_sent (requestType m) data now (run es initial)) as Hpost.
  assert (Hid' : truthy (snd (fst (fst (_sendMessage (requestType m) data now
                                          (run es initial))))) = true) by reflexivity.
  destruct (_sendMessage (requestType m) data now (run es initial)) as [[[p id] t] sent].
  simpl in Hwf1, Hid'. destruct Hsent as (Hpend & _ & _).
  rewrite (request_plain _ _ _ Hty Hid) in Hpost. cbv zeta.
  assert (Hlog : log (fireTimer (Pos.succ t) sent)
                 = log sent ++ [PostMessage {| type := Some (requestType m);
                                               messageId := Some id; fields := data |}]).
  { unfold fireTimer. by rewrite Hpost. }
  split; [exact Hlog|]. split; [|split].
  - unfold ApiBridge.route. simpl. rewrite Hid'. by destruct m.
  - unfold _handleMessage. simpl. rewrite Hid'. simpl.
    destruct (messageHandlers _ !! id); [|reflexivity].
    by destruct m.
  - destruct (pending_step (Fire (Pos.succ t)) sent id (requestType m) p t Hwf1 Hpend)
      as [H | [s Hs]]; [exact H|].
    exfalso. destruct Hs as (_ & _ & Hdel & _). simpl in Hdel.
    rewrite Hlog, deletions_app in Hdel. simpl in Hdel.
    destruct Hpend as (_ & _ & Hzero & _). lia.
Qed.

Lemma X12_request_witness :
  property "type" [("username", "admin")] = None
  /\ property "messageId" [("username", "admin")] = None
  /\ ApiBridge.route {| type := Some "snEzImpersonateRequest";
                        messageId := Some "glass_1700000000000_1";
                        fields := [("username", "admin")] |}
     = Some ApiBridge.ImpersonateRequest.
Proof.
  split; [reflexivity|]. split; [reflexivity|].
  exact (proj1 (proj2 (X12_request_reaches_bridge_not_client
                         [] Impersonate [("username", "admin")] 1700000000000
                         eq_refl eq_refl))).
Defined.

(** *** The two clients do not hear each other *)

Lemma pretty_N_go_length (x : N) (s : string) :
  String.length s <= String.length (pretty_N_go x s).
Proof.
  revert s. induction (N.lt_wf_0 x) as [x _ IH]; intros s.
  destruct (decide (x = 0)%N) as [->|Hx].
  - by rewrite pretty_N_go_0.
  - rewrite pretty_N_go_step by lia.
    etransitivity; [|apply IH; apply N.div_lt; lia]. simpl. lia.
Qed.

Lemma pretty_N_first_digit (x : N) :
  exists c r, pretty x = String c r /\ isDigit c = true.
Proof.
  pose proof (pretty_N_digits x) as Hd.
  assert (Hlen : 1 <= String.length (pretty x)).
  { unfold pretty, pretty_N. case_decide; [simpl; lia|].
    rewrite pretty_N_go_step by lia.
    etransitivity; [|apply pretty_N_go_length]. simpl. lia. }
  destruct (pretty x) as [|c r]; [simpl in Hlen; lia|].
  simpl in Hd. apply andb_prop in Hd as [Hc _]. eauto.
Qed.

Lemma runner_id_not_generated (st : state) (now counter : N) :
  ~ generated st (BackgroundScript.generateMessageId now counter).
Proof.
  intros (now' & c & Heq & _). unfold BackgroundScript.generateMessageId, messageIdOf in Heq.
  apply (f_equal (substringFrom 6)) in Heq. simpl in Heq.
  destruct (pretty_N_first_digit now') as (d & r & E & Hd).
  rewrite E in Heq. simpl in Heq. injection Heq as Hc _. subst d. discriminate.
Qed.

(** X13. The ids of the background-script runner are never ids of the
    API client: in every state the API client reaches, a message that
    carries an id generated by the runner, whatever its type and content,
    leaves the pending table, the timers and the log of the API client as
    they are. *)
Theorem X13_runner_messages_leave_api_client_alone
    (es : list event) (m : message) (now counter : N) :
  messageId m = Some (BackgroundScript.generateMessageId now counter) ->
  messageHandlers (run es initial) !! BackgroundScript.generateMessageId now counter = None
  /\ _handleMessage m (run es initial) = run es initial.
Proof.
  intros Hm.
  assert (Hnone : messageHandlers (run es initial)
                    !! BackgroundScript.generateMessageId now counter = None).
  { destruct (messageHandlers _ !! _) eqn:E; [|reflexivity].
    exfalso. apply (runner_id_not_generated (run es initial) now counter).
    apply (wf_generated _ (wf_reachable es)). left. eauto. }
  split; [exact Hnone|]. by apply (handleMessage_no_entry m _ _ Hm).
Qed.

Lemma X13_runner_messages_witness :
  _handleMessage
    {| type := Some "glassBackgroundScriptResponse";
       messageId := Some (BackgroundScript.generateMessageId 1700000000000 1);
       fields := [("html", "done")] |}
    (run Samples.twoRequests initial)
  = run Samples.twoRequests initial.
Proof.
  exact (proj2 (X13_runner_messages_leave_api_client_alone Samples.twoRequests
                  {| type := Some "glassBackgroundScriptResponse";
                     messageId := Some (BackgroundScript.generateMessageId 1700000000000 1);
                     fields := [("html", "done")] |}
                  1700000000000 1 eq_refl)).
Defined.

(** *** No request waits for ever *)




(** *** Occurrences of a text in a text *)

Lemma append_cons (x : ascii) (a b : string) :
  String x a +:+ b = String x (a +:+ b).
Proof. reflexivity. Qed.

Lemma append_assoc (a b c : string) : (a +:+ b) +:+ c = a +:+ (b +:+ c).
Proof.
  induction a as [|x a IH]; [reflexivity|]. rewrite !append_cons. by rewrite IH.
Qed.

Lemma length_append (a b : string) :
  String.length (a +:+ b) = String.length a + String.length b.
Proof.
  induction a as [|x a IH]; [reflexivity|]. rewrite append_cons. simpl. by rewrite IH.
Qed.

Lemma startsWith_app (p r : string) : startsWith (p +:+ r) p = true.
Proof.
  induction p as [|c p IH]; [reflexivity|].
  rewrite append_cons. simpl. by rewrite Ascii.eqb_refl.
Qed.

Lemma startsWith_split (s p : string) :
  startsWith s p = true -> s = p +:+ substringFrom (String.length p) s.
Proof.
  revert s. induction p as [|c p IH]; intros s H; simpl in *; [reflexivity|].
  destruct s as [|d s]; [discriminate|].
  destruct (Ascii.eqb_spec c d) as [->|]; [|discriminate].
  rewrite append_cons. simpl. f_equal. by apply IH.
Qed.

Lemma startsWith_length (s p : string) :
  startsWith s p = true -> String.length p <= String.length s.
Proof.
  intros H. pose proof (f_equal String.length (startsWith_split s p H)) as E.
  rewrite length_append in E. lia.
Qed.

Lemma startsWith_extend (a b p : string) :
  startsWith a p = true -> startsWith (a +:+ b) p = true.
Proof.
  intros H. rewrite (startsWith_split a p H), append_assoc. apply startsWith_app.
Qed.

Lemma startsWith_short (a b p : string) :
  startsWith a p = false -> String.length p <= String.length a ->
  startsWith (a +:+ b) p = false.
Proof.
  revert a. induction p as [|c p IH]; intros a H Hlen; simpl in *; [discriminate|].
  destruct a as [|d a]; [simpl in Hlen; lia|]. rewrite append_cons. simpl in *.
  destruct (Ascii.eqb c d); [apply IH; [assumption | lia] | reflexivity].
Qed.

Lemma indexOf_unfold (s p : string) :
  indexOf s p = if startsWith s p then Some 0
                else match s with
                     | EmptyString => None
                     | String _ r => S <$> indexOf r p
                     end.
Proof. by destruct s. Qed.

Lemma indexOf_bound (s p : string) (k : nat) :
  indexOf s p = Some k -> k + String.length p <= String.length s.
Proof.
  revert k. induction s as [|c s IH]; intros k; rewrite indexOf_unfold.
  - destruct (startsWith "" p) eqn:E; [|discriminate].
    intros [= <-]. by apply startsWith_length in E.
  - destruct (startsWith (String c s) p) eqn:E.
    + intros [= <-]. by apply startsWith_length in E.
    + destruct (indexOf s p) as [k'|]; [|discriminate].
      intros [= <-]. specialize (IH k' eq_refl). simpl. lia.
Qed.

Lemma indexOf_app_found (a b p : string) (k : nat) :
  indexOf a p = Some k -> indexOf (a +:+ b) p = Some k.
Proof.
  revert k. induction a as [|c a IH]; intros k; rewrite indexOf_unfold.
  - destruct (startsWith "" p) eqn:E; [|discriminate].
    intros [= <-]. rewrite indexOf_unfold. by rewrite (startsWith_extend "" b p E).
  - destruct (startsWith (String c a) p) eqn:E.
    + intros [= <-]. rewrite indexOf_unfold. by rewrite (startsWith_extend _ b p E).
    + destruct (indexOf a p) as [k'|] eqn:Ek; [|discriminate].
      intros [= <-]. rewrite indexOf_unfold.
      rewrite (startsWith_short _ b p E).
      * rewrite append_cons. by rewrite (IH k' eq_refl).
      * apply indexOf_bound in Ek. simpl. lia.
Qed.

Lemma indexOf_split (s p : string) (i : nat) :
  indexOf s p = Some i ->
  s = substringTo i s +:+ p +:+ substringFrom (i + String.length p) s.
Proof.
  revert i. induction s as [|c s IH]; intros i; rewrite indexOf_unfold.
  - destruct (startsWith "" p) eqn:E; [|discriminate].
    intros [= <-]. by apply startsWith_split.
  - destruct (startsWith (String c s) p) eqn:E.
    + intros [= <-]. by apply startsWith_split.
    + destruct (indexOf s p) as [k'|] eqn:Ek; [|discriminate].
      intros [= <-]. simpl. rewrite append_cons. f_equal. by apply IH.
Qed.

Lemma substringTo_length (n : nat) (s : string) : String.length (substringTo n s) <= n.
Proof.
  revert s. induction n as [|n IH]; intros [|c s]; simpl; try lia.
  specialize (IH s). lia.
Qed.

Lemma substringTo_length_exact (s : string) (p : string) (i : nat) :
  indexOf s p = Some i -> String.length (substringTo i s) = i.
Proof.
  revert i. induction s as [|c s IH]; intros i; rewrite indexOf_unfold.
  - destruct (startsWith "" p); [|discriminate]. by intros [= <-].
  - destruct (startsWith (String c s) p).
    + by intros [= <-].
    + destruct (indexOf s p) as [k'|] eqn:Ek; [|discriminate].
      intros [= <-]. simpl. f_equal. by apply IH.
Qed.

Lemma substringTo_app (a b : string) : substringTo (String.length a) (a +:+ b) = a.
Proof.
  induction a as [|c a IH]; [by destruct b|].
  rewrite append_cons. simpl. by rewrite IH.
Qed.

Lemma split_at (n : nat) (s : string) : s = substringTo n s +:+ substringFrom n s.
Proof.
  revert s. induction n as [|n IH]; intros [|c s]; simpl; try reflexivity.
  rewrite append_cons. f_equal. apply IH.
Qed.

(** *** Extraction between markers *)

(** X15. What [executeAndExtract] returns lies between the markers in
    the response: the response is some text in which the start marker first
    occurs at its end, then the result, then the end marker, then the rest;
    and the result ends at the first end marker after the start marker, so
    that (the end marker not being empty) the result does not contain the
    end marker. *)
Theorem X15_extract_is_delimited (startMarker endMarker html group : string) :
  executeAndExtract startMarker endMarker html = Some group ->
  exists before after,
    html = before +:+ startMarker +:+ group +:+ endMarker +:+ after
    /\ indexOf html startMarker = Some (String.length before)
    /\ indexOf (group +:+ endMarker +:+ after) endMarker = Some (String.length group)
    /\ (endMarker <> "" -> includes group endMarker = false).
Proof.
  unfold executeAndExtract, matchBetween.
  destruct (indexOf html startMarker) as [i|] eqn:Ei; [|discriminate].
  set (rest := substringFrom (i + String.length startMarker) html).
  destruct (indexOf rest endMarker) as [j|] eqn:Ej; [|discriminate].
  intros [= <-].
  pose proof (indexOf_split html startMarker i Ei) as Hs. fold rest in Hs.
  pose proof (indexOf_split rest endMarker j Ej) as He.
  pose proof (substringTo_length_exact _ _ _ Ei) as Li.
  pose proof (substringTo_length_exact _ _ _ Ej) as Lj.
  exists (substringTo i html), (substringFrom (j + String.length endMarker) rest).
  split; [by rewrite <- He|]. split; [by rewrite Li|]. split.
  - rewrite <- He, Lj. exact Ej.
  - intros Hne. unfold includes. apply bool_decide_eq_false. intros [k Hk].
    pose proof (indexOf_bound _ _ _ Hk) as Hb.
    pose proof (indexOf_app_found _ (substringFrom j rest) _ _ Hk) as Hk'.
    rewrite <- (split_at j rest), Ej in Hk'. injection Hk' as ->.
    rewrite Lj in Hb. destruct endMarker; [contradiction | simpl in Hb; lia].
Qed.

Lemma X15_extract_witness :
  executeAndExtract "###" "###" "<PRE>*** Script: ###42###</PRE>" = Some "42"
  /\ exists before after,
       "<PRE>*** Script: ###42###</PRE>" = before +:+ "###" +:+ "42" +:+ "###" +:+ after.
Proof.
  split; [reflexivity|].
  destruct (X15_extract_is_delimited "###" "###" "<PRE>*** Script: ###42###</PRE>" "42"
              eq_refl) as (before & after & H & _).
  by exists before, after.
Defined.

(** X16. Extraction undoes wrapping: when the start marker does not
    occur in the text before it, or overlapping it, earlier than where it
    was put, and the same holds of the end marker and the payload, then
    [executeAndExtract] returns the payload, whatever follows the end
    marker. *)
Theorem X16_extract_undoes_wrapping
    (startMarker endMarker before payload after : string) :
  indexOf (before +:+ startMarker) startMarker = Some (String.length before) ->
  indexOf (payload +:+ endMarker) endMarker = Some (String.length payload) ->
  executeAndExtract startMarker endMarker
    (before +:+ startMarker +:+ payload +:+ endMarker +:+ after)
  = Some payload.
Proof.
  intros Hs He. unfold executeAndExtract, matchBetween.
  rewrite <- (append_assoc before startMarker).
  rewrite (indexOf_app_found _ _ _ _ Hs).
  rewrite <- (length_append before startMarker), <- (Nat.add_0_r (String.length (_ +:+ _))).
  rewrite substringFrom_app. simpl substringFrom.
  rewrite <- (append_assoc payload endMarker).
  rewrite (indexOf_app_found _ _ _ _ He).
  rewrite append_assoc. by rewrite substringTo_app.
Qed.

Lemma X16_extract_witness :
  indexOf ("<PRE>" +:+ "###") "###" = Some 5
  /\ indexOf ("{}" +:+ "###") "###" = Some 2
  /\ executeAndExtract "###" "###" ("<PRE>" +:+ "###" +:+ "{}" +:+ "###" +:+ "</PRE>")
     = Some "{}".
Proof.
  split; [reflexivity|]. split; [reflexivity|].
  exact (X16_extract_undoes_wrapping "###" "###" "<PRE>" "{}" "</PRE>" eq_refl eq_refl).
Defined.

(** *** Lines of script output *)

Lemma splitChar_cons (sep : ascii) (s : string) :
  exists piece rest, splitChar sep s = piece :: rest.
Proof.
  induction s as [|c s IH]; simpl; [eauto|].
  destruct (Ascii.eqb c sep); [eauto|]. destruct IH as (p & rest & ->). eauto.
Qed.

Lemma splitChar_app (sep : ascii) (a b : string) :
  splitChar sep (a +:+ String sep b) = splitChar sep a ++ splitChar sep b.
Proof.
  induction a as [|c a IH].
  - simpl. by rewrite Ascii.eqb_refl.
  - rewrite append_cons. simpl. destruct (Ascii.eqb c sep); [by rewrite IH|].
    rewrite IH. by destruct (splitChar_cons sep a) as (p & rest & ->).
Qed.

(** X17. The records of a text are the records of its lines, in order:
    for two texts put together with a line feed between them,
    [parseScriptLines] gives the records of the first followed by the
    records of the second.  Whether a line yields a record never depends on
    the lines around it. *)
Theorem X17_records_line_by_line
    (JSON_parse : string -> option json) (a b : string) :
  parseScriptLines JSON_parse (a +:+ String LF b)
  = parseScriptLines JSON_parse a ++ parseScriptLines JSON_parse b.
Proof.
  unfold parseScriptLines.
  by rewrite splitChar_app, List.filter_app, List.map_app, List.concat_app.
Qed.

Lemma trimStart_ink (c : ascii) (s : string) :
  isWhiteSpace c = false -> trimStart (String c s) = String c s.
Proof. intros W. simpl. by rewrite W. Qed.

Lemma trim_fixed_ink (x : string) : trim x = x -> x <> "" -> endsInInk x = true.
Proof.
  intros Ht Hne. unfold trim in Ht.
  destruct (trimEnd_ink (trimStart x)) as [H|H]; rewrite Ht in H; [contradiction | assumption].
Qed.

(** X18. The diagnostic prefix is transparent: a line made of
    [*** Script: ] and a text yields the records that the text alone
    yields, for every text that is trimmed, not empty and does not itself
    begin with the prefix. *)
Theorem X18_script_prefix_is_transparent
    (JSON_parse : string -> option json) (text : string) :
  trim text = text ->
  text <> "" ->
  startsWith text scriptPrefix = false ->
  parseLine JSON_parse (scriptPrefix +:+ text) = parseLine JSON_parse text.
Proof.
  intros Ht Hne Hp.
  assert (Hink : endsInInk text = true) by (by apply trim_fixed_ink).
  assert (Htrim : trim (scriptPrefix +:+ text) = scriptPrefix +:+ text).
  { unfold trim. change (scriptPrefix +:+ text) with (String "*" ("** Script: " +:+ text)).
    rewrite trimStart_ink by reflexivity.
    apply endsInInk_trimEnd.
    change (String "*" ("** Script: " +:+ text)) with (scriptPrefix +:+ text).
    by apply endsInInk_app. }
  unfold parseLine. rewrite Htrim, Ht, Hp, startsWith_app.
  change (String.length scriptPrefix) with (String.length scriptPrefix + 0).
  by rewrite substringFrom_app.
Qed.

Lemma X18_script_prefix_witness :
  trim "notjson" = "notjson"
  /\ parseLine Json.parse (scriptPrefix +:+ "notjson") = [JString "notjson"].
Proof.
  split; [reflexivity|].
  rewrite (X18_script_prefix_is_transparent Json.parse "notjson" eq_refl);
    [reflexivity | discriminate | reflexivity].
Defined.

(** *** The session token *)

Lemma quoted_sound (s tok : string) :
  quoted s = Some tok -> quoteFree tok = true.
Proof.
  revert tok. induction s as [|c s IH]; intros tok; simpl; [discriminate|].
  destruct (isQuote c) eqn:Q; [by intros [= <-]|].
  destruct (quoted s) as [r|]; [|discriminate].
  intros [= <-]. simpl. rewrite Q. by apply IH.
Qed.

Lemma tokenAt_sound (s tok : string) :
  tokenAt s = Some tok -> tok <> "" /\ quoteFree tok = true.
Proof.
  unfold tokenAt. destruct (startsWith s "g_ck"); [|discriminate].
  destruct (afterSpaces "=" _) as [r|]; [|discriminate].
  destruct (afterSpacesQuote r) as [body|]; [|discriminate].
  destruct (quoted body) as [[|c t]|] eqn:E; try discriminate.
  intros [= <-]. split; [discriminate | by apply (quoted_sound body)].
Qed.

Lemma matchToken_sound (content tok : string) :
  matchToken content = Some tok -> tok <> "" /\ quoteFree tok = true.
Proof.
  induction content as [|c s IH]; simpl.
  - discriminate.
  - destruct (tokenAt (String c s)) eqn:E.
    + intros [= <-]. by apply (tokenAt_sound _ _ E).
    + exact IH.
Qed.

Lemma tokenInScripts_sound (l : list string) (tok : string) :
  tokenInScripts l = Some tok -> tok <> "" /\ quoteFree tok = true.
Proof.
  induction l as [|content l IH]; simpl; [discriminate|].
  destruct (matchToken content) eqn:E; [|exact IH].
  intros [= <-]. by apply (matchToken_sound content).
Qed.

Lemma white_not_quote (c : ascii) : isWhiteSpace c = true -> isQuote c = false.
Proof. destruct c as [[] [] [] [] [] [] [] []]; vm_compute; congruence. Qed.

Lemma white_not_equals (c : ascii) : isWhiteSpace c = true -> Ascii.eqb c "=" = false.
Proof. destruct c as [[] [] [] [] [] [] [] []]; vm_compute; congruence. Qed.

Lemma afterSpaces_blank (ws r : string) :
  isBlank ws = true -> afterSpaces "=" (ws +:+ "=" +:+ r) = Some r.
Proof.
  induction ws as [|c ws IH]; intros H; [reflexivity|].
  simpl in H. apply andb_prop in H as [W H].
  rewrite append_cons. simpl. by rewrite (white_not_equals c W), W, IH.
Qed.

Lemma afterSpacesQuote_blank (ws r : string) (q : ascii) :
  isBlank ws = true -> isQuote q = true ->
  afterSpacesQuote (ws +:+ String q r) = Some r.
Proof.
  intros H Q. induction ws as [|c ws IH]; [simpl; by rewrite Q|].
  simpl in H. apply andb_prop in H as [W H].
  rewrite append_cons. simpl. by rewrite (white_not_quote c W), W, IH.
Qed.

Lemma quoted_complete (tok r : string) (q : ascii) :
  quoteFree tok = true -> isQuote q = true -> quoted (tok +:+ String q r) = Some tok.
Proof.
  intros H Q. induction tok as [|c tok IH]; [simpl; by rewrite Q|].
  simpl in H. apply andb_prop in H as [Hc H]. apply negb_true_iff in Hc.
  rewrite append_cons. simpl. by rewrite Hc, IH.
Qed.

(** X19. A token that [getSessionToken] takes from the text of a script
    element is never empty and contains no quote.  It finds the token in an
    assignment [g_ck = '...'] at the start of a script whatever white space
    surrounds the equals sign and whichever of the two quote characters
    opens and closes the value, the same or not; with no [g_ck] global on
    the page this is the token it returns. *)
Theorem X19_token_in_script_text
    (pg : page) (ws1 ws2 tok rest : string) (q1 q2 : ascii) (others : list string) :
  isBlank ws1 = true -> isBlank ws2 = true ->
  isQuote q1 = true -> isQuote q2 = true ->
  tok <> "" -> quoteFree tok = true ->
  truthyOpt (g_ck pg) = false ->
  scripts pg = ("g_ck" +:+ ws1 +:+ "=" +:+ ws2 +:+ String q1 (tok +:+ String q2 rest)) :: others ->
  getSessionToken pg = Some tok
  /\ (forall content found, matchToken content = Some found ->
        found <> "" /\ quoteFree found = true).
Proof.
  intros H1 H2 Q1 Q2 Hne Hq Hg Hs. split; [|apply matchToken_sound].
  unfold getSessionToken. rewrite Hg, Hs. cbn [tokenInScripts].
  assert (Hat : tokenAt ("g_ck" +:+ ws1 +:+ "=" +:+ ws2 +:+ String q1 (tok +:+ String q2 rest))
                = Some tok).
  { unfold tokenAt. rewrite startsWith_app.
    change 4 with (String.length "g_ck" + 0). rewrite substringFrom_app. simpl substringFrom.
    rewrite (afterSpaces_blank ws1 _ H1), (afterSpacesQuote_blank ws2 _ q1 H2 Q1).
    rewrite (quoted_complete tok rest q2 Hq Q2). by destruct tok. }
  assert (Hm : forall s, tokenAt s = Some tok -> matchToken s = Some tok).
  { intros s E. destruct s; [vm_compute in E; discriminate | simpl; by rewrite E]. }
  by rewrite (Hm _ Hat).
Qed.

Lemma X19_token_witness :
  getSessionToken
    {| g_ck := None;
       scripts := ["g_ck" +:+ "  " +:+ "=" +:+ " " +:+ String "'" ("f00d" +:+ String "034" ";")];
       cookie := ""; origin := "https://dev.example.com" |}
  = Some "f00d".
Proof.
  refine (proj1 (X19_token_in_script_text
            {| g_ck := None;
               scripts := ["g_ck" +:+ "  " +:+ "=" +:+ " "
                           +:+ String "'" ("f00d" +:+ String "034" ";")];
               cookie := ""; origin := "https://dev.example.com" |}
            "  " " " "f00d" ";" "'" "034" [] eq_refl eq_refl eq_refl eq_refl _ eq_refl eq_refl eq_refl)).
  discriminate.
Defined.

(** *** Script execution with a session token *)

(** X20. The handler of a script-execution request does exactly one
    thing: it starts a [fetch] when a session token can be found, and
    posts the error response when none can.  The [fetch] goes to
    [/sys.scripts.do] on the page's origin and carries the script and, as
    [sysparm_ck], the token found: the [g_ck] global when the page has one,
    otherwise what [getSessionToken] returns; a scope is sent only when the
    request names one. *)
Theorem X20_script_request_uses_the_token (pg : page) (data : message) :
  let token := orElse (g_ck pg) (getSessionToken pg) in
  length (handleBackgroundScriptRequest pg data) = 1
  /\ existsb isFetch (handleBackgroundScriptRequest pg data) = truthyOpt token
  /\ (truthyOpt (g_ck pg) = true -> token = g_ck pg)
  /\ (truthyOpt (g_ck pg) = false -> token = getSessionToken pg)
  /\ (forall tk, token = Some tk -> truthy tk = true ->
        exists scope,
          handleBackgroundScriptRequest pg data
          = [Fetch (origin pg +:+ "/sys.scripts.do") "POST"
               ([("script", default "undefined" (property "script" (fields data)));
                 ("runscript", "Run script");
                 ("sysparm_ck", tk);
                 ("quota_managed_transaction", "on")] ++ scope)]
          /\ (scope = [] \/ exists s, scope = [("sys_scope", s)]
                                      /\ property "scope" (fields data) = Some s
                                      /\ truthy s = true)).
Proof.
  intros token. unfold handleBackgroundScriptRequest. fold token.
  assert (Hor : forall o, truthy (default EmptyString (orElse o (Some EmptyString)))
                          = truthyOpt o).
  { intros [s|]; [|reflexivity]. unfold orElse. simpl. by destruct (truthy s) eqn:E. }
  split; [by destruct (negb _)|]. split.
  - rewrite Hor. by destruct (truthyOpt token).
  - split; [intros H; subst token; unfold orElse; by rewrite H|].
    split; [intros H; subst token; unfold orElse; by rewrite H|].
    intros tk Htk Htr. rewrite Hor, Htk. simpl truthyOpt. rewrite Htr. simpl negb. cbv iota.
    unfold orElse at 1. simpl truthyOpt. rewrite Htr. simpl default.
    eexists. split; [reflexivity|].
    destruct (property "scope" (fields data)) as [s|] eqn:Es; [|by left].
    unfold orElse. simpl. destruct (truthy s) eqn:E; simpl; rewrite ?E; [|by left].
    right. by exists s.
Qed.

(** *** Line-break tags *)

Lemma lt_not_white : isWhiteSpace "<" = false.
Proof. reflexivity. Qed.

(** A tag in the making is not completed by a following [<]. *)
Lemma tagTail_before_lt (r x : string) :
  tagTail (r +:+ String "<" x) = tagTail r.
Proof.
  induction r as [|c r IH]; [reflexivity|].
  rewrite append_cons. simpl. rewrite IH.
  destruct (isWhiteSpace c); [reflexivity|].
  destruct (Ascii.eqb c ">"); [reflexivity|].
  destruct (Ascii.eqb c "/"); [|reflexivity].
  by destruct r as [|d r'].
Qed.

Lemma tagTail_extend (r b : string) (n : nat) :
  tagTail r = Some n -> tagTail (r +:+ b) = Some n.
Proof.
  revert n. induction r as [|c r IH]; intros n; [discriminate|].
  rewrite append_cons. simpl.
  destruct (isWhiteSpace c).
  - destruct (tagTail r) as [k|]; [|discriminate]. intros [= <-]. by rewrite (IH k).
  - destruct (Ascii.eqb c ">"); [done|].
    destruct (Ascii.eqb c "/"); [|done].
    by destruct r as [|d r'].
Qed.

Lemma tagTail_bound (r : string) (n : nat) :
  tagTail r = Some n -> 1 <= n <= String.length r.
Proof.
  revert n. induction r as [|c r IH]; intros n; [discriminate|]. simpl.
  destruct (isWhiteSpace c).
  - destruct (tagTail r) as [k|]; [|discriminate]. intros [= <-].
    specialize (IH k eq_refl). lia.
  - destruct (Ascii.eqb c ">"); [intros [= <-]; lia|].
    destruct (Ascii.eqb c "/"); [|discriminate].
    destruct r as [|d r']; [discriminate|].
    destruct d as [[] [] [] [] [] [] [] []]; try discriminate.
    intros [= <-]. simpl. lia.
Qed.

Lemma matchBR_before_lt (c : ascii) (s x : string) :
  matchBR (String c s +:+ String "<" x) = matchBR (String c s).
Proof.
  rewrite append_cons.
  destruct s as [|b [|r' rest]].
  - simpl. destruct c as [[] [] [] [] [] [] [] []]; try reflexivity. by destruct x.
  - rewrite append_cons.
    destruct c as [[] [] [] [] [] [] [] []]; try reflexivity.
    simpl. by rewrite andb_false_r.
  - rewrite !append_cons.
    destruct c as [[] [] [] [] [] [] [] []]; try reflexivity.
    simpl. by rewrite tagTail_before_lt.
Qed.

Lemma matchBR_extend (t b : string) (n : nat) :
  matchBR t = Some n -> matchBR (t +:+ b) = Some n.
Proof.
  destruct t as [|c [|d [|r' rest]]]; try discriminate;
    try (destruct c as [[] [] [] [] [] [] [] []]; discriminate).
  rewrite !append_cons.
  destruct c as [[] [] [] [] [] [] [] []]; try discriminate.
  simpl. destruct (_ && _); [|discriminate].
  destruct (tagTail rest) as [k|] eqn:E; [|discriminate].
  intros [= <-]. by rewrite (tagTail_extend rest b k E).
Qed.

Lemma matchBR_bound (t : string) (n : nat) :
  matchBR t = Some n -> 4 <= n <= String.length t.
Proof.
  destruct t as [|c [|d [|r' rest]]]; try discriminate;
    try (destruct c as [[] [] [] [] [] [] [] []]; discriminate).
  destruct c as [[] [] [] [] [] [] [] []]; try discriminate.
  simpl. destruct (_ && _); [|discriminate].
  destruct (tagTail rest) as [k|] eqn:E; [|discriminate].
  intros [= <-]. apply tagTail_bound in E. lia.
Qed.

Lemma replaceBRFrom_skip (u b : string) :
  replaceBRFrom (String.length u) (u +:+ b) = replaceBRFrom 0 b.
Proof. induction u as [|c u IH]; [reflexivity|]. rewrite append_cons. exact IH. Qed.

Lemma replaceBRFrom_unfold (k : nat) (c : ascii) (r : string) :
  replaceBRFrom k (String c r)
  = match k with
    | S k' => replaceBRFrom k' r
    | O => match matchBR (String c r) with
           | Some n => String LF (replaceBRFrom (n - 1) r)
           | None => String c (replaceBRFrom 0 r)
           end
    end.
Proof. reflexivity. Qed.

Lemma replaceBRFrom_tag (k : nat) (a x b : string) :
  k <= String.length a ->
  matchBR (String "<" x) = Some (String.length (String "<" x)) ->
  replaceBRFrom k (a +:+ String "<" x +:+ b)
  = replaceBRFrom k a +:+ String LF (replaceBR b).
Proof.
  intros Hk Htag. revert k Hk. induction a as [|c a IH]; intros k Hk.
  - simpl in Hk. assert (k = 0) as -> by lia.
    change ("" +:+ String "<" x +:+ b) with (String "<" (x +:+ b)).
    rewrite replaceBRFrom_unfold.
    change (String "<" (x +:+ b)) with (String "<" x +:+ b).
    rewrite (matchBR_extend _ b _ Htag).
    replace (String.length (String "<" x) - 1) with (String.length x) by (simpl; lia).
    by rewrite replaceBRFrom_skip.
  - rewrite append_cons, !replaceBRFrom_unfold. destruct k as [|k].
    + change (String c (a +:+ String "<" x +:+ b))
        with (String c a +:+ String "<" (x +:+ b)).
      rewrite matchBR_before_lt.
      destruct (matchBR (String c a)) as [n|] eqn:E.
      * apply matchBR_bound in E. simpl in E.
        rewrite IH by lia. reflexivity.
      * rewrite IH by lia. reflexivity.
    + simpl in Hk. apply IH. lia.
Qed.

Lemma includes_cons (c : ascii) (s p : string) :
  includes (String c s) p = false ->
  startsWith (String c s) p = false /\ includes s p = false.
Proof.
  unfold includes. rewrite !bool_decide_eq_false, indexOf_unfold.
  intros H. destruct (startsWith (String c s) p); [destruct H; eauto|].
  split; [reflexivity|]. intros [k Hk]. apply H. rewrite Hk. simpl. eauto.
Qed.

Lemma replaceBRFrom_no_lt (s : string) :
  includes s "<" = false -> replaceBRFrom 0 s = s.
Proof.
  induction s as [|c s IH]; [reflexivity|].
  intros H. apply includes_cons in H as [Hc Hs].
  rewrite replaceBRFrom_unfold.
  assert (Hm : matchBR (String c s) = None).
  { destruct c as [[] [] [] [] [] [] [] []]; try reflexivity. discriminate. }
  by rewrite Hm, IH.
Qed.

(** X21. The replacement of line-break tags that [cleanHtmlOutput]
    makes before it decodes entities turns a tag into a line feed and
    works on the text on either side on its own: for a tag [<BR>],
    [<br/>], [<BR />] or any other text the tag pattern matches as a
    whole, replacing in the text before the tag, the tag and the text
    after it gives the replaced text before, a line feed, and the replaced
    text after; a text without [<] is left as it is by the replacement.
    What [cleanHtmlOutput] returns is the entity decoder applied once to
    the whole of the replaced text, whatever the decoder. *)
Theorem X21_break_tags_become_line_feeds (a tag b : string) :
  matchBR tag = Some (String.length tag) ->
  replaceBR (a +:+ tag +:+ b) = replaceBR a +:+ String LF (replaceBR b)
  /\ (forall text, includes text "<" = false -> replaceBR text = text)
  /\ (forall decodeHtmlEntities,
        cleanHtmlOutput decodeHtmlEntities (a +:+ tag +:+ b)
        = decodeHtmlEntities (replaceBR a +:+ String LF (replaceBR b))).
Proof.
  intros Htag.
  assert (Hlt : exists x, tag = String "<" x).
  { destruct tag as [|c x]; [discriminate|].
    destruct c as [[] [] [] [] [] [] [] []]; try (by destruct x as [|? [|? ?]]). eauto. }
  destruct Hlt as [x ->].
  assert (Heq : replaceBR (a +:+ String "<" x +:+ b)
                = replaceBR a +:+ String LF (replaceBR b)).
  { unfold replaceBR. apply replaceBRFrom_tag; [lia | assumption]. }
  split; [exact Heq|]. split; [apply replaceBRFrom_no_lt|].
  intros decode. unfold cleanHtmlOutput.
  rewrite truthy_app_r by reflexivity. simpl negb. cbv iota. by rewrite Heq.
Qed.

Lemma X21_break_tags_witness :
  matchBR "<BR />" = Some 6
  /\ replaceBR ("{}" +:+ "<BR />" +:+ "###END###") = "{}" +:+ String LF "###END###".
Proof.
  split; [reflexivity|].
  exact (proj1 (X21_break_tags_become_line_feeds "{}" "<BR />" "###END###" eq_refl)).
Defined.

(** *** Loading the bridge *)

Lemma loadingOk_noBridge : loadingOk noBridge.
Proof.
  split; simpl; try lia; try done.
Qed.

Lemma In_snoc {A} (x y : A) (l : list A) : In x (l ++ [y]) <-> In x l \/ x = y.
Proof.
  rewrite in_app_iff. simpl. intuition.
Qed.

Ltac bridge_facts :=
  repeat match goal with
    | H : ?a = ?a -> _ |- _ => specialize (H eq_refl)
    | H : ?a <> ?b -> _ |- _ => specialize (H ltac:(discriminate))
    | H : ?P -> _, H' : ?P |- _ => specialize (H H')
    | H : _ /\ _ |- _ => destruct H
    | H : _ \/ _ |- _ => destruct H
    | H : In _ (_ ++ _) |- _ => apply in_app_iff in H
    | H : In _ [_] |- _ => destruct H as [H|[]]
    | H : exists _, _ |- _ => destruct H
    end.

Ltac bridge_inv :=
  simpl; try lia; try done;
  try (intros; bridge_facts; subst; simpl in *;
       try congruence; try lia; try done;
       eauto 6 using in_or_app, in_eq).

Lemma loadingOk_step (e : bridgeEvent) (st : bridgeState) :
  loadingOk st -> loadingOk (bridgeStep e st).
Proof.
  intros [H1 H2 H3 H0 H4 H5 H6 H7].
  destruct st as [rdy pr li sc inj fb br cr stl]. simpl in *.
  destruct e; simpl; unfold ensureBridgeReady, becomeReady; simpl.
  - destruct rdy; [by split|]. destruct pr as [p|]; [by split|].
    destruct (H3 eq_refl) as (-> & -> & -> & _).
    destruct br; split; bridge_inv.
  - split; bridge_inv.
  - destruct li; [|by split]. split; bridge_inv.
  - destruct sc; try by split. split; bridge_inv.
  - destruct sc; try by split. destruct pr as [p|]; split; bridge_inv.
  - destruct fb; [|by split]. destruct rdy; split; bridge_inv.
Qed.

Lemma loadingOk_run (es : list bridgeEvent) (st : bridgeState) :
  loadingOk st -> loadingOk (bridgeRun es st).
Proof.
  revert st. induction es as [|e es IH]; intros st H; [done|].
  apply IH. by apply loadingOk_step.
Qed.

Lemma bridgeRun_app (es es' : list bridgeEvent) (st : bridgeState) :
  bridgeRun (es ++ es') st = bridgeRun es' (bridgeRun es st).
Proof.
  apply foldl_app.
Qed.

(** Once ready, ready for good, and nothing more is created. *)
Lemma ready_step (e : bridgeEvent) (st : bridgeState) :
  bridgeReady st = true ->
  bridgeReady (bridgeStep e st) = true
  /\ injected (bridgeStep e st) = injected st
  /\ created (bridgeStep e st) = created st.
Proof.
  intros H. destruct st as [rdy pr li sc inj fb br cr stl]. simpl in *. subst rdy.
  destruct e; simpl; unfold ensureBridgeReady; simpl; try done.
  - by destruct li.
  - by destruct sc.
  - by destruct sc.
  - by destruct fb.
Qed.

Lemma ready_run (es : list bridgeEvent) (st : bridgeState) :
  bridgeReady st = true ->
  bridgeReady (bridgeRun es st) = true
  /\ injected (bridgeRun es st) = injected st
  /\ created (bridgeRun es st) = created st.
Proof.
  revert st. induction es as [|e es IH]; intros st H; [done|].
  destruct (ready_step e st H) as (H1 & H2 & H3).
  destruct (IH _ H1) as (H4 & H5 & H6). simpl.
  rewrite H5, H6. done.
Qed.

Lemma gaveUp_step (p : nat) (e : bridgeEvent) (st : bridgeState) :
  gaveUp p st ->
  gaveUp p (bridgeStep e st) /\ injected (bridgeStep e st) = injected st.
Proof.
  intros (H1 & H2 & H3 & H4 & H5 & H6 & H7).
  destruct st as [rdy pr li sc inj fb br cr stl]. simpl in *. subst.
  destruct e; simpl; unfold ensureBridgeReady, gaveUp; simpl; done.
Qed.

Lemma gaveUp_run (p : nat) (es : list bridgeEvent) (st : bridgeState) :
  gaveUp p st ->
  gaveUp p (bridgeRun es st) /\ injected (bridgeRun es st) = injected st.
Proof.
  revert st. induction es as [|e es IH]; intros st H; [done|].
  destruct (gaveUp_step p e st H) as (H1 & H2).
  destruct (IH _ H1) as (H3 & H4). simpl. by rewrite H4.
Qed.

(** X22 (api.js, ensureBridgeReady): whatever happens while the bridge
    loads, the client appends at most one script element and creates at
    most one promise. Once the client is ready it stays ready and a call
    returns at once without touching anything. If the script element
    reports an error before the client is ready, the client never becomes
    ready and never loads the script again: every later call hands out the
    same promise, which was rejected with Failed to load API bridge and
    never resolved, even when the bridge shows up in the page later. *)
Theorem X22_bridge_is_loaded_at_most_once (es : list bridgeEvent) :
  let st := bridgeRun es noBridge in
  injected st <= 1
  /\ created st <= 1
  /\ (bridgeReady st = true ->
      forall later,
        let st' := bridgeRun later st in
        bridgeReady st' = true
        /\ injected st' = injected st
        /\ ensureBridgeReady st' = (Nothing, st'))
  /\ (script st = Failed -> bridgeReady st = false ->
      exists p,
        In (ReadyRejected p "Failed to load API bridge") (settled st)
        /\ forall later,
             let st' := bridgeRun later st in
             bridgeReady st' = false
             /\ injected st' = 1
             /\ ensureBridgeReady st' = (Promise p, st')
             /\ ~ In (ReadyResolved p) (settled st')).
Proof.
  intros st.
  pose proof (loadingOk_run es noBridge loadingOk_noBridge) as Hok.
  fold st in Hok. destruct Hok as [H1 H2 H3 H0 H4 H5 H6 H7].
  split; [done|]. split; [done|]. split.
  - intros Hr later st'.
    destruct (ready_run later st Hr) as (Ha & Hb & _). fold st' in Ha, Hb.
    split; [done|]. split; [done|].
    unfold ensureBridgeReady. by rewrite Ha.
  - intros Hf Hr. destruct (H7 Hf) as (p & Hp & Hin). exists p. split; [done|].
    assert (gaveUp p st) as Hg.
    { repeat split; try done.
      - destruct (listening st) eqn:El; [|done].
        destruct (H4 eq_refl) as [E|E]; rewrite E in Hf; done.
      - destruct (fallbackPending st) eqn:Ef; [|done].
        specialize (H5 eq_refl). rewrite H5 in Hf. done.
      - intros Hres. specialize (H6 _ Hres). by rewrite H6 in Hr. }
    assert (injected st = 1) as Hi.
    { apply H0. by rewrite Hf. }
    intros later st'.
    destruct (gaveUp_run p later st Hg) as ((G1 & G2 & G3 & G4 & G5 & G6 & G7) & Hinj).
    fold st' in G1, G2, G3, G4, G5, G6, G7, Hinj.
    split; [done|]. split; [lia|]. split; [|done].
    unfold ensureBridgeReady. by rewrite G2, G5.
Qed.

Lemma X22_failed_load_witness :
  let st := bridgeRun [EnsureCalled; ScriptError] noBridge in
  let st' := bridgeRun [BridgeRuns; EnsureCalled; ReadyMessage] st in
  script st = Failed /\ bridgeReady st = false
  /\ bridgeReady st' = false /\ injected st' = 1
  /\ ensureBridgeReady st' = (Promise 0, st').
Proof.
  destruct (X22_bridge_is_loaded_at_most_once [EnsureCalled; ScriptError])
    as (_ & _ & _ & H).
  destruct (H eq_refl eq_refl) as (p & _ & Hlater).
  destruct (Hlater [BridgeRuns; EnsureCalled; ReadyMessage]) as (H1 & H2 & H3 & _).
  split; [reflexivity|]. split; [reflexivity|].
  split; [exact H1|]. split; [exact H2|].
  pose proof H3 as Hp. vm_compute in Hp. injection Hp as Hp. subst p.
  exact H3.
Defined.

(** *** The list command *)

(** What [loadCacheFromStorage] does: nothing, or it takes the tables
    and the time stamp of a stored item that is young enough. *)
Lemma load_effect (now : Z) (st : cache) :
  loadCacheFromStorage now st = (false, st)
  \/ exists stored stamp,
       storageAvailable st = true /\ storage st = Some (Saved stored stamp)
       /\ (now - stamp < CACHE_DURATION)%Z
       /\ loadCacheFromStorage now st
          = (true,
             {| cachedTables := stored; cacheTimestamp := stamp;
                isFetching := isFetching st; fetchPromise := fetchPromise st;
                storage := storage st; storageAvailable := storageAvailable st;
                running := running st; requests := requests st;
                promises := promises st; resolved := resolved st |}).
Proof.
  unfold loadCacheFromStorage.
  destruct (storageAvailable st) eqn:Ea; [|by left].
  destruct (storage st) as [[|stored stamp]|] eqn:Es; [by left| |by left].
  destruct (now - stamp <? CACHE_DURATION)%Z eqn:E; [|by left].
  right. exists stored, stamp. apply Z.ltb_lt in E. done.
Qed.

Lemma load_fresh (now : Z) (st : cache) (stored : list table_def) (stamp : Z) :
  storageAvailable st = true -> storage st = Some (Saved stored stamp) ->
  (now - stamp < CACHE_DURATION)%Z ->
  cachedTables (snd (loadCacheFromStorage now st)) = stored
  /\ cacheTimestamp (snd (loadCacheFromStorage now st)) = stamp.
Proof.
  intros Ha Hs Hf. unfold loadCacheFromStorage. rewrite Ha, Hs.
  apply Z.ltb_lt in Hf. by rewrite Hf.
Qed.

(** The part of the cache a read depends on. *)
Lemma fetch_effect (c : bool) (now nowLoad : Z) (st : cache) :
  let st' := snd (fetchTableDefinitions c now nowLoad st) in
  storage st' = storage st /\ storageAvailable st' = storageAvailable st
  /\ ((cachedTables st' = cachedTables st /\ cacheTimestamp st' = cacheTimestamp st)
      \/ exists stamp,
           storageAvailable st = true
           /\ storage st = Some (Saved (cachedTables st') stamp)
           /\ (nowLoad - stamp < CACHE_DURATION)%Z).
Proof.
  unfold fetchTableDefinitions.
  destruct (_ && _); [simpl; tauto|].
  destruct (load_effect nowLoad st) as [E|(stored & stamp & Ha & Hs & Hf & E)];
    rewrite E.
  - destruct (isFetching st), (fetchPromise st), c; simpl; tauto.
  - simpl. split; [done|]. split; [done|]. right. exists stamp. by rewrite Hs.
Qed.

Lemma get_effect (c : bool) (r : readings) (st : cache) :
  let st' := snd (getTableDefinitionsAt c r st) in
  fst (getTableDefinitionsAt c r st) = cachedTables st'
  /\ storage st' = storage st /\ storageAvailable st' = storageAvailable st
  /\ (cachedTables st' = cachedTables st
      \/ exists stamp now,
           storageAvailable st = true
           /\ storage st = Some (Saved (cachedTables st') stamp)
           /\ (now - stamp < CACHE_DURATION)%Z
           /\ (now = atLoad r \/ now = atFetchLoad r))
  /\ (cachedTables st = [] ->
      forall stored stamp,
        storageAvailable st = true -> storage st = Some (Saved stored stamp) ->
        (atLoad r - stamp < CACHE_DURATION)%Z ->
        cachedTables st' = stored).
Proof.
  unfold getTableDefinitionsAt, getTableDefinitions. simpl fst. simpl snd.
  set (st1 := if (length (cachedTables st) =? 0)%nat
              then snd (loadCacheFromStorage (atLoad r) st) else st).
  assert (storage st1 = storage st /\ storageAvailable st1 = storageAvailable st
          /\ (cachedTables st1 = cachedTables st
              \/ exists stamp,
                   storageAvailable st = true
                   /\ storage st = Some (Saved (cachedTables st1) stamp)
                   /\ (atLoad r - stamp < CACHE_DURATION)%Z)
          /\ (cachedTables st = [] ->
              forall stored stamp,
                storageAvailable st = true -> storage st = Some (Saved stored stamp) ->
                (atLoad r - stamp < CACHE_DURATION)%Z ->
                cachedTables st1 = stored)) as (S1 & A1 & T1 & F1).
  { unfold st1. destruct (length (cachedTables st) =? 0)%nat eqn:El.
    - destruct (load_effect (atLoad r) st) as [E|(stored & stamp & Ha & Hs & Hf & E)].
      + rewrite E. simpl. split; [done|]. split; [done|]. split; [by left|].
        intros _ stored stamp Ha Hs Hf.
        destruct (load_fresh (atLoad r) st stored stamp Ha Hs Hf) as [H _].
        by rewrite E in H.
      + rewrite E. simpl. split; [done|]. split; [done|]. split.
        * right. exists stamp. by rewrite Hs.
        * intros _ stored' stamp' _ Hs' _. rewrite Hs in Hs'. by simplify_eq.
    - split; [done|]. split; [done|]. split; [by left|].
      intros H. by rewrite H in El. }
  clearbody st1.
  set (st2 := if (CACHE_DURATION <=? atStale r - cacheTimestamp st1)%Z
              then snd (fetchTableDefinitions c (atFetch r) (atFetchLoad r) st1)
              else st1).
  assert (storage st2 = storage st1 /\ storageAvailable st2 = storageAvailable st1
          /\ (cachedTables st2 = cachedTables st1
              \/ exists stamp,
                   storageAvailable st1 = true
                   /\ storage st1 = Some (Saved (cachedTables st2) stamp)
                   /\ (atFetchLoad r - stamp < CACHE_DURATION)%Z))
    as (S2 & A2 & T2).
  { unfold st2. destruct (CACHE_DURATION <=? _)%Z.
    - destruct (fetch_effect c (atFetch r) (atFetchLoad r) st1) as (H1 & H2 & H3).
      split; [done|]. split; [done|]. destruct H3 as [[H3 _]|H3]; [by left|by right].
    - split; [done|]. split; [done|]. by left. }
  clearbody st2.
  split; [done|]. split; [congruence|]. split; [congruence|]. split.
  - destruct T2 as [T2|(stamp & Ha & Hs & Hf)].
    + rewrite T2. destruct T1 as [T1|(stamp & Ha & Hs & Hf)]; [by left|].
      right. exists stamp, (atLoad r). eauto.
    + right. exists stamp, (atFetchLoad r). rewrite <- A1, <- S1. eauto.
  - intros He stored stamp Ha Hs Hf.
    specialize (F1 He stored stamp Ha Hs Hf).
    destruct T2 as [T2|(stamp' & Ha' & Hs' & Hf')]; [congruence|].
    rewrite S1, Hs in Hs'. by simplify_eq.
Qed.

(** Two reads of the table definitions in a row give the same list when
    the memory cache agrees with the stored item and the clock does not go
    backwards. *)
Lemma read_twice (c c' : bool) (r r' : readings) (st : cache) :
  coherent st ->
  ordered r -> ordered r' -> (atFetchLoad r <= atLoad r')%Z ->
  fst (getTableDefinitionsAt c' r' (snd (getTableDefinitionsAt c r st)))
  = fst (getTableDefinitionsAt c r st).
Proof.
  intros Hc (H1 & H2 & H3) (H4 & H5 & H6) H7.
  destruct (get_effect c r st) as (R1 & S1 & A1 & T1 & F1).
  set (st' := snd (getTableDefinitionsAt c r st)) in *.
  destruct (get_effect c' r' st') as (R2 & S2 & A2 & T2 & _).
  set (st'' := snd (getTableDefinitionsAt c' r' st')) in *.
  rewrite R1, R2.
  destruct T2 as [T2|(stamp & now & Ha & Hs & Hf & Hnow)]; [done|].
  rewrite A1 in Ha. rewrite S1 in Hs.
  destruct T1 as [T1|(stamp' & now' & Ha' & Hs' & _)].
  - destruct Hc as [He|Hag].
    + symmetry. apply (F1 He (cachedTables st'') stamp Ha Hs).
      destruct Hnow; lia.
    + rewrite T1. symmetry. by apply (Hag _ stamp).
  - rewrite Hs in Hs'. by simplify_eq.
Qed.

Lemma coherent_same (st st' : cache) :
  cachedTables st' = cachedTables st -> storage st' = storage st ->
  storageAvailable st' = storageAvailable st ->
  coherent st -> coherent st'.
Proof.
  unfold coherent. intros -> -> ->. done.
Qed.

Lemma coherent_finish (p : nat) (st : cache) : coherent st -> coherent (finish p st).
Proof.
  by apply coherent_same.
Qed.

Lemma coherent_step (e : cacheEvent) (st : cache) :
  coherent st -> coherent (cacheStep e st).
Proof.
  intros Hc. destruct e as [c now nowLoad|c n1 n2 n3 n4|p url|p result n1 n2]; simpl.
  - destruct (fetch_effect c now nowLoad st) as (S & A & [[T _]|(stamp & Ha & Hs & _)]).
    + by apply (coherent_same st).
    + right. intros stored stamp' _ Hs'. rewrite S, Hs in Hs'. by simplify_eq.
  - destruct (get_effect c {| atLoad := n1; atStale := n2; atFetch := n3;
                              atFetchLoad := n4 |} st)
      as (_ & S & A & [T|(stamp & now & Ha & Hs & _)] & _).
    + by apply (coherent_same st).
    + right. intros stored stamp' _ Hs'.
      unfold getTableDefinitionsAt in S, Hs. simpl in S, Hs.
      rewrite S, Hs in Hs'. by simplify_eq.
  - unfold instanceUrlArrives. destruct (suspended p false st); [|done].
    destruct (truthyOpt url); [by apply (coherent_same st)|by apply coherent_finish].
  - unfold tablesArrive. destruct (suspended p true st); [|done].
    destruct result as [[|t ts]|]; try by apply coherent_finish.
    apply coherent_finish. unfold saveCacheToStorage. simpl.
    destruct (storageAvailable st) eqn:Ea; simpl.
    + right. simpl. intros stored stamp _ [= <- _]. done.
    + right. simpl. intros stored stamp Ha. congruence.
Qed.

Lemma coherent_run (es : list cacheEvent) (st : cache) :
  coherent st -> coherent (cacheRun es st).
Proof.
  revert st. induction es as [|e es IH]; intros st H; [done|].
  apply IH. by apply coherent_step.
Qed.

Lemma find_table (tables : list table_def) (target : string) :
  match List.find (fun def => String.eqb (table def) target) tables with
  | Some d => d ∈ tables /\ table d = target
  | None => forall d, d ∈ tables -> table d <> target
  end.
Proof.
  destruct (List.find _ tables) as [d|] eqn:E.
  - apply find_some in E as [Hin He]. apply String.eqb_eq in He.
    by rewrite list_elem_of_In.
  - intros d Hd. apply list_elem_of_In in Hd.
    pose proof (find_none _ _ E d Hd) as H. simpl in H.
    by apply String.eqb_neq in H.
Qed.

(** What [resolveTableName] returns for an input that matches a table by
    its technical or its display name is the technical name of a table of
    the list. *)
Lemma resolved_is_listed (tables : list table_def) (input : string) (d : table_def) :
  d ∈ tables ->
  toLowerCase (table d) = toLowerCase input \/ toLowerCase (name d) = toLowerCase input ->
  exists e, e ∈ tables /\ table e = resolveTableName tables input.
Proof.
  intros Hd Hm. unfold resolveTableName.
  destruct (List.find (fun def => (toLowerCase (table def) =? toLowerCase input)%string) tables)
    as [e|] eqn:E.
  - apply find_some in E as [Hin _]. exists e. by rewrite list_elem_of_In.
  - destruct (List.find (fun def => (toLowerCase (name def) =? toLowerCase input)%string) tables)
      as [e|] eqn:E'.
    + apply find_some in E' as [Hin _]. exists e. by rewrite list_elem_of_In.
    + exfalso. apply list_elem_of_In in Hd.
      pose proof (find_none _ _ E d Hd) as H1. pose proof (find_none _ _ E' d Hd) as H2.
      simpl in H1, H2. apply String.eqb_neq in H1, H2. tauto.
Qed.

(** X26 (list.js execute, resolveTableName, getTableDefinitions): in any
    run of the table cache, with the clock not going backwards, the list
    command with an instance URL shows one message, hides the panel and
    navigates once, to the list page of the name that resolveTableName
    gives for the arguments joined by single spaces. The two reads of the
    table definitions it makes return the same list, so when the input
    names a cached table by its technical or display name, up to case, the
    message shows that table's display name with the technical name in
    brackets; when no cached table has the resolved name the message shows
    the resolved name alone, and the command navigates all the same. *)
Theorem X26_list_navigates_to_the_resolved_table
    (es : list cacheEvent) (stored : option item) (available : bool)
    (args : list string) (instance : string) (c : bool) (r r' : readings) :
  let st := cacheRun es (emptyCache stored available) in
  let tables := fst (getTableDefinitionsAt c r st) in
  let input := join " " args in
  let target := resolveTableName tables input in
  truthy instance = true ->
  ordered r -> ordered r' -> (atFetchLoad r <= atLoad r')%Z ->
  exists display,
    fst (Command.execute args (Some instance) c r r' st)
    = [Command.ShowSuccess ("Navigating to " +:+ display +:+ "...");
       Command.Hide;
       Command.Navigate (instance +:+ "/" +:+ target +:+ "_list.do")]
    /\ ((exists d, d ∈ tables
                   /\ (toLowerCase (table d) = toLowerCase input
                       \/ toLowerCase (name d) = toLowerCase input)) ->
        exists d, d ∈ tables /\ table d = target
                  /\ display = name d +:+ " (" +:+ target +:+ ")")
    /\ ((forall d, d ∈ tables -> table d <> target) -> display = target).
Proof.
  intros st tables input target Hi Hr Hr' Hle.
  assert (coherent st) as Hc.
  { apply coherent_run. by left. }
  pose proof (read_twice c c r r' st Hc Hr Hr' Hle) as Htwice.
  unfold Command.execute.
  change (truthyOpt (Some instance)) with (truthy instance). rewrite Hi.
  cbn [negb].
  destruct (getTableDefinitionsAt c r st) as [tables1 st1] eqn:E1.
  cbn [fst snd] in Htwice.
  destruct (getTableDefinitionsAt c r' st1) as [tables2 st2] eqn:E2.
  cbn [fst snd] in Htwice. subst tables2. cbn [fst].
  assert (tables = tables1) as Ht by reflexivity.
  clearbody tables. subst tables1. fold input. fold target.
  pose proof (find_table tables target) as Hfind.
  destruct (List.find (fun def => (table def =? target)%string) tables) as [d|].
  - eexists. split; [reflexivity|]. destruct Hfind as [Hd Htd]. split.
    + intros _. by exists d.
    + intros Hno. by destruct (Hno d Hd).
  - eexists. split; [reflexivity|]. split; [|done].
    intros (d & Hd & Hm).
    destruct (resolved_is_listed tables input d Hd Hm) as (e & He & Hte).
    by destruct (Hfind e He).
Qed.

Lemma X26_list_witness :
  let st := cacheRun [CallFetch true 1000 1000;
                      InstanceUrl 0 (Some "https://dev.example.com");
                      TablesArrive 0 (Some Samples.incidentRows) 2000 2001]
                     (emptyCache None true) in
  let r := {| atLoad := 3000; atStale := 3000; atFetch := 3001; atFetchLoad := 3001 |} in
  let r' := {| atLoad := 3002; atStale := 3002; atFetch := 3002; atFetchLoad := 3003 |} in
  ordered r /\ ordered r' /\ (atFetchLoad r <= atLoad r')%Z
  /\ fst (Command.execute ["Incident"; "TASK"] (Some "https://dev.example.com")
            true r r' st)
     = [Command.ShowSuccess "Navigating to Incident Task (incident_task)...";
        Command.Hide;
        Command.Navigate "https://dev.example.com/incident_task_list.do"].
Proof.
  intros st r r'.
  assert (ordered r) as Hr by (unfold ordered; simpl; lia).
  assert (ordered r') as Hr' by (unfold ordered; simpl; lia).
  assert (atFetchLoad r <= atLoad r')%Z as Hle by (simpl; lia).
  split; [exact Hr|]. split; [exact Hr'|]. split; [exact Hle|].
  destruct (X26_list_navigates_to_the_resolved_table
              [CallFetch true 1000 1000;
               InstanceUrl 0 (Some "https://dev.example.com");
               TablesArrive 0 (Some Samples.incidentRows) 2000 2001]
              None true ["Incident"; "TASK"] "https://dev.example.com" true r r'
              eq_refl Hr Hr' Hle) as (display & Hex & Hfound & _).
  destruct Hfound as (d & Hd & Htd & ->).
  { exists Samples.incident_task. split; [|by right].
    vm_compute. apply list_elem_of_In. right. by left. }
  refine (eq_trans Hex _). clear Hex.
  vm_compute in Hd. apply list_elem_of_In in Hd.
  destruct Hd as [<-|[<-|[]]].
  - vm_compute in Htd. discriminate Htd.
  - reflexivity.
Defined.

(** *** Impersonation *)

Import ImpersonateCommand.

(** What the client throws when the bridge has answered a request. *)
Lemma thrown_answered (type caught fallback : string) (id : option string)
    (f : fetched) :
  thrown fallback (answered type caught id f)
  = if ImpersonateCommand.accepted f then None
    else Some (if truthy (refusal caught f) then refusal caught f else fallback).
Proof.
  unfold thrown, answered, ImpersonateCommand.accepted, refusal, orElse.
  destruct f as [status text [m|]|m]; simpl.
  - destruct (ok status); simpl; [done|]. by destruct (truthy (caught +:+ m)).
  - destruct (ok status); simpl; [done|].
    by destruct (truthy ("API returned: " +:+ pretty status +:+ " " +:+ text)).
  - by destruct (truthy (caught +:+ m)).
Qed.

Lemma refusal_network_truthy (f : fetched) :
  truthy (refusal "Network error: " f) = true.
Proof.
  by destruct f as [status text [m|]|m].
Qed.

(** The listener hands a request of the client to the handler of its
    method: the generated id is never empty. *)
Lemma listener_impersonate (encodeURIComponent : string -> string) (pg : page)
    (typed : list typedScript)
    (xhr : string -> option string) (net : fetchCall -> fetched)
    (now counter : N) (instance username : string) :
  listener encodeURIComponent pg typed xhr net
    (request (requestType Impersonate) (messageIdOf now counter)
       [("username", username); ("instanceUrl", instance)])
  = Some (handleImpersonateRequest encodeURIComponent pg net
            (request (requestType Impersonate) (messageIdOf now counter)
               [("username", username); ("instanceUrl", instance)])).
Proof.
  unfold listener, route. cbn [request type messageId property requestType].
  reflexivity.
Qed.


(** The method [impersonate] of the client, case by case. *)
Lemma impersonate_cases (encodeURIComponent : string -> string) (pg : page)
    (typed : list typedScript) (xhr : string -> option string)
    (net : fetchCall -> fetched) (d : delivery) (now counter : N)
    (instance username : string) :
  let call := impersonateFetch encodeURIComponent pg instance username in
  impersonate encodeURIComponent pg typed xhr net d now counter instance username
  = (match d with BridgeFailed => [] | _ => [FetchCall call] end,
     match d with
     | InTime => if ImpersonateCommand.accepted (net call) then None
                 else Some (refusal "Network error: " (net call))
     | _ => Some (failure "snEzImpersonateRequest" "Network error: "
                    "Impersonation failed" d (net call))
     end).
Proof.
  intros call. unfold impersonate, sendAndAwait.
  rewrite listener_impersonate. unfold handleImpersonateRequest.
  destruct d; simpl; try done.
  fold call. by rewrite thrown_answered, refusal_network_truthy.
Qed.

(** X23 (impersonate.js execute, api.js impersonate and _sendMessage,
    api-bridge.js handleImpersonateRequest): impersonating a user whose
    name is not one of the end keywords.  When the bridge failed to load,
    no request is made; otherwise exactly one is made, a POST to the
    instance's impersonation path with the name as typed, whether or not
    the page has a token.  The page reloads exactly when the reply came
    before the client's timeout and the POST was answered with an ok
    status, and then no error is shown.  Otherwise the panel comes back
    and the last thing shown is Impersonation failed followed by the
    reason: Failed to load API bridge, Request timed out:
    snEzImpersonateRequest, or the bridge's reason; the client's own
    fallback text is never needed. *)
Theorem X23_impersonation_reloads_only_on_success
    (encodeURIComponent : string -> string) (pg : page)
    (typed : list typedScript) (xhr : string -> option string)
    (net : fetchCall -> fetched) (d : delivery) (now counter : N)
    (username : string) (rest : list string) (instance : string) :
  truthy instance = true ->
  existsb (String.eqb (toLowerCase username)) END_KEYWORDS = false ->
  let call := impersonateFetch encodeURIComponent pg instance username in
  exists actions,
    run encodeURIComponent pg typed xhr net d now counter (username :: rest)
      (Some instance)
    = Some actions
    /\ filter isNetwork actions
       = match d with
         | BridgeFailed => []
         | _ => [Network (FetchCall call)]
         end
    /\ url call = instance +:+ "/api/now/ui/impersonate/" +:+ encodeURIComponent username
    /\ method call = "POST"
    /\ (In Reload actions <->
        d = InTime /\ ImpersonateCommand.accepted (net call) = true)
    /\ (In Reload actions -> filter isShowError actions = [])
    /\ (~ In Reload actions ->
        In Show actions
        /\ last actions
           = Some (ShowError
                     ("Impersonation failed: "
                      +:+ match d with
                          | BridgeFailed => "Failed to load API bridge"
                          | TimedOut => "Request timed out: snEzImpersonateRequest"
                          | InTime => refusal "Network error: " (net call)
                          end))).
Proof.
  intros Hi Hk call.
  unfold run, ImpersonateCommand.execute. rewrite Hi, Hk. cbn [negb].
  rewrite impersonate_cases. fold call.
  destruct d.
  - eexists. split; [reflexivity|]. simpl.
    split; [done|]. split; [done|]. split; [done|].
    split.
    { split; [|by intros [? _]]. intros [H|[H|[H|[H|[]]]]]; done. }
    split.
    { intros [H|[H|[H|[H|[]]]]]; done. }
    intros _. split; [right; right; by left|done].
  - destruct (ImpersonateCommand.accepted (net call)) eqn:Ea.
    + eexists. split; [reflexivity|]. simpl.
      split; [done|]. split; [done|]. split; [done|].
      split; [split; [done|]; intros _; right; right; right; by left|].
      split; [done|].
      intros H. exfalso. apply H. right; right; right; by left.
    + eexists. split; [reflexivity|]. simpl.
      split; [done|]. split; [done|]. split; [done|].
      split.
      { split; [|by intros [_ ?]]. intros [H|[H|[H|[H|[H|[]]]]]]; done. }
      split.
      { intros [H|[H|[H|[H|[H|[]]]]]]; done. }
      intros _. split; [right; right; right; by left|done].
  - eexists. split; [reflexivity|]. simpl.
    split; [done|]. split; [done|]. split; [done|].
    split.
    { split; [|by intros [? _]]. intros [H|[H|[H|[H|[H|[]]]]]]; done. }
    split.
    { intros [H|[H|[H|[H|[H|[]]]]]]; done. }
    intros _. split; [right; right; right; by left|done].
Qed.

Lemma X23_impersonation_witness :
  let net := fun _ => Answered 403 "Forbidden" None in
  exists actions,
    run (fun s => s) Samples.anonymousPage [] (fun _ => None) net InTime
      1700000000000 1 ["John.Doe"] (Some "https://dev.example.com") = Some actions
    /\ ~ In Reload actions
    /\ last actions
       = Some (ShowError "Impersonation failed: API returned: 403 Forbidden").
Proof.
  destruct (X23_impersonation_reloads_only_on_success (fun s => s)
              Samples.anonymousPage [] (fun _ => None)
              (fun _ => Answered 403 "Forbidden" None) InTime
              1700000000000%N 1%N "John.Doe" [] "https://dev.example.com"
              eq_refl eq_refl)
    as (actions & Hrun & _ & _ & _ & Hreload & _ & Hfail).
  exists actions. split; [exact Hrun|].
  assert (~ In Reload actions) as Hno.
  { intros H. apply Hreload in H. destruct H as [_ H]. discriminate H. }
  split; [exact Hno|].
  exact (proj2 (Hfail Hno)).
Defined.







Lemma run_defined (encodeURIComponent : string -> string) (pg : page)
    (typed : list typedScript) (xhr : string -> option string)
    (net : fetchCall -> fetched) (d : delivery) (now counter : N)
    (args : list string) (instanceUrl : option string) :
  args <> [] ->
  run encodeURIComponent pg typed xhr net d now counter args instanceUrl <> None.
Proof.
  intros Hne. destruct args as [|a l]; [done|].
  unfold run, ImpersonateCommand.execute.
  destruct instanceUrl as [i|]; [|done].
  destruct (negb (truthy i)); [done|].
  destruct (existsb _ _).
  - by destruct (endImpersonate _ _ _ _ _ _ _ _ _).
  - by destruct (impersonate _ _ _ _ _ _ _ _ _ _).
Qed.

(** X25 (impersonate.js validate and execute, registry execute): however
    the impersonate command is reached through the dispatcher, a line
    without arguments is refused with the usage text and execute is not
    called, and a line with arguments reaches execute with exactly those
    arguments and the dispatch is fulfilled: the access to the first
    argument never fails, and a failure of the client or the bridge is
    shown by the command, not thrown to the dispatcher. *)
Theorem X25_impersonate_needs_an_argument
    (typeError : string) (encodeURIComponent : string -> string) (pg : page)
    (typed : list typedScript) (xhr : string -> option string)
    (net : fetchCall -> fetched) (d : delivery) (now counter : N)
    (instanceUrl : option string) (commandLine : string) (r : registry) :
  let c := descriptor typeError
             (fun args => run encodeURIComponent pg typed xhr net d now counter
                            args instanceUrl) in
  get (commandName commandLine) r = Some c ->
  (args commandLine = [] ->
   CommandRegistry.execute commandLine r
   = ([InvokeValidate c []], Thrown "Usage: impersonate <username|end>"))
  /\ (args commandLine <> [] ->
      CommandRegistry.execute commandLine r
      = ([InvokeValidate c (args commandLine); InvokeExecute c (args commandLine)],
         Returned)).
Proof.
  intros c Hget. unfold CommandRegistry.execute. rewrite Hget.
  cbn [cmd_validate c descriptor].
  split.
  - intros ->. done.
  - intros Hne. destruct (args commandLine) as [|a l] eqn:Ea; [done|].
    cbn [validate]. unfold runCommand. cbn [cmd_execute c descriptor].
    pose proof (run_defined encodeURIComponent pg typed xhr net d now counter
                  (a :: l) instanceUrl Hne) as Hrun.
    destruct (run encodeURIComponent pg typed xhr net d now counter (a :: l)
                instanceUrl); done.
Qed.

Lemma X25_impersonate_argument_witness :
  let c := descriptor "args[0] is undefined"
             (fun args => run (fun s => s) Samples.anonymousPage [] (fun _ => None)
                            (fun _ => FetchFailed "Failed to fetch") TimedOut
                            1700000000000 1 args
                            (Some "https://dev.example.com")) in
  let r := fst (register c empty_registry) in
  get (commandName "SU") r = Some c
  /\ CommandRegistry.execute "SU" r
     = ([InvokeValidate c []], Thrown "Usage: impersonate <username|end>").
Proof.
  intros c r.
  assert (get (commandName "SU") r = Some c) as Hget by reflexivity.
  split; [exact Hget|].
  exact (proj1 (X25_impersonate_needs_an_argument "args[0] is undefined"
                  (fun s => s) Samples.anonymousPage [] (fun _ => None)
                  (fun _ => FetchFailed "Failed to fetch") TimedOut
                  1700000000000%N 1%N
                  (Some "https://dev.example.com") "SU" r Hget) eq_refl).
Defined.
